(** * grpc_core::Map, the AVL map of src/core/lib/gprpp/map.h

    A shallow embedding of the template class [Map<Key, T, Compare>] and of
    its iterator, followed by the proofs of its tree invariants and of the
    behaviour of its public operations.

    Modelling choices.
    - An [Entry*] that owns its subtree is a value of the inductive type
      [Entry]: [nullptr], or a node that carries its own address together
      with the four fields of [struct Entry].  Re-linking (rotations,
      [root->left = ...]) rebuilds the node around the same address, so node
      identity is kept exactly as the heap keeps it.
    - An [iterator] is the pair of raw pointers of the source, [curr_] and
      [map_].  [operator*] and [operator++] are read with the map that
      [map_] points to: they look the address up in the tree of that map.
      [erase(iterator)] is a member of the map it is called on and gets the
      iterator from its caller: it reads the key through the raw pointer,
      which may point to a node of this map or of another live map.  Only a
      pointer to no live node is dangling: the result is then [None].
    - Undefined behaviour (dereferencing a null or dangling pointer, signed
      overflow of the [int32_t] height) and loops that run out of fuel are
      [None]; [size_t] arithmetic wraps modulo 2^64.
    - [New<Entry>] belongs to the allocator (memory.h): the address it returns
      is an argument of the operations that allocate.
    - Stored keys are never written through an iterator; the mapped value
      may be. *)

From Stdlib Require Import ZArith List Bool Lia Sorted.
From Stdlib Require String Ascii.
Import ListNotations.
Open Scope Z_scope.

Declare Scope opt_scope.
Notation "x <- c1 ;; c2" :=
  (match c1 with Some x => c2 | None => None end)
  (at level 61, c1 at next level, right associativity) : opt_scope.
Notation "' pat <- c1 ;; c2" :=
  (match c1 with Some pat => c2 | None => None end)
  (at level 61, pat pattern, c1 at next level, right associativity) : opt_scope.
Open Scope opt_scope.

(** ** Machine integers and pointers *)

(** A pointer is its address; the null pointer is [None] wherever a pointer
    is stored on its own, and the constructor [nullptr] inside trees. *)
Definition Ptr := Z.

Definition SIZE_MAX : Z := 2 ^ 64 - 1.
Definition INT32_MIN : Z := - 2 ^ 31.
Definition INT32_MAX : Z := 2 ^ 31 - 1.

(** [size_t] arithmetic is modular. *)
Definition size_t_wrap (x : Z) : Z := x mod (SIZE_MAX + 1).

(** [int32_t] arithmetic is undefined outside the representable range. *)
Definition int32 (x : Z) : option Z :=
  if (INT32_MIN <=? x) && (x <=? INT32_MAX) then Some x else None.

(** The address of a live object: non-null and representable. *)
Definition valid_ptr (a : Ptr) : Prop := 0 < a <= SIZE_MAX.

Definition valid_ptrb (a : Ptr) : bool := (0 <? a) && (a <=? SIZE_MAX).

(** Modelled from the spec: the macro GPR_MAX comes from the header
    src/core/lib/gpr/useful.h, outside map.h; the spec reads it as the
    maximum of its two arguments
    ([height(node) = 1 + max(height(left), height(right))]). *)
Definition GPR_MAX (a b : Z) : Z := if a >? b then a else b.

(** [b && rhs] where evaluating [rhs] may be undefined: [rhs] is evaluated
    only when [b] holds. *)
Definition and_then (b : bool) (rhs : option bool) : option bool :=
  if b then rhs else Some false.

Definition optPtr_eqb (a b : option Ptr) : bool :=
  match a, b with
  | None, None => true
  | Some x, Some y => x =? y
  | _, _ => false
  end.

(** ** The iterator: two raw pointers *)

Record iterator : Type := mkIterator {
  curr_ : option Ptr;   (* Entry* curr_ *)
  map_ : Ptr            (* GrpcMap* map_ *)
}.

(** [operator==] and [operator!=] of [iterator] and [const_iterator]. *)
Definition iterator_eq (lhs rhs : iterator) : bool :=
  optPtr_eqb (curr_ lhs) (curr_ rhs).

Definition iterator_neq (lhs rhs : iterator) : bool :=
  negb (optPtr_eqb (curr_ lhs) (curr_ rhs)).

(** ** The comparator

    The template parameter [Compare]: a default-constructible function
    object whose call operator is the "less than" of the keys. *)
Class Compare (Key : Type) : Type := key_compare : Key -> Key -> bool.

(** [std::less<Key>] at an integral key type. *)
#[export] Instance std_less_Z : Compare Z := Z.ltb.




(** [RefCountedPtrLess<T>::operator()]: the order of the addresses that the
    two [RefCountedPtr] hold, [p.get()]. *)
Definition RefCountedPtrLess : Compare Ptr :=
  fun p1 p2 => p1 <? p2.

Section GrpcMap.

Context {Key T : Type} {key_compare_ : Compare Key}.
Variable T_default : T.                  (* T() *)

Definition value_type : Type := (Key * T)%type.

(** [struct Entry] behind an owning [Entry*]. *)
Inductive Entry : Type :=
| nullptr
| mkEntry (addr : Ptr) (pair : value_type) (left right : Entry) (height : Z).

Record Map : Type := mkMap {
  root_ : Entry;
  size_ : Z
}.

(** [Map() = default]. *)
Definition Map_default : Map := {| root_ := nullptr; size_ := 0 |}.

Definition ptr_of (e : Entry) : option Ptr :=
  match e with
  | nullptr => None
  | mkEntry a _ _ _ _ => Some a
  end.

Definition CompareKeys (lhs rhs : Key) : Z :=
  let left_comparison := key_compare lhs rhs in
  let right_comparison := key_compare rhs lhs in
  if negb left_comparison && negb right_comparison then 0
  else if left_comparison then -1 else 1.

Definition EntryHeight (e : Entry) : Z :=
  match e with
  | nullptr => 0
  | mkEntry _ _ _ _ h => h
  end.

Fixpoint GetMinEntry (e : Entry) : Entry :=
  match e with
  | nullptr => nullptr
  | mkEntry _ _ l _ _ =>
      match l with
      | nullptr => e
      | mkEntry _ _ _ _ _ => GetMinEntry l
      end
  end.

(** The loop of [InOrderSuccessor]: [iter] walks down from the root,
    [successor] is the last node left through its left child. *)
Fixpoint InOrderSuccessor_loop (iter : Entry) (k : Key) (successor : Entry)
  : Entry :=
  match iter with
  | nullptr => successor
  | mkEntry _ p l r _ =>
      let comp := CompareKeys (fst p) k in
      if comp >? 0 then InOrderSuccessor_loop l k iter
      else if comp <? 0 then InOrderSuccessor_loop r k successor
      else successor
  end.

(** [root_] is the member of the map the method is called on. *)
Definition InOrderSuccessor (root_ : Entry) (e : Entry) : option Entry :=
  match e with
  | nullptr => None
  | mkEntry _ p _ r _ =>
      match r with
      | mkEntry _ _ _ _ _ => Some (GetMinEntry r)
      | nullptr => Some (InOrderSuccessor_loop root_ (fst p) nullptr)
      end
  end.

Definition RotateLeft (e : Entry) : option Entry :=
  match e with
  | nullptr => None
  | mkEntry a p l rightChild _ =>
      match rightChild with
      | nullptr => None
      | mkEntry ra rp rightLeftChild rr _ =>
          h <- int32 (1 + GPR_MAX (EntryHeight l) (EntryHeight rightLeftChild)) ;;
          let e' := mkEntry a p l rightLeftChild h in
          rh <- int32 (1 + GPR_MAX (EntryHeight e') (EntryHeight rr)) ;;
          Some (mkEntry ra rp e' rr rh)
      end
  end.

Definition RotateRight (e : Entry) : option Entry :=
  match e with
  | nullptr => None
  | mkEntry a p leftChild r _ =>
      match leftChild with
      | nullptr => None
      | mkEntry la lp ll leftRightChild _ =>
          h <- int32 (1 + GPR_MAX (EntryHeight leftRightChild) (EntryHeight r)) ;;
          let e' := mkEntry a p leftRightChild r h in
          lh <- int32 (1 + GPR_MAX (EntryHeight ll) (EntryHeight e')) ;;
          Some (mkEntry la lp ll e' lh)
      end
  end.

(** [CompareKeys(e->pair.first, k)] tested by [test], for a pointer [e] that
    the source dereferences. *)
Definition compare_first (e : Entry) (k : Key) (test : Z -> bool)
  : option bool :=
  match e with
  | nullptr => None
  | mkEntry _ p _ _ _ => Some (test (CompareKeys (fst p) k))
  end.

Definition RebalanceTreeAfterInsertion (root : Entry) (k : Key)
  : option Entry :=
  match root with
  | nullptr => None
  | mkEntry a p l r _ =>
      h <- int32 (1 + GPR_MAX (EntryHeight l) (EntryHeight r)) ;;
      heightDifference <- int32 (EntryHeight l - EntryHeight r) ;;
      let root := mkEntry a p l r h in
      c1 <- and_then (heightDifference >? 1)
                     (compare_first l k (fun c => c >? 0)) ;;
      if c1 then RotateRight root else
      c2 <- and_then (heightDifference <? -1)
                     (compare_first r k (fun c => c <? 0)) ;;
      if c2 then RotateLeft root else
      c3 <- and_then (heightDifference >? 1)
                     (compare_first l k (fun c => c <? 0)) ;;
      if c3 then
        l' <- RotateLeft l ;; RotateRight (mkEntry a p l' r h)
      else
      c4 <- and_then (heightDifference <? -1)
                     (compare_first r k (fun c => c >? 0)) ;;
      if c4 then
        r' <- RotateRight r ;; RotateLeft (mkEntry a p l r' h)
      else Some root
  end.

(** [EntryHeight(e->left) - EntryHeight(e->right)] for a pointer [e] that the
    source dereferences. *)
Definition child_height_difference (e : Entry) : option Z :=
  match e with
  | nullptr => None
  | mkEntry _ _ l r _ => int32 (EntryHeight l - EntryHeight r)
  end.

Definition RebalanceTreeAfterDeletion (root : Entry) : option Entry :=
  match root with
  | nullptr => None
  | mkEntry a p l r _ =>
      h <- int32 (1 + GPR_MAX (EntryHeight l) (EntryHeight r)) ;;
      heightDifference <- int32 (EntryHeight l - EntryHeight r) ;;
      let root := mkEntry a p l r h in
      if heightDifference >? 1 then
        leftHeightDifference <- child_height_difference l ;;
        if leftHeightDifference <? 0 then
          l' <- RotateLeft l ;; RotateRight (mkEntry a p l' r h)
        else RotateRight root
      else if heightDifference <? -1 then
        rightHeightDifference <- child_height_difference r ;;
        if rightHeightDifference >? 0 then
          r' <- RotateRight r ;; RotateLeft (mkEntry a p l r' h)
        else RotateLeft root
      else Some root
  end.

(** *** The heap seen through a tree: lookup and update by address *)

(** The node stored at address [a] (the first one in in-order, should an
    ill-formed tree hold several), [nullptr] when there is none. *)
Fixpoint entry_at (t : Entry) (a : Ptr) : Entry :=
  match t with
  | nullptr => nullptr
  | mkEntry b _ l r _ =>
      match entry_at l a with
      | mkEntry _ _ _ _ _ as e => e
      | nullptr => if b =? a then t else entry_at r a
      end
  end.

(** [e->pair = p] for the node [e] stored at address [a]. *)
Fixpoint set_pair (t : Entry) (a : Ptr) (p : value_type) : Entry :=
  match t with
  | nullptr => nullptr
  | mkEntry b q l r h =>
      match entry_at l a with
      | mkEntry _ _ _ _ _ => mkEntry b q (set_pair l a p) r h
      | nullptr =>
          if b =? a then mkEntry b p l r h
          else mkEntry b q l (set_pair r a p) h
      end
  end.

(** Number of nested levels: the recursion depth of a descent. *)
Fixpoint depth (t : Entry) : nat :=
  match t with
  | nullptr => O
  | mkEntry _ _ l r _ => S (Nat.max (depth l) (depth r))
  end.

(** In-order list of the nodes: address and stored pair. *)
Fixpoint nodes (t : Entry) : list (Ptr * value_type) :=
  match t with
  | nullptr => []
  | mkEntry a p l r _ => nodes l ++ (a, p) :: nodes r
  end.

(** The pair of the first node of the sequence [ns] that lies at address
    [a]. *)
Fixpoint node_at (ns : list (Ptr * value_type)) (a : Ptr)
  : option value_type :=
  match ns with
  | [] => None
  | (b, p) :: ns' => if b =? a then Some p else node_at ns' a
  end.

Section Members.

(** The address of the map object the member functions are called on. *)
Variable this : Ptr.

Definition end_ : iterator := mkIterator None this.

Definition begin (m : Map) : iterator :=
  let curr := GetMinEntry (root_ m) in
  mkIterator (ptr_of curr) this.

Definition size (m : Map) : Z := size_ m.

Definition empty (m : Map) : bool :=
  match root_ m with
  | nullptr => true
  | mkEntry _ _ _ _ _ => false
  end.

(** [operator*] and [operator->]: the pair of the node [curr_] points to. *)
Definition deref (m : Map) (it : iterator) : option value_type :=
  a <- curr_ it ;;
  match entry_at (root_ m) a with
  | nullptr => None
  | mkEntry _ p _ _ _ => Some p
  end.

(** [operator++], where [m] is the map [map_] points to. *)
Definition incr (m : Map) (it : iterator) : option iterator :=
  a <- curr_ it ;;
  s <- InOrderSuccessor (root_ m) (entry_at (root_ m) a) ;;
  Some (mkIterator (ptr_of s) (map_ it)).

Fixpoint find_loop (iter : Entry) (k : Key) : Entry :=
  match iter with
  | nullptr => nullptr
  | mkEntry _ p l r _ =>
      let comp := CompareKeys (fst p) k in
      if comp =? 0 then iter
      else if comp <? 0 then find_loop r k
      else find_loop l k
  end.

Definition find (m : Map) (k : Key) : iterator :=
  mkIterator (ptr_of (find_loop (root_ m) k)) this.

(** [e] is the address of the node [New<Entry>] returns; the key handed to
    the rebalancing, [ret.first->first], is the key of the pair just stored. *)
Fixpoint InsertRecursive (e : Ptr) (root : Entry) (p : value_type)
  : option (iterator * Entry) :=
  match root with
  | nullptr => Some (mkIterator (Some e) this, mkEntry e p nullptr nullptr 1)
  | mkEntry a q l r h =>
      let comp := CompareKeys (fst q) (fst p) in
      if comp >? 0 then
        '(it, l') <- InsertRecursive e l p ;;
        root' <- RebalanceTreeAfterInsertion (mkEntry a q l' r h) (fst p) ;;
        Some (it, root')
      else if comp <? 0 then
        '(it, r') <- InsertRecursive e r p ;;
        root' <- RebalanceTreeAfterInsertion (mkEntry a q l r' h) (fst p) ;;
        Some (it, root')
      else
        Some (mkIterator (Some a) this, mkEntry a p l r h)
  end.

Definition emplace (m : Map) (e : Ptr) (pair : value_type)
  : option ((iterator * bool) * Map) :=
  let ret := find m (fst pair) in
  if iterator_eq ret end_ then
    '(it, root') <- InsertRecursive e (root_ m) pair ;;
    Some ((it, true),
          {| root_ := root'; size_ := size_t_wrap (size_ m + 1) |})
  else Some ((ret, false), m).

Definition insert (m : Map) (e : Ptr) (pair : value_type)
  : option ((iterator * bool) * Map) :=
  emplace m e pair.

(** [operator[]]: the reference it returns is the [second] of the node the
    returned iterator points to. *)
Definition subscript (m : Map) (e : Ptr) (key : Key)
  : option (iterator * Map) :=
  let iter := find m key in
  if iterator_eq iter end_ then
    '((it, _), m') <- emplace m e (key, T_default) ;;
    Some (it, m')
  else Some (iter, m).

(** [root_] is the tree the map owns while the call runs (what
    [InOrderSuccessor] walks), [root] the subtree being rewritten.  Every
    call descends one level, so [fuel] bounds the depth of the recursion. *)
Fixpoint RemoveRecursive (fuel : nat) (root_ : Entry) (root : Entry) (k : Key)
  : option (iterator * Entry) :=
  match fuel with
  | O => None
  | S fuel =>
      match root with
      | nullptr => Some (end_, nullptr)
      | mkEntry a p l r h =>
          let comp := CompareKeys (fst p) k in
          if comp >? 0 then
            '(it, l') <- RemoveRecursive fuel root_ l k ;;
            root' <- RebalanceTreeAfterDeletion (mkEntry a p l' r h) ;;
            Some (it, root')
          else if comp <? 0 then
            '(it, r') <- RemoveRecursive fuel root_ r k ;;
            root' <- RebalanceTreeAfterDeletion (mkEntry a p l r' h) ;;
            Some (it, root')
          else
            successor <- InOrderSuccessor root_ root ;;
            match l, r with
            | nullptr, _ => Some (mkIterator (ptr_of successor) this, r)
            | _, nullptr => Some (mkIterator (ptr_of successor) this, l)
            | _, _ =>
                match successor with
                | nullptr => None
                | mkEntry b q _ _ _ =>
                    (* root->pair.swap(entry->pair) *)
                    let root_' := set_pair (set_pair root_ a q) b p in
                    let r' := set_pair r b p in
                    '(_, r'') <- RemoveRecursive fuel root_' r' (fst p) ;;
                    root' <- RebalanceTreeAfterDeletion (mkEntry a q l r'' h) ;;
                    Some (mkIterator (Some a) this, root')
                end
            end
      end
  end.

(** The nodes of the other live maps, address and pair.  An [Entry*] that
    points to no node of this map may still point to one of them; a
    non-null pointer to no live node at all is dangling. *)
Variable others : list (Ptr * value_type).

(** [iter->first] in [erase(iterator)]: the pair read through the raw
    pointer [curr_], whichever live map owns the node it points to. *)
Definition raw_deref (m : Map) (it : iterator) : option value_type :=
  a <- curr_ it ;;
  match entry_at (root_ m) a with
  | mkEntry _ p _ _ _ => Some p
  | nullptr => node_at others a
  end.

(** No test relates [iter] to this map: the key is read through the
    pointer, [RemoveRecursive] is run with it on the tree of this map, and
    [size_] is decremented whether or not a node was removed. *)
Definition erase_iter (m : Map) (iter : iterator) : option (iterator * Map) :=
  if iterator_eq iter end_ then Some (iter, m)
  else
    '(del_key, _) <- raw_deref m iter ;;
    '(it, root') <- RemoveRecursive (S (depth (root_ m)))
                                    (root_ m) (root_ m) del_key ;;
    Some (it, {| root_ := root'; size_ := size_t_wrap (size_ m - 1) |}).

Definition erase (m : Map) (key : Key) : option (Z * Map) :=
  let it := find m key in
  if iterator_eq it end_ then Some (0, m)
  else
    '(_, m') <- erase_iter m it ;;
    Some (1, m').

(** [std::find_if] of <algorithm>, on iterators of the map [m]:
    [for (; first != last; ++first) if (pred( *first)) return first;
     return last;].  The loop runs once per entry: [fuel] bounds it. *)
Fixpoint find_if (fuel : nat) (m : Map) (first last : iterator)
  (pred : value_type -> bool) : option iterator :=
  match fuel with
  | O => None
  | S fuel =>
      if iterator_neq first last then
        v <- deref m first ;;
        if pred v then Some first
        else
          first' <- incr m first ;;
          find_if fuel m first' last pred
      else Some last
  end.

Definition lower_bound (m : Map) (k : Key) : option iterator :=
  find_if (S (length (nodes (root_ m)))) m (begin m) end_
          (fun v => negb (key_compare (fst v) k)).

(** The range-based [for] over a map, [for (it = first; it != last; ++it)],
    recording the node each step stands on and the pair it reads. *)
Fixpoint traverse (fuel : nat) (m : Map) (first last : iterator)
  : option (list (Ptr * value_type)) :=
  match fuel with
  | O => None
  | S fuel =>
      if iterator_neq first last then
        a <- curr_ first ;;
        v <- deref m first ;;
        first' <- incr m first ;;
        rest <- traverse fuel m first' last ;;
        Some ((a, v) :: rest)
      else Some []
  end.

Definition range_for (m : Map) : option (list (Ptr * value_type)) :=
  traverse (S (length (nodes (root_ m)))) m (begin m) end_.

(** The loop of [clear]: [while (!empty()) iter = erase(iter);]. *)
Fixpoint clear_loop (fuel : nat) (m : Map) (iter : iterator) : option Map :=
  match fuel with
  | O => None
  | S fuel =>
      if negb (empty m) then
        '(iter', m') <- erase_iter m iter ;;
        clear_loop fuel m' iter'
      else Some m
  end.

Definition clear (m : Map) : option Map :=
  let iter := begin m in
  clear_loop (S (length (nodes (root_ m)))) m iter.

(** [emplace(p)] for each pair [p] that a range-for over the source of a
    copy reads; [es] holds, for each call, the address [New<Entry>] returns
    if that call allocates. *)
Fixpoint emplace_each (m : Map) (es : list Ptr) (ps : list value_type)
  {struct ps} : option Map :=
  match ps, es with
  | [], _ => Some m
  | p :: ps', e :: es' =>
      '(_, m') <- emplace m e p ;;
      emplace_each m' es' ps'
  | _ :: _, [] => None
  end.

(** [it->second = v] and [m[k] = v]: a write to the mapped value through a
    reference into the node.  The write is no member of a map: [m] is the
    map that owns the node written to. *)
Definition assign_second (m : Map) (it : iterator) (v : T) : option Map :=
  a <- curr_ it ;;
  match entry_at (root_ m) a with
  | nullptr => None
  | mkEntry _ p _ _ _ =>
      Some {| root_ := set_pair (root_ m) a (fst p, v); size_ := size_ m |}
  end.

(** *** Sequences of operations on one map *)

Inductive Op : Type :=
| OpEmplace (e : Ptr) (pair : value_type)
| OpInsert (e : Ptr) (pair : value_type)
| OpSubscript (e : Ptr) (key : Key)
| OpAssign (it : iterator) (v : T)
| OpErase (key : Key)
| OpEraseIter (iter : iterator)
| OpClear.

(** The allocator never returns null nor the address of a live node. *)
Definition fresh_ptrb (t : Entry) (e : Ptr) : bool :=
  valid_ptrb e && negb (existsb (Z.eqb e) (map fst (nodes t))).

(** One operation; [None] when it is undefined behaviour or when the
    address supplied for the allocator is one it cannot return. *)
Definition apply_op (m : Map) (o : Op) : option Map :=
  match o with
  | OpEmplace e p =>
      if fresh_ptrb (root_ m) e then option_map snd (emplace m e p)
      else None
  | OpInsert e p =>
      if fresh_ptrb (root_ m) e then option_map snd (insert m e p)
      else None
  | OpSubscript e key =>
      if fresh_ptrb (root_ m) e then option_map snd (subscript m e key)
      else None
  | OpAssign it v => assign_second m it v
  | OpErase key => option_map snd (erase m key)
  | OpEraseIter iter => option_map snd (erase_iter m iter)
  | OpClear => clear m
  end.

Fixpoint run_ops (m : Map) (ops : list Op) : option Map :=
  match ops with
  | [] => Some m
  | o :: ops' => m' <- apply_op m o ;; run_ops m' ops'
  end.

(** The reference of the spec for [lower_bound]: a descent from the root
    that keeps the last node whose key is not less than [k]. *)
Fixpoint lower_bound_descent_loop (iter : Entry) (k : Key) (candidate : Entry)
  : Entry :=
  match iter with
  | nullptr => candidate
  | mkEntry _ p l r _ =>
      if key_compare (fst p) k then lower_bound_descent_loop r k candidate
      else lower_bound_descent_loop l k iter
  end.

Definition lower_bound_descent (m : Map) (k : Key) : iterator :=
  mkIterator (ptr_of (lower_bound_descent_loop (root_ m) k nullptr)) this.

End Members.

(** *** Construction and assignment from another map *)

(** [Map(Map&& other)]: the new map and what is left of [other]. *)
Definition move_construct (other : Map) : Map * Map :=
  ({| root_ := root_ other; size_ := size_ other |},
   {| root_ := nullptr; size_ := 0 |}).

(** [operator=(Map&& other)] on the map [m] at address [this]: the map and
    what is left of [other]; [other_this] is [&other], and [others] the
    nodes of the live maps other than [m]. *)
Definition move_assign (this : Ptr) (others : list (Ptr * value_type))
  (m : Map) (other_this : Ptr) (other : Map) : option (Map * Map) :=
  if negb (this =? other_this) then
    _ <- clear this others m ;;
    Some ({| root_ := root_ other; size_ := size_ other |},
          {| root_ := nullptr; size_ := 0 |})
  else Some (m, other).

(** [Map(const Map& other)]. *)
Definition copy_construct (this : Ptr) (other_this : Ptr) (other : Map)
  (es : list Ptr) : option Map :=
  ps <- range_for other_this other ;;
  emplace_each this Map_default es (map snd ps).

(** [operator=(const Map& other)]. *)
Definition copy_assign (this : Ptr) (others : list (Ptr * value_type))
  (m : Map) (other_this : Ptr) (other : Map) (es : list Ptr) : option Map :=
  if negb (this =? other_this) then
    m0 <- clear this others m ;;
    ps <- range_for other_this other ;;
    emplace_each this m0 es (map snd ps)
  else Some m.

(** ** Programs over several maps

    The live [Map] objects of a program, each at its address, and the
    statements that create, use and destroy them. *)

Definition World : Type := list (Ptr * Map).

Fixpoint world_get (w : World) (obj : Ptr) : option Map :=
  match w with
  | [] => None
  | (o, m) :: w' => if o =? obj then Some m else world_get w' obj
  end.

Fixpoint world_set (w : World) (obj : Ptr) (m : Map) : World :=
  match w with
  | [] => [(obj, m)]
  | (o, m0) :: w' =>
      if o =? obj then (o, m) :: w' else (o, m0) :: world_set w' obj m
  end.

Fixpoint world_del (w : World) (obj : Ptr) : World :=
  match w with
  | [] => []
  | (o, m0) :: w' =>
      if o =? obj then world_del w' obj else (o, m0) :: world_del w' obj
  end.

(** The addresses of the nodes owned by the live maps. *)
Definition live_nodes (w : World) : list Ptr :=
  flat_map (fun om => map fst (nodes (root_ (snd om)))) w.

(** The nodes, address and pair, of the live maps other than the one at
    [obj]. *)
Definition other_nodes (w : World) (obj : Ptr) : list (Ptr * value_type) :=
  flat_map (fun om => nodes (root_ (snd om))) (world_del w obj).

Inductive Stmt : Type :=
| Construct (obj : Ptr)
| MoveConstruct (obj other : Ptr)
| CopyConstruct (obj other : Ptr) (es : list Ptr)
| MoveAssign (obj other : Ptr)
| CopyAssign (obj other : Ptr) (es : list Ptr)
| Call (obj : Ptr) (o : Op)
| Destroy (obj : Ptr).

(** The addresses a statement takes from the allocator. *)
Definition allocated (s : Stmt) : list Ptr :=
  match s with
  | CopyConstruct _ _ es | CopyAssign _ _ es => es
  | Call _ (OpEmplace e _) | Call _ (OpInsert e _)
  | Call _ (OpSubscript e _) => [e]
  | _ => []
  end.

Fixpoint distinctb (xs : list Ptr) : bool :=
  match xs with
  | [] => true
  | x :: xs' => negb (existsb (Z.eqb x) xs') && distinctb xs'
  end.

(** The allocator hands out valid addresses, distinct from one another and
    from those of the live nodes. *)
Definition allocator_okb (w : World) (es : list Ptr) : bool :=
  forallb valid_ptrb es && distinctb es &&
  forallb (fun e => negb (existsb (Z.eqb e) (live_nodes w))) es.

Definition is_live (w : World) (obj : Ptr) : bool :=
  match world_get w obj with Some _ => true | None => false end.

(** One statement; [None] when it is undefined (an object used outside its
    lifetime, an undefined operation) or outside the allocator's contract. *)
Definition exec (w : World) (s : Stmt) : option World :=
  if negb (allocator_okb w (allocated s)) then None else
  match s with
  | Construct obj =>
      if is_live w obj then None
      else Some (world_set w obj Map_default)
  | MoveConstruct obj other =>
      if is_live w obj then None
      else
        o <- world_get w other ;;
        let '(m, o') := move_construct o in
        Some (world_set (world_set w other o') obj m)
  | CopyConstruct obj other es =>
      if is_live w obj then None
      else
        o <- world_get w other ;;
        m <- copy_construct obj other o es ;;
        Some (world_set w obj m)
  | MoveAssign obj other =>
      m <- world_get w obj ;;
      o <- world_get w other ;;
      '(m', o') <- move_assign obj (other_nodes w obj) m other o ;;
      Some (world_set (world_set w other o') obj m')
  | CopyAssign obj other es =>
      m <- world_get w obj ;;
      o <- world_get w other ;;
      m' <- copy_assign obj (other_nodes w obj) m other o es ;;
      Some (world_set w obj m')
  | Call obj o =>
      m <- world_get w obj ;;
      m' <- apply_op obj (other_nodes w obj) m o ;;
      Some (world_set w obj m')
  | Destroy obj =>
      m <- world_get w obj ;;
      _ <- clear obj (other_nodes w obj) m ;;
      Some (world_del w obj)
  end.

Fixpoint run (w : World) (prog : list Stmt) : option World :=
  match prog with
  | [] => Some w
  | s :: prog' => w' <- exec w s ;; run w' prog'
  end.

End GrpcMap.

(** ** Specification vocabulary *)

Section Specification.

Context {Key T : Type} {key_compare_ : Compare Key}.

Definition key_lt (x y : Key) : Prop := key_compare x y = true.

(** Two keys are equivalent when neither is less than the other: what
    [CompareKeys] reports as 0. *)
Definition key_equiv (x y : Key) : Prop :=
  key_compare x y = false /\ key_compare y x = false.

Definition node_key (n : Ptr * @value_type Key T) : Key := fst (snd n).

Definition keys (t : @Entry Key T) : list Key := map node_key (nodes t).

Definition addrs (t : @Entry Key T) : list Ptr := map fst (nodes t).

Definition pairs (t : @Entry Key T) : list (@value_type Key T) :=
  map snd (nodes t).

(** The height of the subtree, computed from its shape. *)
Fixpoint tree_height (t : @Entry Key T) : Z :=
  match t with
  | nullptr => 0
  | mkEntry _ _ l r _ => 1 + Z.max (tree_height l) (tree_height r)
  end.

(** Invariants 1 to 3 of the tree, at every node: search-tree order, AVL
    balance, and the cached height. *)
Fixpoint tree_invariant (t : @Entry Key T) : Prop :=
  match t with
  | nullptr => True
  | mkEntry _ p l r h =>
      Forall (fun k => key_compare k (fst p) = true) (keys l) /\
      Forall (fun k => key_compare (fst p) k = true) (keys r) /\
      Z.abs (tree_height l - tree_height r) <= 1 /\
      h = 1 + Z.max (tree_height l) (tree_height r) /\
      tree_invariant l /\ tree_invariant r
  end.

(** The search-tree order alone. *)
Fixpoint bst (t : @Entry Key T) : Prop :=
  match t with
  | nullptr => True
  | mkEntry _ p l r _ =>
      Forall (fun k => key_lt k (fst p)) (keys l) /\
      Forall (fun k => key_lt (fst p) k) (keys r) /\
      bst l /\ bst r
  end.

(** Balance and cached heights, read off the cached heights themselves. *)
Fixpoint avl (t : @Entry Key T) : Prop :=
  match t with
  | nullptr => True
  | mkEntry _ _ l r h =>
      h = 1 + Z.max (EntryHeight l) (EntryHeight r) /\
      -1 <= EntryHeight l - EntryHeight r <= 1 /\
      avl l /\ avl r
  end.

(** A well-formed map: the invariants of the tree, nodes at pairwise
    distinct valid addresses, and [size_] counting them. *)
Record Map_ok (m : @Map Key T) : Prop := {
  ok_bst : bst (root_ m);
  ok_avl : avl (root_ m);
  ok_distinct : NoDup (addrs (root_ m));
  ok_valid : Forall valid_ptr (addrs (root_ m));
  ok_size : size_ m = Z.of_nat (length (nodes (root_ m)))
}.

(** The invariants of the tree and of its nodes alone, whatever [size_]
    holds. *)
Record Tree_ok (m : @Map Key T) : Prop := {
  tok_bst : bst (root_ m);
  tok_avl : avl (root_ m);
  tok_distinct : NoDup (addrs (root_ m));
  tok_valid : Forall valid_ptr (addrs (root_ m))
}.

(** What the allocator promises about the address of a new node. *)
Definition fresh_ptr (t : @Entry Key T) (e : Ptr) : Prop :=
  valid_ptr e /\ ~ In e (addrs t).

(** *** Vocabulary of the proofs *)

Implicit Types t l r : @Entry Key T.
Implicit Types m : @Map Key T.
Implicit Types w : @World Key T.

(** The tree grew by one level around the key [k] just inserted: either it
    is the new leaf, or [k] went to the side that is now the taller one. *)
Definition ins_grew (k : Key) t : Prop :=
  match t with
  | nullptr => False
  | mkEntry _ p l r _ =>
      (l = nullptr /\ r = nullptr) \/
      ((CompareKeys (fst p) k >? 0) = true /\
       EntryHeight l = EntryHeight r + 1) \/
      ((CompareKeys (fst p) k <? 0) = true /\
       EntryHeight r = EntryHeight l + 1)
  end.

(** What an insertion below leaves: the height [h0] it found, or one more
    with the shape [ins_grew]. *)
Definition ins_height (k : Key) (h0 : Z) t : Prop :=
  EntryHeight t = h0 \/ (EntryHeight t = h0 + 1 /\ ins_grew k t).

(** What a removal below leaves: the height [h0] it found, or one less. *)
Definition del_height (h0 : Z) t : Prop :=
  EntryHeight t = h0 \/ EntryHeight t = h0 - 1.

(** Well-formedness as a computation, to check concrete maps. *)
Fixpoint bstb (t : @Entry Key T) : bool :=
  match t with
  | nullptr => true
  | mkEntry _ p l r _ =>
      forallb (fun k => key_compare k (fst p)) (keys l) &&
      forallb (fun k => key_compare (fst p) k) (keys r) &&
      bstb l && bstb r
  end.

Fixpoint avlb (t : @Entry Key T) : bool :=
  match t with
  | nullptr => true
  | mkEntry _ _ l r h =>
      (h =? 1 + Z.max (EntryHeight l) (EntryHeight r)) &&
      (-1 <=? EntryHeight l - EntryHeight r) &&
      (EntryHeight l - EntryHeight r <=? 1) &&
      avlb l && avlb r
  end.

Definition Map_okb (m : @Map Key T) : bool :=
  bstb (root_ m) && avlb (root_ m) &&
  distinctb (addrs (root_ m)) && forallb valid_ptrb (addrs (root_ m)) &&
  (size_ m =? Z.of_nat (length (nodes (root_ m)))).

(** The order of the search tree, read on the in-order sequence of the
    nodes. *)
Definition node_lt n1 n2 : Prop := key_lt (node_key n1) (node_key n2).

Definition sorted (ns : list (Ptr * @value_type Key T)) : Prop :=
  StronglySorted node_lt ns.

(** [s] is a node of [t], with everything below it. *)
Inductive subtree (s : @Entry Key T) : @Entry Key T -> Prop :=
| subtree_here : subtree s s
| subtree_left a p l r h : subtree s l -> subtree s (mkEntry a p l r h)
| subtree_right a p l r h : subtree s r -> subtree s (mkEntry a p l r h).

(** The address of the first node of a sequence, null when it is empty. *)
Definition hd_ptr (ns : list (Ptr * @value_type Key T)) : option Ptr :=
  match ns with
  | [] => None
  | n :: _ => Some (fst n)
  end.

(** What [RemoveRecursive] did to the subtree [t] and which iterator it
    returned, [root_] being the tree of the map when it was called. *)
Definition removed (this : Ptr) (root_ t : @Entry Key T) (k : Key)
  (it : iterator) (t' : @Entry Key T) : Prop :=
  (Forall (fun n => ~ key_equiv (node_key n) k) (nodes t) /\
   nodes t' = nodes t /\ it = end_ this) \/
  (exists L a p R,
     nodes t = L ++ (a, p) :: R /\ key_equiv (fst p) k /\ map_ it = this /\
     ((nodes t' = L ++ R /\
       (bst root_ -> subtree t root_ ->
        forall GL GR, nodes root_ = GL ++ (a, p) :: GR ->
                      curr_ it = hd_ptr GR)) \/
      (exists b q R2, L <> [] /\ R = (b, q) :: R2 /\
                      nodes t' = L ++ (a, q) :: R2 /\ curr_ it = Some a))).

(** The suffix of a sequence that starts at its first node satisfying
    [pred]. *)
Fixpoint skip_until (pred : @value_type Key T -> bool)
  (ns : list (Ptr * @value_type Key T)) : list (Ptr * @value_type Key T) :=
  match ns with
  | [] => []
  | n :: ns' => if pred (snd n) then ns else skip_until pred ns'
  end.

(** The first node at address [a] takes the pair [q]. *)
Fixpoint update_first (a : Ptr) (q : @value_type Key T)
  (ns : list (Ptr * @value_type Key T)) : list (Ptr * @value_type Key T) :=
  match ns with
  | [] => []
  | n :: ns' => if fst n =? a then (a, q) :: ns' else n :: update_first a q ns'
  end.

(** What an operation requires of its arguments: an address that the
    allocator can return, an iterator that is the end iterator or points to
    a node of this map. *)
Definition op_pre m (o : @Op Key T) : Prop :=
  match o with
  | OpEmplace e _ | OpInsert e _ | OpSubscript e _ => fresh_ptr (root_ m) e
  | OpAssign it _ => exists a, curr_ it = Some a /\ In a (addrs (root_ m))
  | OpEraseIter it =>
      match curr_ it with
      | None => True
      | Some a => In a (addrs (root_ m))
      end
  | OpErase _ | OpClear => True
  end.

(** The map stays well formed and owns no other nodes than those it owned
    and those at the addresses [es] taken from the allocator. *)
Definition Map_step (es : list Ptr) m m' : Prop :=
  Map_ok m' /\ incl (addrs (root_ m')) (es ++ addrs (root_ m)).

(** The same for the tree alone. *)
Definition Tree_step (es : list Ptr) m m' : Prop :=
  Tree_ok m' /\ incl (addrs (root_ m')) (es ++ addrs (root_ m)).

(** Two results of an operation that differ at most in [size_]. *)
Definition same_tree {A : Type} (r1 r2 : option (A * @Map Key T)) : Prop :=
  match r1, r2 with
  | Some (x1, m1), Some (x2, m2) => x1 = x2 /\ root_ m1 = root_ m2
  | None, None => True
  | _, _ => False
  end.

Definition same_tree_map (r1 r2 : option (@Map Key T)) : Prop :=
  match r1, r2 with
  | Some m1, Some m2 => root_ m1 = root_ m2
  | None, None => True
  | _, _ => False
  end.

(** The map with [size_] set to the number of its nodes. *)
Definition counted m : @Map Key T :=
  {| root_ := root_ m; size_ := Z.of_nat (length (nodes (root_ m))) |}.

(** The iterator is the end iterator or points to a node of the map. *)
Definition own_iterator m (it : iterator) : Prop :=
  match curr_ it with
  | None => True
  | Some a => In a (addrs (root_ m))
  end.

(** [erase(iterator)] is passed an iterator of the map it is called on. *)
Definition own_op m (o : @Op Key T) : Prop :=
  match o with
  | OpEraseIter it => own_iterator m it
  | _ => True
  end.

(** Every live map satisfies [P] and no node belongs to two maps. *)
Definition World_inv (P : @Map Key T -> Prop) w : Prop :=
  (forall obj m, world_get w obj = Some m -> P m) /\
  (forall o1 o2 m1 m2 a,
     o1 <> o2 -> world_get w o1 = Some m1 -> world_get w o2 = Some m2 ->
     In a (addrs (root_ m1)) -> In a (addrs (root_ m2)) -> False).

(** Every live map is well formed and no node belongs to two maps. *)
Definition World_ok w : Prop := World_inv Map_ok w.

(** The same for the trees alone. *)
Definition World_trees w : Prop := World_inv Tree_ok w.

(** The statement passes [erase(iterator)] the end iterator or an iterator
    at an entry of the map it is called on. *)
Definition own_stmt w (s : @Stmt Key T) : bool :=
  match s with
  | Call obj (OpEraseIter it) =>
      match curr_ it, world_get w obj with
      | Some a, Some m => existsb (Z.eqb a) (addrs (root_ m))
      | _, _ => true
      end
  | _ => true
  end.

(** The first pair of a sequence whose key [CompareKeys] reports as
    equivalent to [k]: the lookup in an association list. *)
Definition lookup (k : Key) (ps : list (@value_type Key T))
  : option (@value_type Key T) :=
  List.find (fun p => CompareKeys (fst p) k =? 0) ps.

(** An iterator of the map [m] that lives at address [obj]: its end
    iterator or an iterator at one of its nodes. *)
Definition iterator_of (obj : Ptr) m (it : iterator) : Prop :=
  map_ it = obj /\
  match curr_ it with
  | None => True
  | Some a => In a (addrs (root_ m))
  end.

(** Every call of [erase(iterator)] that the program makes, started in
    the state [w], is passed an iterator of the map it is called on. *)
Fixpoint own_iterators (T_default : T) w (prog : list (@Stmt Key T)) : bool :=
  match prog with
  | [] => true
  | s :: prog' =>
      own_stmt w s &&
      match exec T_default w s with
      | Some w' => own_iterators T_default w' prog'
      | None => true
      end
  end.

End Specification.

(** The contract of the comparator: a strict weak ordering. *)
Class StrictWeakOrder (Key : Type) {key_compare_ : Compare Key} : Prop := {
  compare_irrefl : forall x : Key, key_compare x x = false;
  compare_trans : forall x y z : Key,
    key_compare x y = true -> key_compare y z = true ->
    key_compare x z = true;
  compare_equiv_trans : forall x y z : Key,
    key_equiv x y -> key_equiv y z -> key_equiv x z
}.

(** ** Example maps and programs *)

(** The address of a map object, and of a second one. *)
Definition map_a : Ptr := 4096.
Definition map_b : Ptr := 8192.

(** Scenario 1 of the spec: keys 5, 3, 8, 1, 4, 7, 9 inserted in that order,
    the nodes allocated at addresses 16, 32, ... *)
Definition ops_seven : list (@Op Z Z) :=
  [OpEmplace 16 (5, 50); OpEmplace 32 (3, 30); OpEmplace 48 (8, 80);
   OpEmplace 64 (1, 10); OpEmplace 80 (4, 40); OpEmplace 96 (7, 70);
   OpEmplace 112 (9, 90)].

Definition map_seven : @Map Z Z :=
  Eval vm_compute in
    match run_ops 0 map_a [] Map_default ops_seven with
    | Some m => m
    | None => Map_default
    end.

(** Insertions, a lookup that inserts, and erasures by key and iterator. *)
Definition ops_mixed : list (@Op Z Z) :=
  ops_seven ++
  [OpSubscript 128 6; OpErase 5; OpEraseIter (mkIterator (Some 32) map_a);
   OpInsert 144 (2, 20); OpErase 42; OpAssign (mkIterator (Some 16) map_a) 60].

Definition map_mixed : @Map Z Z :=
  Eval vm_compute in
    match run_ops 0 map_a [] Map_default ops_mixed with
    | Some m => m
    | None => Map_default
    end.

(** Two maps, one moved from.  *)
Definition prog_two : list (@Stmt Z Z) :=
  [Construct map_a; Call map_a (OpEmplace 16 (1, 10));
   Call map_a (OpEmplace 32 (2, 20)); Construct map_b;
   Call map_b (OpEmplace 48 (1, 11)); MoveAssign map_b map_a;
   Call map_a (OpEmplace 64 (3, 30))].

Definition world_two : @World Z Z :=
  Eval vm_compute in
    match run 0 [] prog_two with
    | Some w => w
    | None => []
    end.

(** The map that [prog_two] leaves at [map_b]. *)
Definition map_two_b : @Map Z Z :=
  {| root_ := mkEntry 16 (1, 10) nullptr (mkEntry 32 (2, 20) nullptr nullptr 1) 2;
     size_ := 2 |}.

(** [prog_two] followed by [a.erase(b.begin())]: the map at [map_a] is passed
    an iterator at the first entry of the map at [map_b]. *)
Definition prog_foreign : list (@Stmt Z Z) :=
  prog_two ++ [Call map_a (OpEraseIter (mkIterator (Some 16) map_b))].

(** A map at [map_a], its entries moved into a new map at [map_b], then
    [a.erase(it)] with an iterator [it] taken from [a] before the move. *)
Definition prog_moved_from : list (@Stmt Z Z) :=
  [Construct map_a; Call map_a (OpEmplace 16 (1, 10));
   MoveConstruct map_b map_a;
   Call map_a (OpEraseIter (mkIterator (Some 16) map_a))].

(** A map of one entry, its node apart from those of [map_seven]. *)
Definition map_dest : @Map Z Z :=
  {| root_ := mkEntry 2048 (1, 11) nullptr nullptr 1; size_ := 1 |}.

(** Seven addresses for the nodes of a copy of [map_seven]. *)
Definition copy_addrs : list Ptr := [1040; 1056; 1072; 1088; 1104; 1120; 1136].

(** * Proofs *)

#[local] Arguments Z.add _ _ : simpl never.
#[local] Arguments Z.sub _ _ : simpl never.
#[local] Arguments Z.max _ _ : simpl never.
#[local] Arguments Z.of_nat _ : simpl never.

(** ** Machine arithmetic *)

Lemma INT32_MAX_val : INT32_MAX = 2147483647.
Proof. reflexivity. Qed.

Lemma INT32_MIN_val : INT32_MIN = -2147483648.
Proof. reflexivity. Qed.

Lemma SIZE_MAX_val : SIZE_MAX = 18446744073709551615.
Proof. reflexivity. Qed.

Lemma GPR_MAX_max (a b : Z) : GPR_MAX a b = Z.max a b.
Proof. unfold GPR_MAX. destruct (Z.gtb_spec a b); lia. Qed.

Lemma int32_in_range (x : Z) :
  -2147483648 <= x <= 2147483647 -> int32 x = Some x.
Proof.
  intros Hx. unfold int32. rewrite INT32_MAX_val, INT32_MIN_val.
  destruct (Z.leb_spec (-2147483648) x); destruct (Z.leb_spec x 2147483647);
    simpl; auto; lia.
Qed.

Lemma size_t_wrap_small (x : Z) :
  0 <= x <= SIZE_MAX -> size_t_wrap x = x.
Proof. intros Hx. unfold size_t_wrap. apply Z.mod_small. lia. Qed.

Section OrderFacts.

Context {Key : Type} {key_compare_ : Compare Key} {SWO : StrictWeakOrder Key}.

Lemma compare_asym (x y : Key) :
  key_compare x y = true -> key_compare y x = false.
Proof.
  intros Hxy. destruct (key_compare y x) eqn:Hyx; auto.
  rewrite <- (compare_irrefl x). symmetry. eapply compare_trans; eauto.
Qed.

Lemma key_equiv_refl (x : Key) : key_equiv x x.
Proof. split; apply compare_irrefl. Qed.

Lemma key_equiv_sym (x y : Key) : key_equiv x y -> key_equiv y x.
Proof. intros [H1 H2]; split; assumption. Qed.

Lemma lt_equiv_trans (x y z : Key) :
  key_lt x y -> key_equiv y z -> key_lt x z.
Proof.
  unfold key_lt. intros Hxy Hyz.
  destruct (key_compare x z) eqn:Hxz; auto.
  destruct (key_compare z x) eqn:Hzx.
  - destruct Hyz as [_ Hzy]. rewrite (compare_trans _ _ _ Hzx Hxy) in Hzy.
    discriminate.
  - assert (Hxy' : key_equiv x y).
    { apply compare_equiv_trans with z; [split; assumption|].
      apply key_equiv_sym; assumption. }
    destruct Hxy' as [Hc _]. congruence.
Qed.

Lemma equiv_lt_trans (x y z : Key) :
  key_equiv x y -> key_lt y z -> key_lt x z.
Proof.
  unfold key_lt. intros Hxy Hyz.
  destruct (key_compare x z) eqn:Hxz; auto.
  destruct (key_compare z x) eqn:Hzx.
  - destruct Hxy as [_ Hyx]. rewrite (compare_trans _ _ _ Hyz Hzx) in Hyx.
    discriminate.
  - assert (Hyz' : key_equiv y z).
    { apply compare_equiv_trans with x; [apply key_equiv_sym; assumption|].
      split; assumption. }
    destruct Hyz' as [Hc _]. congruence.
Qed.

Lemma CompareKeys_lt (a b : Key) :
  (CompareKeys a b <? 0) = key_compare a b.
Proof.
  unfold CompareKeys.
  destruct (key_compare a b), (key_compare b a); reflexivity.
Qed.

Lemma CompareKeys_gt (a b : Key) :
  (CompareKeys a b >? 0) = key_compare b a.
Proof.
  unfold CompareKeys.
  destruct (key_compare a b) eqn:Hab, (key_compare b a) eqn:Hba;
    try reflexivity.
  rewrite (compare_asym _ _ Hab) in Hba. discriminate.
Qed.

Lemma CompareKeys_eq (a b : Key) :
  (CompareKeys a b =? 0) = negb (key_compare a b) && negb (key_compare b a).
Proof.
  unfold CompareKeys.
  destruct (key_compare a b), (key_compare b a); reflexivity.
Qed.

Lemma CompareKeys_cases (a b : Key) :
  (CompareKeys a b = -1 /\ key_lt a b) \/
  (CompareKeys a b = 0 /\ key_equiv a b) \/
  (CompareKeys a b = 1 /\ key_lt b a).
Proof.
  unfold CompareKeys, key_lt, key_equiv.
  destruct (key_compare a b) eqn:Hab, (key_compare b a) eqn:Hba; simpl; auto.
Qed.

End OrderFacts.

(** ** Heights and balance *)

Section Balance.

Context {Key T : Type} {key_compare_ : Compare Key}.

Implicit Types t l r : @Entry Key T.

Lemma avl_height_nonneg t : avl t -> 0 <= EntryHeight t.
Proof.
  induction t as [|a p l IHl r IHr h]; simpl; [lia|].
  intros (Hh & Hb & Hl & Hr). specialize (IHl Hl). specialize (IHr Hr). lia.
Qed.

Lemma avl_height_zero t : avl t -> EntryHeight t = 0 -> t = nullptr.
Proof.
  destruct t as [|a p l r h]; simpl; auto.
  intros (Hh & Hb & Hl & Hr) H0.
  pose proof (avl_height_nonneg _ Hl). pose proof (avl_height_nonneg _ Hr). lia.
Qed.

Lemma avl_tree_height t : avl t -> EntryHeight t = tree_height t.
Proof.
  induction t as [|a p l IHl r IHr h]; simpl; auto.
  intros (Hh & Hb & Hl & Hr). rewrite <- IHl, <- IHr; auto.
Qed.

Lemma Zgtb_true (a b : Z) : b < a -> (a >? b) = true.
Proof. intros. destruct (Z.gtb_spec a b); auto; lia. Qed.

Lemma Zgtb_false (a b : Z) : a <= b -> (a >? b) = false.
Proof. intros. destruct (Z.gtb_spec a b); auto; lia. Qed.

Lemma Zltb_true (a b : Z) : a < b -> (a <? b) = true.
Proof. intros. destruct (Z.ltb_spec a b); auto; lia. Qed.

Lemma Zltb_false (a b : Z) : b <= a -> (a <? b) = false.
Proof. intros. destruct (Z.ltb_spec a b); auto; lia. Qed.

Lemma gt_lt_excl (c : Z) : (c <? 0) = true -> (c >? 0) = false.
Proof. intros H. apply Z.ltb_lt in H. apply Zgtb_false. lia. Qed.

Lemma lt_gt_excl (c : Z) : (c >? 0) = true -> (c <? 0) = false.
Proof.
  intros H. apply Zltb_false. destruct (Z.gtb_spec c 0); [lia|discriminate].
Qed.

(** Decide the comparisons of heights that occur in the goal. *)
Ltac height_tests :=
  repeat match goal with
  | |- context [int32 ?x] =>
      rewrite (int32_in_range x) by (rewrite ?GPR_MAX_max; lia)
  | |- context [?x >? ?y] =>
      first [ rewrite (Zgtb_true x y) by (rewrite ?GPR_MAX_max; lia)
            | rewrite (Zgtb_false x y) by (rewrite ?GPR_MAX_max; lia) ]
  | |- context [?x <? ?y] =>
      first [ rewrite (Zltb_true x y) by (rewrite ?GPR_MAX_max; lia)
            | rewrite (Zltb_false x y) by (rewrite ?GPR_MAX_max; lia) ]
  end.

Ltac avl_facts :=
  repeat match goal with
  | H : avl (mkEntry _ _ _ _ _) |- _ => simpl in H; destruct H as (? & ? & ? & ?)
  end;
  repeat match goal with
  | H : avl ?t |- _ =>
      lazymatch goal with
      | _ : 0 <= EntryHeight t |- _ => fail
      | _ => pose proof (avl_height_nonneg _ H)
      end
  end.

Ltac avl_done :=
  simpl; rewrite ?GPR_MAX_max; repeat split; auto; try lia.

Lemma RebalanceTreeAfterInsertion_left a q l r h k h0 :
  avl l -> avl r -> EntryHeight l < INT32_MAX -> EntryHeight r < INT32_MAX ->
  0 <= h0 -> -1 <= h0 - EntryHeight r <= 1 ->
  ins_height k h0 l ->
  (CompareKeys (fst q) k >? 0) = true ->
  exists t, RebalanceTreeAfterInsertion (mkEntry a q l r h) k = Some t /\
            avl t /\ ins_height k (1 + Z.max h0 (EntryHeight r)) t.
Proof.
  intros Hl Hr Hb Hb' Hh0 Hbal Hins Hk. rewrite INT32_MAX_val in Hb, Hb'.
  destruct (Z_le_gt_dec (EntryHeight l - EntryHeight r) 1) as [Hd|Hd].
  - (* no rotation *)
    assert (-1 <= EntryHeight l - EntryHeight r)
      by (destruct Hins as [?|[? ?]]; lia).
    avl_facts. unfold RebalanceTreeAfterInsertion. height_tests. simpl.
    eexists; split; [reflexivity|]. split; [avl_done|].
    unfold ins_height. simpl. rewrite !GPR_MAX_max.
    destruct Hins as [Hsame|[Hgrew Hshape]]; [left; lia|].
    destruct (Z.eq_dec h0 (EntryHeight r)); [|left; lia].
    right. split; [lia|]. right. left. split; auto. lia.
  - (* left-heavy: the left subtree grew *)
    destruct Hins as [Hsame|[Hgrew Hshape]]; [lia|].
    destruct l as [|la lp ll lr lh]; simpl in Hshape; [contradiction|].
    simpl in Hgrew, Hd, Hb. avl_facts.
    destruct Hshape as [[-> ->]|[[Hc He]|[Hc He]]].
    + simpl in *. lia.
    + unfold RebalanceTreeAfterInsertion. simpl. rewrite Hc. height_tests.
      simpl. height_tests. simpl.
      eexists; split; [reflexivity|]. split; [avl_done|].
      left. simpl. rewrite !GPR_MAX_max. lia.
    + destruct lr as [|ra rp rl rr rh]; [simpl in *; lia|]. avl_facts.
      unfold RebalanceTreeAfterInsertion. simpl in *.
      rewrite Hc, (gt_lt_excl _ Hc). height_tests. simpl. height_tests.
      simpl. height_tests. simpl.
      eexists; split; [reflexivity|]. split; [avl_done|].
      left. simpl. rewrite !GPR_MAX_max. lia.
Qed.


Lemma RebalanceTreeAfterInsertion_right a q l r h k h0 :
  avl l -> avl r -> EntryHeight l < INT32_MAX -> EntryHeight r < INT32_MAX ->
  0 <= h0 -> -1 <= EntryHeight l - h0 <= 1 ->
  ins_height k h0 r ->
  (CompareKeys (fst q) k <? 0) = true ->
  exists t, RebalanceTreeAfterInsertion (mkEntry a q l r h) k = Some t /\
            avl t /\ ins_height k (1 + Z.max (EntryHeight l) h0) t.
Proof.
  intros Hl Hr Hb Hb' Hh0 Hbal Hins Hk. rewrite INT32_MAX_val in Hb, Hb'.
  destruct (Z_le_gt_dec (EntryHeight r - EntryHeight l) 1) as [Hd|Hd].
  - (* no rotation *)
    assert (-1 <= EntryHeight r - EntryHeight l)
      by (destruct Hins as [?|[? ?]]; lia).
    avl_facts. unfold RebalanceTreeAfterInsertion. height_tests. simpl.
    eexists; split; [reflexivity|]. split; [avl_done|].
    unfold ins_height. simpl. rewrite !GPR_MAX_max.
    destruct Hins as [Hsame|[Hgrew Hshape]]; [left; lia|].
    destruct (Z.eq_dec h0 (EntryHeight l)); [|left; lia].
    right. split; [lia|]. right. right. split; auto. lia.
  - (* right-heavy: the right subtree grew *)
    destruct Hins as [Hsame|[Hgrew Hshape]]; [lia|].
    destruct r as [|ra rp rl rr rh]; simpl in Hshape; [contradiction|].
    simpl in Hgrew, Hd, Hb'. avl_facts.
    destruct Hshape as [[-> ->]|[[Hc He]|[Hc He]]].
    + simpl in *. lia.
    + destruct rl as [|la lp ll lr lh]; [simpl in *; lia|]. avl_facts.
      unfold RebalanceTreeAfterInsertion. simpl in *.
      rewrite Hc, (lt_gt_excl _ Hc). height_tests. simpl. height_tests.
      simpl. height_tests. simpl.
      eexists; split; [reflexivity|]. split; [avl_done|].
      left. simpl. rewrite !GPR_MAX_max. lia.
    + unfold RebalanceTreeAfterInsertion. simpl. rewrite Hc. height_tests.
      simpl. height_tests. simpl.
      eexists; split; [reflexivity|]. split; [avl_done|].
      left. simpl. rewrite !GPR_MAX_max. lia.
Qed.

(** On a balanced node the rebalancing after an insertion changes nothing. *)
Lemma RebalanceTreeAfterInsertion_balanced a (q : @value_type Key T) l r h k :
  avl (mkEntry a q l r h) -> h < INT32_MAX ->
  RebalanceTreeAfterInsertion (mkEntry a q l r h) k = Some (mkEntry a q l r h).
Proof.
  intros Havl Hb. rewrite INT32_MAX_val in Hb. avl_facts.
  unfold RebalanceTreeAfterInsertion. height_tests. simpl.
  rewrite GPR_MAX_max. congruence.
Qed.

(** What a removal below leaves the rebalancing with: children one apart
    more than balance allows, at most. *)
Lemma RebalanceTreeAfterDeletion_avl a p l r h :
  avl l -> avl r ->
  EntryHeight l < INT32_MAX -> EntryHeight r < INT32_MAX ->
  -2 <= EntryHeight l - EntryHeight r <= 2 ->
  exists t, RebalanceTreeAfterDeletion (mkEntry a p l r h) = Some t /\
    avl t /\
    (EntryHeight t = 1 + Z.max (EntryHeight l) (EntryHeight r) \/
     (EntryHeight t = Z.max (EntryHeight l) (EntryHeight r) /\
      (EntryHeight l - EntryHeight r = 2 \/
       EntryHeight l - EntryHeight r = -2))).
Proof.
  intros Hl Hr Hb Hb' Hbal. rewrite INT32_MAX_val in Hb, Hb'.
  destruct (Z_le_gt_dec (EntryHeight l - EntryHeight r) 1) as [Hd|Hd];
    [destruct (Z_le_gt_dec (-1) (EntryHeight l - EntryHeight r)) as [Hd'|Hd']|].
  - avl_facts. unfold RebalanceTreeAfterDeletion. height_tests.
    eexists; split; [reflexivity|]. split; [avl_done|].
    left. simpl. rewrite GPR_MAX_max. reflexivity.
  - (* right-heavy *)
    destruct r as [|ra rp rl rr rh]; [avl_facts; simpl in *; lia|].
    simpl in Hbal, Hd', Hb'. avl_facts.
    destruct (Z_le_gt_dec (EntryHeight rl - EntryHeight rr) 0) as [Hs|Hs].
    + unfold RebalanceTreeAfterDeletion. simpl. height_tests. simpl.
      height_tests.
      eexists; split; [reflexivity|]. split; [avl_done|].
      simpl. rewrite !GPR_MAX_max. lia.
    + destruct rl as [|la lp ll lr lh]; [simpl in *; lia|]. avl_facts.
      unfold RebalanceTreeAfterDeletion. simpl in *. height_tests. simpl.
      height_tests. simpl. height_tests.
      eexists; split; [reflexivity|]. split; [avl_done|].
      simpl. rewrite !GPR_MAX_max. lia.
  - (* left-heavy *)
    destruct l as [|la lp ll lr lh]; [avl_facts; simpl in *; lia|].
    simpl in Hbal, Hd, Hb. avl_facts.
    destruct (Z_le_gt_dec 0 (EntryHeight ll - EntryHeight lr)) as [Hs|Hs].
    + unfold RebalanceTreeAfterDeletion. simpl. height_tests. simpl.
      height_tests.
      eexists; split; [reflexivity|]. split; [avl_done|].
      simpl. rewrite !GPR_MAX_max. lia.
    + destruct lr as [|ra rp rl rr rh]; [simpl in *; lia|]. avl_facts.
      unfold RebalanceTreeAfterDeletion. simpl in *. height_tests. simpl.
      height_tests. simpl. height_tests.
      eexists; split; [reflexivity|]. split; [avl_done|].
      simpl. rewrite !GPR_MAX_max. lia.
Qed.

#[local] Arguments RebalanceTreeAfterInsertion : simpl never.
#[local] Arguments RebalanceTreeAfterDeletion : simpl never.

Lemma InsertRecursive_avl this e t (p : @value_type Key T) :
  avl t -> EntryHeight t < INT32_MAX ->
  exists it t', InsertRecursive this e t p = Some (it, t') /\
                avl t' /\ ins_height (fst p) (EntryHeight t) t'.
Proof.
  induction t as [|a q l IHl r IHr h]; intros Havl Hb.
  - simpl. do 2 eexists. split; [reflexivity|]. split; [avl_done|].
    right. simpl. auto.
  - simpl in Havl. destruct Havl as (Hh & Hbal & Hl & Hr).
    pose proof (avl_height_nonneg _ Hl). pose proof (avl_height_nonneg _ Hr).
    simpl in Hb. simpl.
    destruct (CompareKeys (fst q) (fst p) >? 0) eqn:Hgt;
      [|destruct (CompareKeys (fst q) (fst p) <? 0) eqn:Hlt].
    + destruct IHl as (it & l' & -> & Hl' & Hins); auto; [lia|].
      destruct (RebalanceTreeAfterInsertion_left a q l' r h (fst p)
                  (EntryHeight l)) as (t' & -> & Ht' & Hins'); auto; try lia.
      { destruct Hins as [?|[? ?]]; lia. }
      do 2 eexists. split; [reflexivity|]. split; auto.
      simpl. rewrite Hh. exact Hins'.
    + destruct IHr as (it & r' & -> & Hr' & Hins); auto; [lia|].
      destruct (RebalanceTreeAfterInsertion_right a q l r' h (fst p)
                  (EntryHeight r)) as (t' & -> & Ht' & Hins'); auto; try lia.
      { destruct Hins as [?|[? ?]]; lia. }
      do 2 eexists. split; [reflexivity|]. split; auto.
      simpl. rewrite Hh. exact Hins'.
    + do 2 eexists. split; [reflexivity|]. split; [avl_done|].
      left. reflexivity.
Qed.

(** *** Overwriting a pair keeps the shape *)

Lemma set_pair_height t a (p : @value_type Key T) :
  EntryHeight (set_pair t a p) = EntryHeight t.
Proof.
  destruct t as [|b q l r h]; simpl; auto.
  destruct (entry_at l a); [destruct (b =? a)|]; reflexivity.
Qed.

Lemma set_pair_avl t a (p : @value_type Key T) :
  avl t -> avl (set_pair t a p).
Proof.
  induction t as [|b q l IHl r IHr h]; simpl; auto.
  intros (Hh & Hbal & Hl & Hr).
  destruct (entry_at l a); [destruct (b =? a)|]; simpl;
    rewrite ?set_pair_height; auto.
Qed.

Lemma set_pair_depth t a (p : @value_type Key T) :
  depth (set_pair t a p) = depth t.
Proof.
  induction t as [|b q l IHl r IHr h]; simpl; auto.
  destruct (entry_at l a); [destruct (b =? a)|]; simpl; congruence.
Qed.

Lemma GetMinEntry_nonnull a p l r h :
  exists b q rr hh, GetMinEntry (mkEntry a p l r h) = mkEntry b q nullptr rr hh.
Proof.
  revert a p r h.
  induction l as [|a' p' l' IHl r' _ h']; intros a p r h.
  - simpl. eauto.
  - change (GetMinEntry (mkEntry a p (mkEntry a' p' l' r' h') r h))
      with (GetMinEntry (mkEntry a' p' l' r' h')). apply IHl.
Qed.

(** The fuel only bounds the recursion: once a removal returns, more fuel
    returns the same. *)
Lemma RemoveRecursive_more_fuel this fuel :
  forall root_ t (k : Key) res,
  RemoveRecursive this fuel root_ t k = Some res ->
  forall fuel', (fuel <= fuel')%nat ->
  RemoveRecursive this fuel' root_ t k = Some res.
Proof.
  induction fuel as [|fuel IH]; intros root_ t k res Hrun fuel' Hle;
    [discriminate|].
  destruct fuel' as [|fuel']; [lia|]. apply le_S_n in Hle.
  destruct t as [|a p l r h]; [exact Hrun|].
  cbn [RemoveRecursive] in *.
  destruct (CompareKeys (fst p) k >? 0).
  { destruct (RemoveRecursive this fuel root_ l k) as [[it l']|] eqn:Hrec;
      [|discriminate].
    rewrite (IH _ _ _ _ Hrec fuel' Hle). exact Hrun. }
  destruct (CompareKeys (fst p) k <? 0).
  { destruct (RemoveRecursive this fuel root_ r k) as [[it r']|] eqn:Hrec;
      [|discriminate].
    rewrite (IH _ _ _ _ Hrec fuel' Hle). exact Hrun. }
  destruct (InOrderSuccessor root_ (mkEntry a p l r h)) as [s|];
    [|discriminate].
  destruct l as [|la lp ll lr lh]; [exact Hrun|].
  destruct r as [|ra rp rl rr rh]; [exact Hrun|].
  destruct s as [|b q sl sr sh]; [discriminate|].
  destruct (RemoveRecursive this fuel _ _ (fst p)) as [[it r'']|] eqn:Hrec;
    [|discriminate].
  rewrite (IH _ _ _ _ Hrec fuel' Hle). exact Hrun.
Qed.

Lemma RemoveRecursive_avl this fuel :
  forall root_ t (k : Key),
  (depth t < fuel)%nat -> avl t -> EntryHeight t <= INT32_MAX ->
  exists it t', RemoveRecursive this fuel root_ t k = Some (it, t') /\
                avl t' /\ del_height (EntryHeight t) t'.
Proof.
  induction fuel as [|fuel IH]; intros root_ t k Hfuel Havl Hb; [lia|].
  destruct t as [|a p l r h].
  { simpl. do 2 eexists. split; [reflexivity|]. split; [exact I|].
    left; reflexivity. }
  pose proof Havl as Havl0.
  simpl in Havl. destruct Havl as (Hh & Hbal & Hl & Hr).
  pose proof (avl_height_nonneg _ Hl). pose proof (avl_height_nonneg _ Hr).
  simpl in Hb, Hfuel. rewrite INT32_MAX_val in Hb.
  assert (Hrebal : forall l' r' q,
    avl l' -> avl r' ->
    (del_height (EntryHeight l) l' /\ r' = r \/
     del_height (EntryHeight r) r' /\ l' = l) ->
    exists t', RebalanceTreeAfterDeletion (mkEntry a q l' r' h) = Some t' /\
               avl t' /\ del_height h t').
  { intros l' r' q Hl' Hr' Hcase.
    pose proof (avl_height_nonneg _ Hl'). pose proof (avl_height_nonneg _ Hr').
    destruct (RebalanceTreeAfterDeletion_avl a q l' r' h) as (t' & Ht' & Ha & Hht);
      auto; try (rewrite ?INT32_MAX_val;
                 destruct Hcase as [[[?|?] ->]|[[?|?] ->]]; lia).
    exists t'. split; auto. split; auto. unfold del_height.
    destruct Hcase as [[[?|?] ->]|[[?|?] ->]]; lia. }
  simpl.
  destruct (CompareKeys (fst p) k >? 0) eqn:Hgt;
    [|destruct (CompareKeys (fst p) k <? 0) eqn:Hlt].
  - destruct (IH root_ l k) as (it & l' & -> & Hl' & Hdel); auto;
      try (rewrite ?INT32_MAX_val; lia).
    destruct (Hrebal l' r p) as (t' & -> & Ht' & Hdel'); auto.
    do 2 eexists. split; [reflexivity|]. split; auto.
  - destruct (IH root_ r k) as (it & r' & -> & Hr' & Hdel); auto;
      try (rewrite ?INT32_MAX_val; lia).
    destruct (Hrebal l r' p) as (t' & -> & Ht' & Hdel'); auto.
    do 2 eexists. split; [reflexivity|]. split; auto.
  - destruct l as [|la lp ll lr lh].
    { destruct r; do 2 eexists; (split; [reflexivity|]); split; auto;
        right; simpl in *; lia. }
    destruct r as [|ra rp rl rr rh].
    { do 2 eexists; (split; [reflexivity|]); split; auto.
      right; simpl in *; lia. }
    destruct (GetMinEntry_nonnull ra rp rl rr rh) as (b & q & sr & sh & ->).
    set (r := mkEntry ra rp rl rr rh) in *.
    set (l := mkEntry la lp ll lr lh) in *.
    destruct (IH (set_pair (set_pair root_ a q) b p) (set_pair r b p) (fst p))
      as (it & r'' & -> & Hr'' & Hdel).
    { rewrite set_pair_depth. lia. }
    { apply set_pair_avl; assumption. }
    { rewrite set_pair_height, INT32_MAX_val. simpl in *. lia. }
    rewrite set_pair_height in Hdel.
    destruct (Hrebal l r'' q) as (t' & -> & Ht' & Hdel'); auto.
    do 2 eexists. split; [reflexivity|]. split; auto.
Qed.

(** Rotations and rebalancing re-link nodes: the in-order sequence of
    (address, pair) stays what it was. *)

Lemma RotateLeft_nodes t t' : RotateLeft t = Some t' -> nodes t' = nodes t.
Proof.
  unfold RotateLeft. destruct t as [|a p l [|ra rp rl rr rh] h]; try discriminate.
  destruct (int32 _); [|discriminate]. destruct (int32 _); [|discriminate].
  intros [= <-]. simpl. rewrite <- app_assoc. reflexivity.
Qed.

Lemma RotateRight_nodes t t' : RotateRight t = Some t' -> nodes t' = nodes t.
Proof.
  unfold RotateRight. destruct t as [|a p [|la lp ll lr lh] r h]; try discriminate.
  destruct (int32 _); [|discriminate]. destruct (int32 _); [|discriminate].
  intros [= <-]. simpl. rewrite <- app_assoc. reflexivity.
Qed.

Lemma double_left_right_nodes a p l l' r h t' :
  RotateLeft l = Some l' -> RotateRight (mkEntry a p l' r h) = Some t' ->
  nodes t' = nodes (mkEntry a p l r h).
Proof.
  intros Hl Ht. rewrite (RotateRight_nodes _ _ Ht). simpl.
  rewrite (RotateLeft_nodes _ _ Hl). reflexivity.
Qed.

Lemma double_right_left_nodes a p l r r' h t' :
  RotateRight r = Some r' -> RotateLeft (mkEntry a p l r' h) = Some t' ->
  nodes t' = nodes (mkEntry a p l r h).
Proof.
  intros Hr Ht. rewrite (RotateLeft_nodes _ _ Ht). simpl.
  rewrite (RotateRight_nodes _ _ Hr). reflexivity.
Qed.

Lemma RebalanceTreeAfterInsertion_nodes t (k : Key) t' :
  RebalanceTreeAfterInsertion t k = Some t' -> nodes t' = nodes t.
Proof.
  unfold RebalanceTreeAfterInsertion. destruct t as [|a p l r h]; try discriminate.
  destruct (int32 _) as [h'|]; [|discriminate].
  destruct (int32 _) as [d|]; [|discriminate].
  destruct (and_then _ _) as [[|]|]; try discriminate.
  { intros H. rewrite (RotateRight_nodes _ _ H). reflexivity. }
  destruct (and_then _ _) as [[|]|]; try discriminate.
  { intros H. rewrite (RotateLeft_nodes _ _ H). reflexivity. }
  destruct (and_then _ _) as [[|]|]; try discriminate.
  { destruct (RotateLeft l) as [l'|] eqn:Hl; [|discriminate].
    intros H. rewrite (double_left_right_nodes _ _ _ _ _ _ _ Hl H). reflexivity. }
  destruct (and_then _ _) as [[|]|]; try discriminate.
  { destruct (RotateRight r) as [r'|] eqn:Hr; [|discriminate].
    intros H. rewrite (double_right_left_nodes _ _ _ _ _ _ _ Hr H). reflexivity. }
  intros [= <-]. reflexivity.
Qed.

Lemma RebalanceTreeAfterDeletion_nodes t t' :
  RebalanceTreeAfterDeletion t = Some t' -> nodes t' = nodes t.
Proof.
  unfold RebalanceTreeAfterDeletion. destruct t as [|a p l r h]; try discriminate.
  destruct (int32 _) as [h'|]; [|discriminate].
  destruct (int32 _) as [d|]; [|discriminate].
  destruct (d >? 1).
  { destruct (child_height_difference l) as [dl|]; [|discriminate].
    destruct (dl <? 0).
    - destruct (RotateLeft l) as [l'|] eqn:Hl; [|discriminate].
      intros H. rewrite (double_left_right_nodes _ _ _ _ _ _ _ Hl H). reflexivity.
    - intros H. rewrite (RotateRight_nodes _ _ H). reflexivity. }
  destruct (d <? -1).
  { destruct (child_height_difference r) as [dr|]; [|discriminate].
    destruct (dr >? 0).
    - destruct (RotateRight r) as [r'|] eqn:Hr; [|discriminate].
      intros H. rewrite (double_right_left_nodes _ _ _ _ _ _ _ Hr H). reflexivity.
    - intros H. rewrite (RotateLeft_nodes _ _ H). reflexivity. }
  intros [= <-]. reflexivity.
Qed.

End Balance.

(** ** Checking well-formedness by computation *)

Section Checker.

Context {Key T : Type} {key_compare_ : Compare Key}.

Implicit Types t : @Entry Key T.
Implicit Types m : @Map Key T.

Lemma bstb_bst t : bstb t = true -> bst t.
Proof.
  induction t as [|a p l IHl r IHr h]; simpl; auto.
  rewrite !andb_true_iff, !forallb_forall.
  intros [[[Hlt Hgt] Hl] Hr]. unfold key_lt.
  repeat split; auto; apply Forall_forall; auto.
Qed.

Lemma avlb_avl t : avlb t = true -> avl t.
Proof.
  induction t as [|a p l IHl r IHr h]; simpl; auto.
  rewrite !andb_true_iff, Z.eqb_eq, !Z.leb_le.
  intros [[[[Hh H1] H2] Hl] Hr]. auto.
Qed.

Lemma distinctb_distinct (xs : list Ptr) : distinctb xs = true -> NoDup xs.
Proof.
  induction xs as [|x xs IH]; simpl; [constructor|].
  rewrite andb_true_iff, negb_true_iff. intros [Hx Hd].
  constructor; auto. intros Hin.
  assert (Hex : existsb (Z.eqb x) xs = true).
  { apply existsb_exists. exists x. split; auto. apply Z.eqb_refl. }
  congruence.
Qed.

Lemma valid_ptrb_valid (a : Ptr) : valid_ptrb a = true -> valid_ptr a.
Proof.
  unfold valid_ptrb, valid_ptr. rewrite andb_true_iff, Z.ltb_lt, Z.leb_le.
  auto.
Qed.

Lemma Map_okb_ok m : Map_okb m = true -> Map_ok m.
Proof.
  unfold Map_okb. rewrite !andb_true_iff, Z.eqb_eq.
  intros [[[[Hb Ha] Hd] Hv] Hs]. constructor; auto.
  - apply bstb_bst, Hb.
  - apply avlb_avl, Ha.
  - apply distinctb_distinct, Hd.
  - apply Forall_forall. intros a Hin. apply valid_ptrb_valid.
    rewrite forallb_forall in Hv. auto.
Qed.

End Checker.

(** ** The order of the search tree as sortedness of the in-order sequence *)

Section Sorted.

Context {Key T : Type} {key_compare_ : Compare Key} {SWO : StrictWeakOrder Key}.

Implicit Types t l r : @Entry Key T.
Implicit Types n : Ptr * @value_type Key T.

Lemma node_lt_trans n1 n2 n3 : node_lt n1 n2 -> node_lt n2 n3 -> node_lt n1 n3.
Proof. unfold node_lt, key_lt. apply compare_trans. Qed.

Lemma node_lt_irrefl n : ~ node_lt n n.
Proof. unfold node_lt, key_lt. rewrite compare_irrefl. discriminate. Qed.

Lemma sorted_app (L R : list (Ptr * @value_type Key T)) :
  sorted (L ++ R) <->
  sorted L /\ sorted R /\ Forall (fun x => Forall (node_lt x) R) L.
Proof.
  unfold sorted. induction L as [|x L IH]; simpl.
  - split; [intros H; repeat split; auto; constructor|tauto].
  - split.
    + intros H. inversion H as [|? ? HS HF]; subst.
      apply IH in HS. destruct HS as (HL & HR & HLR).
      apply Forall_app in HF. destruct HF as [HF1 HF2].
      repeat split; auto; constructor; auto.
    + intros (HL & HR & HLR).
      inversion HL as [|? ? HS HF]; subst. inversion HLR; subst.
      constructor; [apply IH; auto|]. apply Forall_app; auto.
Qed.

Lemma sorted_cons x (R : list (Ptr * @value_type Key T)) :
  sorted (x :: R) <-> sorted R /\ Forall (node_lt x) R.
Proof.
  unfold sorted. split.
  - intros H; inversion H; auto.
  - intros [? ?]; constructor; auto.
Qed.

Lemma sorted_app_cons (L R : list (Ptr * @value_type Key T)) x :
  sorted (L ++ x :: R) <->
  sorted L /\ sorted R /\ Forall (fun y => node_lt y x) L /\
  Forall (node_lt x) R.
Proof.
  rewrite sorted_app, sorted_cons. split.
  - intros (HL & (HR & HxR) & HLR). repeat split; auto.
    eapply Forall_impl; [|exact HLR]. intros y Hy. inversion Hy; auto.
  - intros (HL & HR & HLx & HxR). repeat split; auto.
    eapply Forall_impl; [|exact HLx]. intros y Hy. simpl in Hy.
    constructor; auto.
    eapply Forall_impl; [|exact HxR]. intros z Hz.
    eapply node_lt_trans; eassumption.
Qed.

Lemma Forall_keys (P : Key -> Prop) t :
  Forall P (keys t) <-> Forall (fun n => P (node_key n)) (nodes t).
Proof. unfold keys. rewrite Forall_map. reflexivity. Qed.

Lemma bst_sorted t : bst t <-> sorted (nodes t).
Proof.
  induction t as [|a p l IHl r IHr h]; simpl.
  - split; auto. intros _. constructor.
  - rewrite sorted_app_cons, IHl, IHr, !Forall_keys. unfold node_lt, node_key.
    simpl. tauto.
Qed.

(** A sorted sequence holds at most one node per class of equivalent keys:
    the place of a node is determined by its key. *)
Lemma sorted_split_unique (L1 R1 L2 R2 : list (Ptr * @value_type Key T)) x y :
  sorted (L1 ++ x :: R1) ->
  L1 ++ x :: R1 = L2 ++ y :: R2 ->
  key_equiv (node_key x) (node_key y) ->
  L1 = L2 /\ x = y /\ R1 = R2.
Proof.
  revert L2. induction L1 as [|z L1 IH]; intros L2 Hs Heq Hxy.
  - destruct L2 as [|z' L2]; simpl in Heq.
    + injection Heq as -> ->. auto.
    + injection Heq as <- ->. exfalso.
      apply sorted_cons in Hs. destruct Hs as [_ HF].
      rewrite Forall_forall in HF.
      assert (Hlt : node_lt x y) by (apply HF, in_elt).
      unfold node_lt, key_lt in Hlt. destruct Hxy as [Hc _]. congruence.
  - destruct L2 as [|z' L2]; simpl in Heq.
    + injection Heq as -> Heq. exfalso.
      simpl in Hs. apply sorted_cons in Hs. destruct Hs as [_ HF].
      rewrite Forall_forall in HF.
      assert (Hlt : node_lt y x) by (apply HF, in_elt).
      unfold node_lt, key_lt in Hlt. destruct Hxy as [_ Hc]. congruence.
    + injection Heq as -> Heq. simpl in Hs. apply sorted_cons in Hs.
      destruct (IH L2 (proj1 Hs) Heq Hxy) as (-> & -> & ->). auto.
Qed.

Lemma subtree_trans s t u : subtree s t -> subtree t u -> subtree s u.
Proof.
  intros Hst Htu. induction Htu; auto using subtree.
Qed.

Lemma subtree_nodes s t :
  subtree s t -> exists GL GR, nodes t = GL ++ nodes s ++ GR.
Proof.
  induction 1 as [|a p l r h _ (GL & GR & IH)|a p l r h _ (GL & GR & IH)].
  - exists [], []. rewrite app_nil_r. reflexivity.
  - exists GL, (GR ++ (a, p) :: nodes r). simpl. rewrite IH.
    rewrite <- !app_assoc. reflexivity.
  - exists (nodes l ++ (a, p) :: GL), GR. simpl. rewrite IH.
    rewrite <- !app_assoc. reflexivity.
Qed.

Lemma subtree_bst s t : subtree s t -> bst t -> bst s.
Proof.
  induction 1; simpl; auto; intros (? & ? & ? & ?); auto.
Qed.

(** ** Pointers into the tree *)

Lemma NoDup_app_disjoint {A : Type} (l1 l2 : list A) (x : A) :
  NoDup (l1 ++ l2) -> In x l1 -> In x l2 -> False.
Proof.
  induction l1 as [|y l1 IH]; simpl; [tauto|].
  intros Hnd [->|H1] H2.
  - inversion Hnd as [|? ? Hn _]; subst. apply Hn, in_or_app; auto.
  - inversion Hnd; subst. auto.
Qed.

Lemma hd_ptr_app (L R : list (Ptr * @value_type Key T)) :
  L <> [] -> hd_ptr (L ++ R) = hd_ptr L.
Proof. destruct L; [congruence|reflexivity]. Qed.

Lemma nodes_nonnull a p l r h : nodes (mkEntry a p l r h) <> [].
Proof. simpl. destruct (nodes l); discriminate. Qed.

Lemma GetMinEntry_nodes t : ptr_of (GetMinEntry t) = hd_ptr (nodes t).
Proof.
  induction t as [|a p l IHl r _ h]; auto.
  destruct l as [|la lp ll lr lh]; auto.
  change (GetMinEntry (mkEntry a p (mkEntry la lp ll lr lh) r h))
    with (GetMinEntry (mkEntry la lp ll lr lh)).
  rewrite IHl. change (nodes (mkEntry a p (mkEntry la lp ll lr lh) r h))
    with (nodes (mkEntry la lp ll lr lh) ++ (a, p) :: nodes r).
  rewrite hd_ptr_app; auto using nodes_nonnull.
Qed.

Lemma GetMinEntry_first t b q l r h :
  GetMinEntry t = mkEntry b q l r h -> exists R, nodes t = (b, q) :: R.
Proof.
  induction t as [|a p tl IHl tr _ th]; [discriminate|].
  destruct tl as [|la lp ll lr lh].
  - simpl. intros [= -> -> <- -> ->]. eauto.
  - change (GetMinEntry (mkEntry a p (mkEntry la lp ll lr lh) tr th))
      with (GetMinEntry (mkEntry la lp ll lr lh)).
    intros H. destruct (IHl H) as [R HR].
    change (nodes (mkEntry a p (mkEntry la lp ll lr lh) tr th))
      with (nodes (mkEntry la lp ll lr lh) ++ (a, p) :: nodes tr).
    rewrite HR. simpl. eauto.
Qed.

Lemma nodes_subtree t a p :
  In (a, p) (nodes t) -> exists l r h, subtree (mkEntry a p l r h) t.
Proof.
  induction t as [|b q tl IHl tr IHr th]; simpl; [contradiction|].
  rewrite in_app_iff. simpl. intros [H|[H|H]].
  - destruct (IHl H) as (l & r & h & Hs). eauto using subtree.
  - injection H as -> ->. eauto using subtree.
  - destruct (IHr H) as (l & r & h & Hs). eauto using subtree.
Qed.

Lemma subtree_In s t a p l r h :
  subtree s t -> s = mkEntry a p l r h -> In (a, p) (nodes t).
Proof.
  intros Hs ->. destruct (subtree_nodes _ _ Hs) as (GL & GR & ->).
  simpl. rewrite !in_app_iff. simpl. auto.
Qed.

Lemma entry_at_nullptr t a : entry_at t a = nullptr <-> ~ In a (addrs t).
Proof.
  unfold addrs. induction t as [|b q l IHl r IHr h]; simpl; [tauto|].
  rewrite map_app, in_app_iff. simpl.
  destruct (entry_at l a) eqn:Hl.
  - destruct (Z.eqb_spec b a).
    + split; [discriminate|]. intros H; exfalso; apply H; auto.
    + rewrite IHr. tauto.
  - split; [discriminate|]. intros H; exfalso.
    assert (Hin : ~ In a (map fst (nodes l))) by tauto.
    apply IHl in Hin. discriminate.
Qed.

Lemma entry_at_subtree t a e :
  entry_at t a = e -> e <> nullptr -> subtree e t /\ ptr_of e = Some a.
Proof.
  induction t as [|b q l IHl r IHr h]; simpl; [congruence|].
  destruct (entry_at l a) eqn:Hl.
  - destruct (Z.eqb_spec b a).
    + intros <- _. subst. split; [constructor|reflexivity].
    + intros He Hn. destruct (IHr He Hn). auto using subtree.
  - intros He Hn. destruct IHl as [? ?]; auto. auto using subtree.
Qed.

Lemma entry_at_unique t a p l r h :
  NoDup (addrs t) -> subtree (mkEntry a p l r h) t ->
  entry_at t a = mkEntry a p l r h.
Proof.
  unfold addrs. intros Hnd Hs. remember (mkEntry a p l r h) as s eqn:Es.
  induction Hs as [|b q tl tr th Hs IH|b q tl tr th Hs IH].
  - subst s. simpl in *. rewrite map_app in Hnd. simpl in Hnd.
    apply NoDup_remove_2 in Hnd.
    assert (Hl : entry_at l a = nullptr).
    { apply entry_at_nullptr. unfold addrs. rewrite in_app_iff in Hnd. tauto. }
    rewrite Hl, Z.eqb_refl. reflexivity.
  - simpl in *. rewrite map_app in Hnd.
    rewrite IH; auto; [subst s; reflexivity|].
    eapply NoDup_app_remove_r; eauto.
  - simpl in *. rewrite map_app in Hnd. simpl in Hnd.
    assert (Hin : In a (map fst (nodes tr))).
    { exact (in_map fst _ _ (subtree_In _ _ a p l r h Hs Es)). }
    pose proof (NoDup_remove_2 _ _ _ Hnd) as Hb.
    assert (Hl : entry_at tl a = nullptr).
    { apply entry_at_nullptr. unfold addrs. intros Hl.
      apply (NoDup_app_disjoint _ _ a Hnd Hl). simpl; auto. }
    rewrite Hl. destruct (Z.eqb_spec b a) as [->|_].
    + exfalso. apply Hb. rewrite in_app_iff; auto.
    + apply IH; auto. apply NoDup_app_remove_l in Hnd.
      inversion Hnd; auto.
Qed.

Lemma entry_at_nodes t (GL GR : list (Ptr * @value_type Key T)) a p :
  NoDup (addrs t) -> nodes t = GL ++ (a, p) :: GR ->
  exists l r h, entry_at t a = mkEntry a p l r h /\
                subtree (mkEntry a p l r h) t.
Proof.
  intros Hnd Hn.
  destruct (nodes_subtree t a p) as (l & r & h & Hs).
  { rewrite Hn. apply in_elt. }
  exists l, r, h. split; auto using entry_at_unique.
Qed.

(** ** Descents by key *)

Lemma lt_not_equiv (x y : Key) : key_lt x y -> ~ key_equiv x y.
Proof. unfold key_lt. intros H [Hc _]. congruence. Qed.

Lemma gt_not_equiv (x y : Key) : key_lt y x -> ~ key_equiv x y.
Proof. unfold key_lt. intros H [_ Hc]. congruence. Qed.

(** The three outcomes of [CompareKeys], as the descents test them. *)
Lemma CompareKeys_dec (a b : Key) :
  ((CompareKeys a b >? 0) = true /\ key_lt b a) \/
  ((CompareKeys a b >? 0) = false /\ (CompareKeys a b <? 0) = true /\
   key_lt a b) \/
  ((CompareKeys a b >? 0) = false /\ (CompareKeys a b <? 0) = false /\
   (CompareKeys a b =? 0) = true /\ key_equiv a b).
Proof.
  destruct (CompareKeys_cases a b) as [[-> H]|[[-> H]|[-> H]]]; auto.
  right. right. auto.
Qed.

Lemma find_loop_spec t (k : Key) :
  bst t ->
  (find_loop t k = nullptr /\
   Forall (fun n => ~ key_equiv (node_key n) k) (nodes t)) \/
  (exists a p l r h, find_loop t k = mkEntry a p l r h /\
                     key_equiv (fst p) k /\ subtree (mkEntry a p l r h) t).
Proof.
  induction t as [|a p l IHl r IHr h]; simpl.
  - intros _. left. split; auto.
  - intros (Hlt & Hgt & Hl & Hr). rewrite Forall_keys in Hlt, Hgt.
    destruct (CompareKeys_dec (fst p) k)
      as [[Hc Hk]|[(Hc & Hc' & Hk)|(Hc & Hc' & Hc'' & Hk)]].
    + assert (Hz : (CompareKeys (fst p) k =? 0) = false).
      { apply Z.eqb_neq. destruct (Z.gtb_spec (CompareKeys (fst p) k) 0);
          [lia|discriminate]. }
      rewrite Hz, (lt_gt_excl _ Hc).
      destruct (IHl Hl) as [[Hn Ha]|(a' & p' & l' & r' & h' & Hf & He & Hs)].
      * left. split; auto. apply Forall_app. split; auto.
        constructor; [apply gt_not_equiv; exact Hk|].
        eapply Forall_impl; [|exact Hgt]. intros n Hn'. simpl in Hn'.
        apply gt_not_equiv. eapply compare_trans; eauto.
      * right. exists a', p', l', r', h'. auto using subtree.
    + assert (Hz : (CompareKeys (fst p) k =? 0) = false).
      { apply Z.eqb_neq. apply Z.ltb_lt in Hc'. lia. }
      rewrite Hz, Hc'.
      destruct (IHr Hr) as [[Hn Ha]|(a' & p' & l' & r' & h' & Hf & He & Hs)].
      * left. split; auto. apply Forall_app. split; [|constructor; auto].
        -- eapply Forall_impl; [|exact Hlt]. intros n Hn'. simpl in Hn'.
           apply lt_not_equiv. eapply compare_trans; eauto.
        -- apply lt_not_equiv. exact Hk.
      * right. exists a', p', l', r', h'. auto using subtree.
    + rewrite Hc''. right. exists a, p, l, r, h. auto using subtree.
Qed.

(** The walk from the root of [InOrderSuccessor], for a node without a right
    child: it ends on the node that follows in in-order, or on what it was
    given when there is none. *)
Lemma InOrderSuccessor_loop_spec t a p xl xh :
  subtree (mkEntry a p xl nullptr xh) t -> bst t ->
  forall acc, exists GL GR,
    nodes t = GL ++ (a, p) :: GR /\
    ptr_of (InOrderSuccessor_loop t (fst p) acc) =
      match GR with [] => ptr_of acc | n :: _ => Some (fst n) end.
Proof.
  intros Hs. remember (mkEntry a p xl nullptr xh) as x eqn:Ex.
  induction Hs as [|b q l r h Hs IH|b q l r h Hs IH]; intros Hbst acc.
  - subst x. exists (nodes xl), []. split; [reflexivity|].
    simpl. rewrite CompareKeys_gt, CompareKeys_lt, compare_irrefl. reflexivity.
  - simpl in Hbst. destruct Hbst as (Hlt & _ & Hl & _).
    rewrite Forall_keys, Forall_forall in Hlt.
    pose proof (Hlt _ (subtree_In _ _ _ _ _ _ _ Hs Ex)) as Hk.
    unfold node_key, key_lt in Hk. simpl in Hk.
    destruct (IH Hl (mkEntry b q l r h)) as (GL & GR & Hn & Hp).
    exists GL, (GR ++ (b, q) :: nodes r). split.
    + simpl. rewrite Hn, <- app_assoc. reflexivity.
    + simpl. rewrite CompareKeys_gt, Hk, Hp. destruct GR; reflexivity.
  - simpl in Hbst. destruct Hbst as (_ & Hgt & _ & Hr).
    rewrite Forall_keys, Forall_forall in Hgt.
    pose proof (Hgt _ (subtree_In _ _ _ _ _ _ _ Hs Ex)) as Hk.
    unfold node_key, key_lt in Hk. simpl in Hk.
    destruct (IH Hr acc) as (GL & GR & Hn & Hp).
    exists (nodes l ++ (b, q) :: GL), GR. split.
    + simpl. rewrite Hn, <- app_assoc. reflexivity.
    + simpl. rewrite CompareKeys_gt, CompareKeys_lt, Hk,
        (compare_asym _ _ Hk), Hp. reflexivity.
Qed.

Lemma InOrderSuccessor_spec root_ a p l r h :
  bst root_ -> subtree (mkEntry a p l r h) root_ ->
  exists s, InOrderSuccessor root_ (mkEntry a p l r h) = Some s /\
    forall GL GR, nodes root_ = GL ++ (a, p) :: GR -> ptr_of s = hd_ptr GR.
Proof.
  intros Hbst Hs. pose proof (proj1 (bst_sorted _) Hbst) as Hsorted.
  destruct r as [|ra rp rl rr rh].
  - destruct (InOrderSuccessor_loop_spec _ _ _ _ _ Hs Hbst nullptr)
      as (GL0 & GR0 & Hn & Hp).
    eexists. split; [reflexivity|]. intros GL GR Hn'.
    rewrite Hn in Hsorted, Hn'.
    destruct (sorted_split_unique _ _ _ _ _ _ Hsorted Hn'
                (key_equiv_refl _)) as (_ & _ & <-).
    rewrite Hp. destruct GR0; reflexivity.
  - eexists. split; [reflexivity|]. intros GL GR Hn'.
    pose proof (nodes_nonnull ra rp rl rr rh) as Hne.
    remember (mkEntry ra rp rl rr rh) as r eqn:Er. clear Er.
    destruct (subtree_nodes _ _ Hs) as (G1 & G2 & Hn).
    simpl in Hn. rewrite <- !app_assoc in Hn. simpl in Hn.
    rewrite app_assoc in Hn. rewrite Hn in Hsorted, Hn'.
    destruct (sorted_split_unique _ _ _ _ _ _ Hsorted Hn'
                (key_equiv_refl _)) as (_ & _ & <-).
    rewrite GetMinEntry_nodes, hd_ptr_app; auto.
Qed.

(** ** Insertion and removal on the in-order sequence *)

#[local] Arguments RebalanceTreeAfterInsertion : simpl never.
#[local] Arguments RebalanceTreeAfterDeletion : simpl never.

Lemma InsertRecursive_nodes this e t (p : @value_type Key T) it t' :
  bst t -> find_loop t (fst p) = nullptr ->
  InsertRecursive this e t p = Some (it, t') ->
  exists L R, nodes t = L ++ R /\ nodes t' = L ++ (e, p) :: R /\
              Forall (fun n => node_lt n (e, p)) L /\
              Forall (node_lt (e, p)) R /\
              it = mkIterator (Some e) this.
Proof.
  revert it t'. induction t as [|a q l IHl r IHr h]; intros it t'.
  - simpl. intros _ _ [= <- <-]. exists [], []. simpl. auto.
  - simpl. intros (Hlt & Hgt & Hl & Hr). rewrite Forall_keys in Hlt, Hgt.
    destruct (CompareKeys_dec (fst q) (fst p))
      as [[Hc Hk]|[(Hc & Hc' & Hk)|(Hc & Hc' & Hc'' & Hk)]].
    + rewrite Hc, (lt_gt_excl _ Hc).
      destruct (CompareKeys (fst q) (fst p) =? 0); [discriminate|].
      intros Hf.
      destruct (InsertRecursive this e l p) as [[it0 l']|] eqn:Hi; [|discriminate].
      destruct (RebalanceTreeAfterInsertion _ _) as [root'|] eqn:Hre;
        [|discriminate].
      intros [= <- <-]. apply RebalanceTreeAfterInsertion_nodes in Hre.
      destruct (IHl _ _ Hl Hf eq_refl) as (L & R & Hn & Hn' & HL & HR & ->).
      exists L, (R ++ (a, q) :: nodes r). rewrite Hre. simpl.
      rewrite Hn, Hn', <- !app_assoc. repeat split; auto.
      apply Forall_app. split; auto. constructor; [exact Hk|].
      eapply Forall_impl; [|exact Hgt]. intros n Hn0. simpl in Hn0.
      unfold node_lt, key_lt, node_key in *. simpl.
      eapply compare_trans; eauto.
    + rewrite Hc, Hc'.
      destruct (CompareKeys (fst q) (fst p) =? 0); [discriminate|].
      intros Hf.
      destruct (InsertRecursive this e r p) as [[it0 r']|] eqn:Hi; [|discriminate].
      destruct (RebalanceTreeAfterInsertion _ _) as [root'|] eqn:Hre;
        [|discriminate].
      intros [= <- <-]. apply RebalanceTreeAfterInsertion_nodes in Hre.
      destruct (IHr _ _ Hr Hf eq_refl) as (L & R & Hn & Hn' & HL & HR & ->).
      exists (nodes l ++ (a, q) :: L), R. rewrite Hre. simpl.
      rewrite Hn, Hn', <- !app_assoc. repeat split; auto.
      apply Forall_app. split; [|constructor; [exact Hk|auto]].
      eapply Forall_impl; [|exact Hlt]. intros n Hn0. simpl in Hn0.
      unfold node_lt, key_lt, node_key in *. simpl.
      eapply compare_trans; eauto.
    + rewrite Hc''. discriminate.
Qed.

Lemma set_pair_min t b q l r h (p : @value_type Key T) R :
  GetMinEntry t = mkEntry b q l r h -> nodes t = (b, q) :: R ->
  nodes (set_pair t b p) = (b, p) :: R.
Proof.
  revert R. induction t as [|a' p' tl IHl tr _ th]; intros R; [discriminate|].
  destruct tl as [|la lp ll lr lh].
  - simpl. intros [= -> -> <- -> ->] [= <-]. rewrite Z.eqb_refl. reflexivity.
  - change (GetMinEntry (mkEntry a' p' (mkEntry la lp ll lr lh) tr th))
      with (GetMinEntry (mkEntry la lp ll lr lh)).
    intros Hm Hn. destruct (GetMinEntry_first _ _ _ _ _ _ Hm) as [R' HR'].
    remember (mkEntry la lp ll lr lh) as tl eqn:Etl.
    simpl in Hn. rewrite HR' in Hn. injection Hn as <-.
    simpl. destruct (entry_at tl b) eqn:He.
    + exfalso. apply entry_at_nullptr in He. apply He. unfold addrs.
      rewrite HR'. simpl. auto.
    + simpl. rewrite (IHl _ Hm HR'). reflexivity.
Qed.

Lemma removed_lift this root_ s s' t t' k it X1 X2 :
  removed this root_ s k it s' ->
  nodes t = X1 ++ nodes s ++ X2 -> nodes t' = X1 ++ nodes s' ++ X2 ->
  Forall (fun n => ~ key_equiv (node_key n) k) X1 ->
  Forall (fun n => ~ key_equiv (node_key n) k) X2 ->
  (subtree t root_ -> subtree s root_) ->
  removed this root_ t k it t'.
Proof.
  intros [(Hab & Hn & ->)|(L & a & p & R & Hn & He & Hm & Hcase)] Ht Ht' H1 H2 Hsub.
  - left. rewrite Ht, Ht', Hn. repeat split; auto.
    rewrite !Forall_app. auto.
  - right. exists (X1 ++ L), a, p, (R ++ X2). rewrite Ht, Ht', Hn.
    rewrite <- !app_assoc. simpl.
    split; [reflexivity|]. split; [exact He|]. split; [exact Hm|].
    destruct Hcase as [[Hn' Hit]|(b & q & R2 & HL & -> & Hn' & Hit)].
    + left. rewrite Hn', <- !app_assoc. split; [reflexivity|].
      intros Hb Hs GL GR HG. eapply Hit; eauto.
    + right. exists b, q, (R2 ++ X2). rewrite Hn', <- !app_assoc. simpl.
      split; [|auto]. destruct X1; [exact HL|discriminate].
Qed.

Lemma RemoveRecursive_removed this fuel :
  forall root_ t (k : Key) it t',
  bst t -> RemoveRecursive this fuel root_ t k = Some (it, t') ->
  removed this root_ t k it t'.
Proof.
  induction fuel as [|fuel IH]; intros root_ t k it t' Hbst; [discriminate|].
  destruct t as [|a p l r h].
  { simpl. intros [= <- <-]. left. repeat split; auto. }
  pose proof Hbst as Hbst0. simpl in Hbst.
  destruct Hbst as (Hlt & Hgt & Hl & Hr). rewrite Forall_keys in Hlt, Hgt.
  cbn [RemoveRecursive].
  destruct (CompareKeys_dec (fst p) k)
    as [[Hc Hk]|[(Hc & Hc' & Hk)|(Hc & Hc' & Hc'' & Hk)]].
  - (* the key is in the left subtree *)
    rewrite Hc.
    destruct (RemoveRecursive this fuel root_ l k) as [[it0 l']|] eqn:Hrec;
      [|discriminate].
    destruct (RebalanceTreeAfterDeletion _) as [root'|] eqn:Hre; [|discriminate].
    intros [= <- <-]. apply RebalanceTreeAfterDeletion_nodes in Hre.
    apply (removed_lift this root_ l l' _ _ k it0 [] ((a, p) :: nodes r)).
    + apply IH; auto.
    + reflexivity.
    + rewrite Hre. reflexivity.
    + constructor.
    + constructor; [apply gt_not_equiv; exact Hk|].
      eapply Forall_impl; [|exact Hgt]. intros n Hn. simpl in Hn.
      apply gt_not_equiv. eapply compare_trans; eauto.
    + intros Hs. eapply subtree_trans; [|exact Hs]. auto using subtree.
  - (* the key is in the right subtree *)
    rewrite Hc, Hc'.
    destruct (RemoveRecursive this fuel root_ r k) as [[it0 r']|] eqn:Hrec;
      [|discriminate].
    destruct (RebalanceTreeAfterDeletion _) as [root'|] eqn:Hre; [|discriminate].
    intros [= <- <-]. apply RebalanceTreeAfterDeletion_nodes in Hre.
    apply (removed_lift this root_ r r' _ _ k it0 (nodes l ++ [(a, p)]) []).
    + apply IH; auto.
    + simpl. rewrite app_nil_r, <- app_assoc. reflexivity.
    + rewrite Hre. simpl. rewrite app_nil_r, <- app_assoc. reflexivity.
    + apply Forall_app. split; [|constructor; [apply lt_not_equiv; exact Hk|auto]].
      eapply Forall_impl; [|exact Hlt]. intros n Hn. simpl in Hn.
      apply lt_not_equiv. eapply compare_trans; eauto.
    + constructor.
    + intros Hs. eapply subtree_trans; [|exact Hs]. auto using subtree.
  - (* the key is here *)
    rewrite Hc, Hc'.
    destruct (InOrderSuccessor root_ (mkEntry a p l r h)) as [s|] eqn:Hsucc;
      [|discriminate].
    assert (Hiter : bst root_ -> subtree (mkEntry a p l r h) root_ ->
              forall GL GR, nodes root_ = GL ++ (a, p) :: GR ->
                            ptr_of s = hd_ptr GR).
    { intros Hb Hs. destruct (InOrderSuccessor_spec _ _ _ _ _ _ Hb Hs)
        as (s' & Hs' & Hspec). rewrite Hsucc in Hs'. injection Hs' as <-.
      exact Hspec. }
    destruct l as [|la lp ll lr lh].
    { intros [= <- <-]. right. exists [], a, p, (nodes r).
      split; [reflexivity|]. split; [exact Hk|]. split; [reflexivity|].
      left. split; [reflexivity|]. exact Hiter. }
    destruct r as [|ra rp rl rr rh].
    { intros [= <- <-]. right.
      exists (nodes (mkEntry la lp ll lr lh)), a, p, [].
      split; [reflexivity|]. split; [exact Hk|]. split; [reflexivity|].
      left. split; [rewrite app_nil_r; reflexivity|]. exact Hiter. }
    cbv match.
    assert (Hs : s = GetMinEntry (mkEntry ra rp rl rr rh)).
    { simpl in Hsucc. injection Hsucc as <-. reflexivity. }
    pose proof (nodes_nonnull la lp ll lr lh) as Hl0.
    remember (mkEntry la lp ll lr lh) as l eqn:El. clear El.
    remember (mkEntry ra rp rl rr rh) as r eqn:Er. clear Er.
    destruct s as [|b q sl sr sh]; [discriminate|].
    destruct (GetMinEntry_first _ _ _ _ _ _ (eq_sym Hs)) as [R2 HR2].
    pose proof (set_pair_min _ _ _ _ _ _ p _ (eq_sym Hs) HR2) as Hset.
    destruct (RemoveRecursive this fuel _ (set_pair r b p) (fst p))
      as [[it0 r'']|] eqn:Hrec; [|discriminate].
    destruct (RebalanceTreeAfterDeletion _) as [root'|] eqn:Hre; [|discriminate].
    intros [= <- <-]. apply RebalanceTreeAfterDeletion_nodes in Hre.
    assert (Hsorted' : sorted (nodes (set_pair r b p))).
    { rewrite Hset. apply bst_sorted in Hr. rewrite HR2 in Hr, Hgt.
      apply sorted_cons in Hr. apply sorted_cons. split; [tauto|].
      inversion Hgt; subst; assumption. }
    apply IH in Hrec; [|apply bst_sorted; exact Hsorted'].
    destruct Hrec as [(Hab & _)|(L' & a' & p' & R' & Hn & He & _ & Hcase)].
    { exfalso. rewrite Hset in Hab. inversion Hab as [|? ? Hne _]; subst.
      apply Hne. apply key_equiv_refl. }
    rewrite Hset in Hn, Hsorted'.
    destruct (sorted_split_unique [] R2 L' R' (b, p) (a', p') Hsorted' Hn)
      as (<- & Hx & <-).
    { apply key_equiv_sym. exact He. }
    destruct Hcase as [[Hn' _]|(? & ? & ? & Hne & _)]; [|congruence].
    right. exists (nodes l), a, p, (nodes r).
    split; [reflexivity|]. split; [exact Hk|]. split; [reflexivity|].
    right. exists b, q, R2. rewrite Hre. simpl. rewrite Hn'. auto.
Qed.

End Sorted.

(** ** Why the machine integers never overflow

    Nodes live at pairwise distinct non-null addresses, so there are at most
    [SIZE_MAX] of them; an AVL tree of height [h] has at least [2^(h/2) - 1]
    nodes, so its height stays far below [INT32_MAX]. *)

Section Bounds.

Context {Key T : Type} {key_compare_ : Compare Key}.

Implicit Types t l r : @Entry Key T.

Lemma NoDup_bounded_length (n : nat) :
  forall xs : list Z,
  NoDup xs -> Forall (fun x => 0 < x <= Z.of_nat n) xs ->
  (length xs <= n)%nat.
Proof.
  induction n as [|n IH]; intros xs Hnd Hall.
  - destruct xs as [|x xs]; auto. inversion Hall; subst. lia.
  - destruct (in_dec Z.eq_dec (Z.of_nat (S n)) xs) as [Hin|Hnin].
    + apply in_split in Hin. destruct Hin as (l1 & l2 & ->).
      pose proof (NoDup_remove_1 _ _ _ Hnd) as Hnd1.
      pose proof (NoDup_remove_2 _ _ _ Hnd) as Hnd2.
      assert (Hlen : (length (l1 ++ l2) <= n)%nat).
      { apply IH; auto. rewrite Forall_forall in *. intros x Hx.
        assert (Hx' : In x (l1 ++ Z.of_nat (S n) :: l2)).
        { rewrite in_app_iff in *. simpl. tauto. }
        specialize (Hall x Hx').
        assert (x <> Z.of_nat (S n)) by (intros ->; contradiction).
        lia. }
      rewrite length_app in *. simpl. lia.
    + assert (Hlen : (length xs <= n)%nat); [|lia].
      apply IH; auto. rewrite Forall_forall in *. intros x Hx.
      specialize (Hall x Hx).
      assert (x <> Z.of_nat (S n)) by (intros ->; contradiction).
      lia.
Qed.

Lemma distinct_ptrs_count (xs : list Ptr) :
  NoDup xs -> Forall valid_ptr xs -> Z.of_nat (length xs) <= SIZE_MAX.
Proof.
  intros Hnd Hall.
  assert (H0 : 0 <= SIZE_MAX) by (rewrite SIZE_MAX_val; lia).
  pose proof (NoDup_bounded_length (Z.to_nat SIZE_MAX) xs Hnd) as H.
  rewrite Z2Nat.id in H by exact H0. specialize (H Hall).
  apply Nat2Z.inj_le in H. rewrite Z2Nat.id in H by exact H0. exact H.
Qed.

Lemma pow2_half (h : Z) : 2 <= h -> 2 ^ (h / 2) = 2 * 2 ^ ((h - 2) / 2).
Proof.
  intros Hh. replace (h - 2) with (h + (-1) * 2) by lia.
  rewrite Z.div_add by lia.
  assert (1 <= h / 2) by (apply Z.div_le_lower_bound; lia).
  replace (h / 2) with (Z.succ (h / 2 + -1)) at 1 by lia.
  rewrite Z.pow_succ_r by lia. reflexivity.
Qed.

Lemma avl_count t :
  avl t -> 2 ^ (EntryHeight t / 2) <= Z.of_nat (length (nodes t)) + 1.
Proof.
  induction t as [|a p l IHl r IHr h]; simpl.
  - intros _. change (0 / 2) with 0. simpl. lia.
  - intros (Hh & Hbal & Hl & Hr). specialize (IHl Hl). specialize (IHr Hr).
    pose proof (avl_height_nonneg _ Hl). pose proof (avl_height_nonneg _ Hr).
    rewrite length_app. simpl length. rewrite Nat2Z.inj_add, Nat2Z.inj_succ.
    destruct (Z.eq_dec h 1) as [->|Hne].
    + change (1 / 2) with 0. simpl. lia.
    + rewrite pow2_half by lia.
      assert (Hml : 2 ^ ((h - 2) / 2) <= 2 ^ (EntryHeight l / 2)).
      { apply Z.pow_le_mono_r; [lia|]. apply Z.div_le_mono; lia. }
      assert (Hmr : 2 ^ ((h - 2) / 2) <= 2 ^ (EntryHeight r / 2)).
      { apply Z.pow_le_mono_r; [lia|]. apply Z.div_le_mono; lia. }
      lia.
Qed.

Lemma avl_height_bound t :
  avl t -> Z.of_nat (length (nodes t)) <= SIZE_MAX -> EntryHeight t <= 129.
Proof.
  intros Havl Hlen. pose proof (avl_count t Havl) as Hc.
  pose proof (avl_height_nonneg _ Havl) as H0.
  destruct (Z_le_gt_dec (EntryHeight t) 129) as [|Hgt]; auto. exfalso.
  assert (H65 : 2 ^ 65 <= 2 ^ (EntryHeight t / 2)).
  { apply Z.pow_le_mono_r; [lia|]. apply Z.div_le_lower_bound; lia. }
  rewrite SIZE_MAX_val in Hlen.
  change (2 ^ 65) with 36893488147419103232 in H65. lia.
Qed.

Lemma Map_ok_count (m : @Map Key T) :
  Map_ok m -> Z.of_nat (length (nodes (root_ m))) <= SIZE_MAX.
Proof.
  intros [_ _ Hnd Hv _]. unfold addrs in *.
  rewrite <- (length_map fst). apply distinct_ptrs_count; assumption.
Qed.

Lemma Map_ok_height (m : @Map Key T) :
  Map_ok m -> EntryHeight (root_ m) <= 129.
Proof.
  intros Hok. apply avl_height_bound; [apply Hok|].
  apply Map_ok_count, Hok.
Qed.

End Bounds.

(** ** The operations of the map *)

Section Operations.

Context {Key T : Type} {key_compare_ : Compare Key} {SWO : StrictWeakOrder Key}.
Variable this : Ptr.
Variable others : list (Ptr * @value_type Key T).

Implicit Types t l r : @Entry Key T.
Implicit Types m : @Map Key T.

Lemma NoDup_insert_middle {A : Type} (l1 l2 : list A) (x : A) :
  NoDup (l1 ++ l2) -> ~ In x (l1 ++ l2) -> NoDup (l1 ++ x :: l2).
Proof.
  intros Hnd Hx. apply (NoDup_Add (Add_app x l1 l2)). auto.
Qed.

Lemma iterator_eq_end (e : @Entry Key T) mp :
  iterator_eq (mkIterator (ptr_of e) mp) (end_ this) =
  match e with nullptr => true | _ => false end.
Proof. destruct e; reflexivity. Qed.

Lemma find_end m k :
  iterator_eq (find this m k) (end_ this) = true <->
  find_loop (root_ m) k = nullptr.
Proof.
  unfold find. rewrite iterator_eq_end.
  destruct (find_loop (root_ m) k); split; congruence.
Qed.

(** [find] on a well-formed map: the entry with an equivalent key, or the
    end iterator when there is none.  *)
Lemma find_spec m k :
  bst (root_ m) ->
  (find this m k = end_ this /\
   Forall (fun n => ~ key_equiv (node_key n) k) (nodes (root_ m))) \/
  (exists L a p R, nodes (root_ m) = L ++ (a, p) :: R /\
                   key_equiv (fst p) k /\
                   find this m k = mkIterator (Some a) this).
Proof.
  intros Hbst. unfold find.
  destruct (find_loop_spec (root_ m) k Hbst)
    as [[-> Hab]|(a & p & l & r & h & -> & He & Hs)].
  - left. auto.
  - right. destruct (in_split _ _ (subtree_In _ _ _ _ _ _ _ Hs eq_refl))
      as (L & R & Hn).
    exists L, a, p, R. auto.
Qed.

Lemma emplace_present m e (pair : @value_type Key T) :
  find_loop (root_ m) (fst pair) <> nullptr ->
  emplace this m e pair = Some ((find this m (fst pair), false), m).
Proof.
  intros Hf. unfold emplace.
  destruct (iterator_eq (find this m (fst pair)) (end_ this)) eqn:He; auto.
  apply find_end in He. contradiction.
Qed.

Lemma emplace_absent m e (pair : @value_type Key T) :
  Map_ok m -> fresh_ptr (root_ m) e ->
  find_loop (root_ m) (fst pair) = nullptr ->
  exists m' L R,
    emplace this m e pair = Some ((mkIterator (Some e) this, true), m') /\
    Map_ok m' /\
    nodes (root_ m) = L ++ R /\ nodes (root_ m') = L ++ (e, pair) :: R /\
    size_ m' = size_ m + 1.
Proof.
  intros Hok [Hv Hfresh] Hf. pose proof (Map_ok_height m Hok) as Hh.
  destruct Hok as [Hbst Havl Hnd Hval Hsize].
  destruct (InsertRecursive_avl this e (root_ m) pair Havl)
    as (it & t' & Hins & Havl' & _); [rewrite INT32_MAX_val; lia|].
  destruct (InsertRecursive_nodes this e _ pair it t' Hbst Hf Hins)
    as (L & R & Hn & Hn' & HL & HR & ->).
  assert (Hnd' : NoDup (addrs t')).
  { unfold addrs in *. rewrite Hn', map_app. simpl.
    rewrite Hn, map_app in Hnd, Hfresh. apply NoDup_insert_middle; auto. }
  assert (Hval' : Forall valid_ptr (addrs t')).
  { unfold addrs in *. rewrite Hn', map_app. simpl.
    rewrite Hn, map_app in Hval. apply Forall_app in Hval.
    apply Forall_app. split; [tauto|constructor; tauto]. }
  pose proof (distinct_ptrs_count _ Hnd' Hval') as Hcount.
  unfold addrs in Hcount. rewrite length_map in Hcount.
  assert (Hlen : Z.of_nat (length (nodes t')) = size_ m + 1).
  { rewrite Hn', Hsize, Hn, !length_app. simpl. lia. }
  eexists _, L, R. unfold emplace.
  rewrite (proj2 (find_end m (fst pair)) Hf), Hins.
  split; [reflexivity|]. simpl.
  rewrite size_t_wrap_small by lia.
  split; [|auto]. constructor; simpl; auto; try lia.
  apply bst_sorted. rewrite Hn'. apply bst_sorted in Hbst.
  rewrite Hn in Hbst. apply sorted_app in Hbst.
  apply sorted_app_cons. tauto.
Qed.

Lemma deref_nodes m (L R : list (Ptr * @value_type Key T)) a p mp :
  NoDup (addrs (root_ m)) -> nodes (root_ m) = L ++ (a, p) :: R ->
  deref m (mkIterator (Some a) mp) = Some p.
Proof.
  intros Hnd Hn. unfold deref. simpl.
  destruct (entry_at_nodes _ _ _ _ _ Hnd Hn) as (l & r & h & -> & _).
  reflexivity.
Qed.

(** Through an iterator at a node of the map, the raw pointer reads the
    pair of that node, whatever else is live. *)
Lemma raw_deref_nodes m (L R : list (Ptr * @value_type Key T)) a p mp :
  NoDup (addrs (root_ m)) -> nodes (root_ m) = L ++ (a, p) :: R ->
  raw_deref others m (mkIterator (Some a) mp) = Some p.
Proof.
  intros Hnd Hn. unfold raw_deref. simpl.
  destruct (entry_at_nodes _ _ _ _ _ Hnd Hn) as (l & r & h & -> & _).
  reflexivity.
Qed.

(** [erase(iterator)] at a node of a well-formed map.  Either the node is
    unlinked and the iterator returned points to the node that followed it,
    or (two children) the node takes over the pair of the node that followed
    it, which is the one unlinked, and the iterator returned points to the
    node itself. *)
Lemma erase_iter_node m (L R : list (Ptr * @value_type Key T)) a p mp :
  Map_ok m -> nodes (root_ m) = L ++ (a, p) :: R ->
  exists it' m',
    erase_iter this others m (mkIterator (Some a) mp) = Some (it', m') /\
    Map_ok m' /\ size_ m' = size_ m - 1 /\ map_ it' = this /\
    ((nodes (root_ m') = L ++ R /\ curr_ it' = hd_ptr R) \/
     (exists b q R2, R = (b, q) :: R2 /\
                     nodes (root_ m') = L ++ (a, q) :: R2 /\
                     curr_ it' = Some a)).
Proof.
  intros Hok Hn. destruct p as [k v].
  pose proof (Map_ok_height m Hok) as Hh.
  pose proof (Map_ok_count m Hok) as Hcount.
  destruct Hok as [Hbst Havl Hnd Hval Hsize].
  pose proof (proj1 (bst_sorted _) Hbst) as Hsorted.
  destruct (RemoveRecursive_avl this (S (depth (root_ m))) (root_ m) (root_ m)
              k) as (it' & t' & Hrem & Havl' & _); auto;
    [rewrite INT32_MAX_val; lia|].
  pose proof (RemoveRecursive_removed _ _ _ _ _ _ _ Hbst Hrem) as Hrd.
  assert (Hcase : map_ it' = this /\
    ((nodes t' = L ++ R /\ curr_ it' = hd_ptr R) \/
     (exists b q R2, R = (b, q) :: R2 /\ nodes t' = L ++ (a, q) :: R2 /\
                     curr_ it' = Some a))).
  { destruct Hrd as [(Hab & _)|(L' & a' & p' & R' & Hn0 & He & Hm & Hcase)].
    { exfalso. rewrite Hn, Forall_forall in Hab.
      apply (Hab (a, (k, v))); [apply in_elt|apply key_equiv_refl]. }
    rewrite Hn in Hn0, Hsorted.
    destruct (sorted_split_unique _ _ _ _ _ _ Hsorted Hn0) as (<- & [= <- <-] & <-).
    { apply key_equiv_sym. exact He. }
    split; [exact Hm|].
    destruct Hcase as [[Hn' Hit]|(b & q & R2 & _ & -> & Hn' & Hit)].
    - left. split; auto. apply (Hit Hbst (subtree_here _) L R). exact Hn.
    - right. exists b, q, R2. auto. }
  destruct Hcase as [Hm Hcase].
  exists it', {| root_ := t'; size_ := size_t_wrap (size_ m - 1) |}.
  assert (Hlen : length (nodes (root_ m)) = S (length (nodes t'))).
  { rewrite Hn. destruct Hcase as [[-> _]|(b & q & R2 & -> & -> & _)];
      rewrite !length_app; simpl; lia. }
  rewrite size_t_wrap_small by lia.
  split.
  { unfold erase_iter. simpl iterator_eq. cbv iota.
    rewrite (raw_deref_nodes m L R a (k, v) mp Hnd Hn), Hrem.
    rewrite size_t_wrap_small by lia. reflexivity. }
  split; [|simpl; auto].
  unfold addrs in *. rewrite Hn in Hnd, Hval, Hsorted.
  constructor; simpl; auto; try lia; unfold addrs.
  - apply bst_sorted.
    destruct Hcase as [[-> _]|(b & q & R2 & -> & -> & _)].
    + apply sorted_app_cons in Hsorted. apply sorted_app.
      destruct Hsorted as (HL & HR & HLx & HxR). repeat split; auto.
      rewrite Forall_forall in HLx, HxR.
      apply Forall_forall. intros x Hx. apply Forall_forall. intros y Hy.
      eapply node_lt_trans; [apply HLx|apply HxR]; auto.
    + apply sorted_app_cons in Hsorted.
      destruct Hsorted as (HL & HR & HLx & HxR).
      apply sorted_cons in HR. destruct HR as [HR2 HqR].
      inversion HxR as [|? ? Hpq _]; subst.
      apply sorted_app_cons.
      split; [exact HL|]. split; [exact HR2|]. split; [|exact HqR].
      eapply Forall_impl; [|exact HLx]. intros x Hx. simpl in Hx.
      apply (node_lt_trans x (a, (k, v)) (b, q)); assumption.
  - destruct Hcase as [[-> _]|(b & q & R2 & -> & -> & _)].
    + rewrite map_app in *. simpl in Hnd. eapply NoDup_remove_1; eauto.
    + rewrite map_app in *. simpl in *.
      change (a :: b :: map fst R2) with ([a] ++ b :: map fst R2) in Hnd.
      rewrite app_assoc in Hnd. apply NoDup_remove_1 in Hnd.
      rewrite <- app_assoc in Hnd. exact Hnd.
  - destruct Hcase as [[-> _]|(b & q & R2 & -> & -> & _)];
      rewrite map_app in *; simpl in *; apply Forall_app in Hval;
      destruct Hval as [HvL HvR]; apply Forall_app; split; auto.
    + inversion HvR; auto.
    + inversion HvR as [|? ? ? HvR']; subst. inversion HvR'; subst.
      constructor; auto.
Qed.

(** In both cases the iterator returned points to the node that now holds
    the pair of the former successor, the first node after the place of the
    erased entry. *)
Lemma erase_iter_successor m (L R : list (Ptr * @value_type Key T)) a p mp :
  Map_ok m -> nodes (root_ m) = L ++ (a, p) :: R ->
  exists it' m' R',
    erase_iter this others m (mkIterator (Some a) mp) = Some (it', m') /\
    Map_ok m' /\ size_ m' = size_ m - 1 /\
    nodes (root_ m') = L ++ R' /\ map snd R' = map snd R /\
    it' = mkIterator (hd_ptr R') this.
Proof.
  intros Hok Hn.
  destruct (erase_iter_node m L R a p mp Hok Hn)
    as (it' & m' & He & Hok' & Hsz & Hm & Hcase).
  destruct it' as [c mp']. simpl in Hm, Hcase. subst mp'.
  destruct Hcase as [[Hn' ->]|(b & q & R2 & -> & Hn' & ->)].
  - exists (mkIterator (hd_ptr R) this), m', R. auto 10.
  - exists (mkIterator (Some a) this), m', ((a, q) :: R2). auto 10.
Qed.

(** ** The overwriting branch of [InsertRecursive]

    Called on a tree that holds the key, [InsertRecursive] stores the new
    pair in the node of that key and leaves every link and height as it
    was; [emplace] never makes that call. *)

Lemma find_loop_subtree t (k : Key) e :
  find_loop t k = e -> e <> nullptr -> subtree e t.
Proof.
  induction t as [|a p l IHl r IHr h]; simpl; [congruence|].
  destruct (CompareKeys (fst p) k =? 0).
  - intros <- _. constructor.
  - destruct (CompareKeys (fst p) k <? 0); intros He Hn;
      auto using subtree.
Qed.

Lemma InsertRecursive_overwrites e t (p : @value_type Key T) a q fl fr fh :
  find_loop t (fst p) = mkEntry a q fl fr fh ->
  avl t -> NoDup (addrs t) -> EntryHeight t < INT32_MAX ->
  InsertRecursive this e t p = Some (mkIterator (Some a) this, set_pair t a p).
Proof.
  induction t as [|b q0 l IHl r IHr h]; [discriminate|].
  intros Hf Havl Hnd Hb. pose proof Havl as Havl0.
  simpl in Havl. destruct Havl as (Hh & Hbal & Hl & Hr).
  pose proof (avl_height_nonneg _ Hl). pose proof (avl_height_nonneg _ Hr).
  simpl in Hb. unfold addrs in Hnd. simpl in Hnd. rewrite map_app in Hnd.
  simpl in Hnd. simpl in Hf. cbn [InsertRecursive set_pair].
  destruct (CompareKeys_dec (fst q0) (fst p))
    as [[Hc Hk]|[(Hc & Hc' & Hk)|(Hc & Hc' & Hc'' & Hk)]].
  - (* the key is on the left *)
    assert (Hz : (CompareKeys (fst q0) (fst p) =? 0) = false).
    { apply Z.eqb_neq. destruct (Z.gtb_spec (CompareKeys (fst q0) (fst p)) 0);
        [lia|discriminate]. }
    rewrite Hz, (lt_gt_excl _ Hc) in Hf. rewrite Hc.
    pose proof (find_loop_subtree _ _ _ Hf) as Hs.
    assert (Hin : In a (addrs l)).
    { apply (in_map fst _ (a, q)). eapply subtree_In; [apply Hs|]; 
        [discriminate|reflexivity]. }
    rewrite (IHl Hf Hl); [|eapply NoDup_app_remove_r; eauto|lia].
    destruct (entry_at l a) eqn:Hat.
    { apply entry_at_nullptr in Hat. contradiction. }
    rewrite RebalanceTreeAfterInsertion_balanced; [reflexivity| |exact Hb].
    simpl. rewrite set_pair_height. auto using set_pair_avl.
  - (* the key is on the right *)
    assert (Hz : (CompareKeys (fst q0) (fst p) =? 0) = false).
    { apply Z.eqb_neq. apply Z.ltb_lt in Hc'. lia. }
    rewrite Hz, Hc' in Hf. rewrite Hc, Hc'.
    pose proof (find_loop_subtree _ _ _ Hf) as Hs.
    assert (Hin : In a (map fst (nodes r))).
    { apply (in_map fst _ (a, q)). eapply subtree_In; [apply Hs|]; 
        [discriminate|reflexivity]. }
    rewrite (IHr Hf Hr); [|apply NoDup_app_remove_l in Hnd; inversion Hnd; auto|lia].
    assert (Hat : entry_at l a = nullptr).
    { apply entry_at_nullptr. intros Hl'.
      apply (NoDup_app_disjoint _ _ a Hnd Hl'). simpl; auto. }
    rewrite Hat. destruct (Z.eqb_spec b a) as [E|_].
    { exfalso. subst b. apply NoDup_remove_2 in Hnd. apply Hnd.
      rewrite in_app_iff; auto. }
    rewrite RebalanceTreeAfterInsertion_balanced; [reflexivity| |exact Hb].
    simpl. rewrite set_pair_height. auto using set_pair_avl.
  - (* the key is here *)
    rewrite Hc'' in Hf. injection Hf as -> -> _ _ _. rewrite Hc, Hc'.
    assert (Hat : entry_at l a = nullptr).
    { apply entry_at_nullptr. unfold addrs. intros Hl'.
      apply NoDup_remove_2 in Hnd. apply Hnd. rewrite in_app_iff; auto. }
    rewrite Hat, Z.eqb_refl. reflexivity.
Qed.

(** ** Iteration *)

Lemma begin_nodes m : begin this m = mkIterator (hd_ptr (nodes (root_ m))) this.
Proof. unfold begin. rewrite GetMinEntry_nodes. reflexivity. Qed.

Lemma incr_nodes m (L R : list (Ptr * @value_type Key T)) a p mp :
  bst (root_ m) -> NoDup (addrs (root_ m)) ->
  nodes (root_ m) = L ++ (a, p) :: R ->
  incr m (mkIterator (Some a) mp) = Some (mkIterator (hd_ptr R) mp).
Proof.
  intros Hbst Hnd Hn. unfold incr. simpl.
  destruct (entry_at_nodes _ _ _ _ _ Hnd Hn) as (l & r & h & -> & Hs).
  destruct (InOrderSuccessor_spec _ _ _ _ _ _ Hbst Hs) as (s & -> & Hspec).
  rewrite (Hspec L R Hn). reflexivity.
Qed.

Lemma traverse_nodes m mp (R : list (Ptr * @value_type Key T)) :
  bst (root_ m) -> NoDup (addrs (root_ m)) ->
  forall L fuel, nodes (root_ m) = L ++ R -> (length R < fuel)%nat ->
  traverse fuel m (mkIterator (hd_ptr R) mp) (end_ this) = Some R.
Proof.
  intros Hbst Hnd. induction R as [|[a p] R IH]; intros L fuel Hn Hfuel.
  - destruct fuel; [simpl in Hfuel; lia|]. reflexivity.
  - destruct fuel as [|fuel]; [simpl in Hfuel; lia|]. simpl in Hfuel.
    simpl. rewrite (deref_nodes m L R a p mp Hnd Hn).
    rewrite (incr_nodes m L R a p mp Hbst Hnd Hn).
    rewrite (IH (L ++ [(a, p)]) fuel); [reflexivity| |lia].
    rewrite <- app_assoc. exact Hn.
Qed.

Lemma range_for_nodes m :
  Map_ok m -> range_for this m = Some (nodes (root_ m)).
Proof.
  intros Hok. unfold range_for. rewrite begin_nodes.
  apply (traverse_nodes m this _ (ok_bst m Hok) (ok_distinct m Hok) []); auto.
Qed.

Lemma skip_until_split pred (ns : list (Ptr * @value_type Key T)) :
  exists L, ns = L ++ skip_until pred ns /\
            Forall (fun n => pred (snd n) = false) L /\
            match skip_until pred ns with
            | [] => True
            | n :: _ => pred (snd n) = true
            end.
Proof.
  induction ns as [|n ns (L & Hn & HL & Hhd)]; simpl.
  - exists []. auto.
  - destruct (pred (snd n)) eqn:Hp.
    + exists []. simpl. auto.
    + exists (n :: L). simpl. rewrite <- Hn. auto.
Qed.

Lemma skip_until_app pred (A B : list (Ptr * @value_type Key T)) :
  skip_until pred (A ++ B) =
  match skip_until pred A with
  | [] => skip_until pred B
  | n :: rest => n :: rest ++ B
  end.
Proof.
  induction A as [|n A IH]; simpl; auto.
  destruct (pred (snd n)); auto.
Qed.

Lemma skip_until_none pred (A : list (Ptr * @value_type Key T)) :
  Forall (fun n => pred (snd n) = false) A -> skip_until pred A = [].
Proof.
  induction 1 as [|n A Hn _ IH]; simpl; auto. rewrite Hn. exact IH.
Qed.

Lemma find_if_nodes m pred (R : list (Ptr * @value_type Key T)) :
  bst (root_ m) -> NoDup (addrs (root_ m)) ->
  forall L fuel, nodes (root_ m) = L ++ R -> (length R < fuel)%nat ->
  find_if fuel m (mkIterator (hd_ptr R) this) (end_ this) pred =
    Some (mkIterator (hd_ptr (skip_until pred R)) this).
Proof.
  intros Hbst Hnd. induction R as [|[a p] R IH]; intros L fuel Hn Hfuel.
  - destruct fuel; [simpl in Hfuel; lia|]. reflexivity.
  - destruct fuel as [|fuel]; [simpl in Hfuel; lia|]. simpl in Hfuel.
    simpl. rewrite (deref_nodes m L R a p this Hnd Hn).
    destruct (pred p); [reflexivity|].
    rewrite (incr_nodes m L R a p this Hbst Hnd Hn).
    apply (IH (L ++ [(a, p)]) fuel); [|lia].
    rewrite <- app_assoc. exact Hn.
Qed.

Lemma lower_bound_descent_loop_spec t (k : Key) :
  bst t -> forall cand,
  ptr_of (lower_bound_descent_loop t k cand) =
  match skip_until (fun v => negb (key_compare (fst v) k)) (nodes t) with
  | [] => ptr_of cand
  | n :: _ => Some (fst n)
  end.
Proof.
  induction t as [|a p l IHl r IHr h]; simpl; auto.
  intros (Hlt & Hgt & Hl & Hr) cand. rewrite Forall_keys in Hlt, Hgt.
  rewrite skip_until_app. simpl.
  destruct (key_compare (fst p) k) eqn:Hc; simpl.
  - rewrite skip_until_none; [apply IHr; auto|].
    eapply Forall_impl; [|exact Hlt]. intros n Hn. simpl in Hn.
    unfold key_lt, node_key in Hn. rewrite (compare_trans _ _ _ Hn Hc).
    reflexivity.
  - rewrite (IHl Hl). simpl.
    destruct (skip_until _ (nodes l)); reflexivity.
Qed.

(** ** [clear] *)

Lemma nodes_nil t : nodes t = [] -> t = nullptr.
Proof.
  destruct t as [|a p l r h]; auto. intros H.
  destruct (nodes_nonnull a p l r h H).
Qed.

Lemma empty_nodes m : empty m = true <-> nodes (root_ m) = [].
Proof.
  unfold empty. split.
  - destruct (root_ m); [reflexivity|discriminate].
  - intros H. rewrite (nodes_nil _ H). reflexivity.
Qed.

Lemma clear_loop_ok (n : nat) :
  forall m fuel, Map_ok m -> length (nodes (root_ m)) = n -> (n < fuel)%nat ->
  clear_loop this others fuel m (begin this m) = Some Map_default.
Proof.
  induction n as [|n IH]; intros m fuel Hok Hlen Hfuel.
  - destruct fuel; [lia|]. apply length_zero_iff_nil in Hlen. simpl.
    rewrite (proj2 (empty_nodes m) Hlen). simpl.
    pose proof (ok_size m Hok) as Hsz. rewrite Hlen in Hsz.
    destruct m as [t sz]. simpl in *. rewrite (nodes_nil _ Hlen), Hsz.
    reflexivity.
  - destruct fuel as [|fuel]; [lia|].
    destruct (nodes (root_ m)) as [|[a p] R] eqn:Hn; [discriminate|].
    assert (He : empty m = false).
    { destruct (empty m) eqn:He; auto. apply empty_nodes in He. congruence. }
    simpl. rewrite He. simpl. rewrite begin_nodes, Hn. simpl hd_ptr.
    destruct (erase_iter_successor m [] R a p this Hok Hn)
      as (it' & m' & R' & -> & Hok' & _ & Hn' & HR' & ->).
    simpl in Hn'. rewrite <- Hn', <- begin_nodes.
    apply IH; auto; [|lia].
    rewrite Hn'. simpl in Hlen. injection Hlen as <-.
    rewrite <- (length_map snd R'), HR', length_map. reflexivity.
Qed.

Lemma clear_ok m : Map_ok m -> clear this others m = Some Map_default.
Proof.
  intros Hok. unfold clear. eapply clear_loop_ok; eauto.
Qed.

Lemma Map_default_ok : Map_ok (@Map_default Key T).
Proof. constructor; simpl; auto; constructor. Qed.

(** ** Writes to the mapped value *)

Lemma update_first_app a q (A B : list (Ptr * @value_type Key T)) :
  update_first a q (A ++ B) =
  if existsb (Z.eqb a) (map fst A) then update_first a q A ++ B
  else A ++ update_first a q B.
Proof.
  induction A as [|n A IH]; simpl; auto.
  rewrite (Z.eqb_sym a (fst n)). destruct (fst n =? a); simpl; auto.
  rewrite IH. destruct (existsb _ _); reflexivity.
Qed.

Lemma existsb_addr a (xs : list Ptr) :
  existsb (Z.eqb a) xs = true <-> In a xs.
Proof.
  rewrite existsb_exists. split.
  - intros (x & Hx & He). apply Z.eqb_eq in He. subst. exact Hx.
  - intros H. exists a. split; auto. apply Z.eqb_refl.
Qed.

Lemma set_pair_update t a (q : @value_type Key T) :
  nodes (set_pair t a q) = update_first a q (nodes t).
Proof.
  induction t as [|b p l IHl r IHr h]; simpl; auto.
  rewrite update_first_app. simpl.
  destruct (entry_at l a) eqn:He.
  - apply entry_at_nullptr in He. unfold addrs in He.
    destruct (existsb (Z.eqb a) (map fst (nodes l))) eqn:Hex.
    { apply existsb_addr in Hex. contradiction. }
    destruct (Z.eqb_spec b a) as [->|_]; simpl; [reflexivity|].
    rewrite IHr. reflexivity.
  - assert (Hin : In a (addrs l)).
    { destruct (in_dec Z.eq_dec a (addrs l)) as [|Hn]; auto.
      apply entry_at_nullptr in Hn. congruence. }
    apply existsb_addr in Hin. unfold addrs in Hin. rewrite Hin.
    simpl. rewrite IHl. reflexivity.
Qed.

Lemma update_first_split a q (L R : list (Ptr * @value_type Key T)) p :
  ~ In a (map fst L) ->
  update_first a q (L ++ (a, p) :: R) = L ++ (a, q) :: R.
Proof.
  intros Hn. rewrite update_first_app.
  destruct (existsb (Z.eqb a) (map fst L)) eqn:Hex.
  { apply existsb_addr in Hex. contradiction. }
  simpl. rewrite Z.eqb_refl. reflexivity.
Qed.

Lemma assign_second_ok m it v m' :
  Map_ok m -> assign_second m it v = Some m' ->
  Map_ok m' /\ size_ m' = size_ m /\
  exists L a k v0 R, curr_ it = Some a /\
    nodes (root_ m) = L ++ (a, (k, v0)) :: R /\
    nodes (root_ m') = L ++ (a, (k, v)) :: R.
Proof.
  intros Hok. unfold assign_second.
  destruct (curr_ it) as [a|]; [|discriminate].
  destruct (entry_at (root_ m) a) as [|a' [k v0] l r h] eqn:He; [discriminate|].
  intros [= <-]. simpl.
  destruct (entry_at_subtree _ _ _ He) as [Hs [= ->]]; [discriminate|].
  destruct (in_split _ _ (subtree_In _ _ _ _ _ _ _ Hs eq_refl)) as (L & R & Hn).
  destruct Hok as [Hbst Havl Hnd Hval Hsize].
  assert (Hn' : nodes (set_pair (root_ m) a (k, v)) = L ++ (a, (k, v)) :: R).
  { rewrite set_pair_update, Hn. apply update_first_split.
    unfold addrs in Hnd. rewrite Hn, map_app in Hnd. simpl in Hnd.
    apply NoDup_remove_2 in Hnd. rewrite in_app_iff in Hnd. tauto. }
  split; [|split; [reflexivity|exists L, a, k, v0, R; auto]].
  unfold addrs in *. constructor; simpl; unfold addrs.
  - apply bst_sorted. rewrite Hn'. apply bst_sorted in Hbst.
    rewrite Hn in Hbst. apply sorted_app_cons in Hbst.
    apply sorted_app_cons. exact Hbst.
  - apply set_pair_avl. exact Havl.
  - rewrite Hn', map_app. rewrite Hn, map_app in Hnd. exact Hnd.
  - rewrite Hn', map_app. rewrite Hn, map_app in Hval. exact Hval.
  - rewrite Hn', Hsize, Hn, !length_app. reflexivity.
Qed.

(** ** Every operation keeps the map well formed *)

Variable T_default : T.

Lemma Map_step_refl es m : Map_ok m -> Map_step es m m.
Proof. intros Hok. split; auto. apply incl_appr, incl_refl. Qed.

Lemma fresh_ptrb_spec t e : fresh_ptrb t e = true -> fresh_ptr t e.
Proof.
  unfold fresh_ptrb, fresh_ptr, valid_ptrb, valid_ptr, addrs.
  rewrite !andb_true_iff, negb_true_iff, Z.ltb_lt, Z.leb_le.
  intros [Hv Hex]. split; [lia|]. intros Hin.
  apply existsb_addr in Hin. congruence.
Qed.

Lemma emplace_step m e (p : @value_type Key T) res m' :
  Map_ok m -> fresh_ptr (root_ m) e ->
  emplace this m e p = Some (res, m') -> Map_step [e] m m'.
Proof.
  intros Hok Hfresh He.
  destruct (find_loop (root_ m) (fst p)) eqn:Hf.
  - destruct (emplace_absent m e p Hok Hfresh Hf)
      as (m1 & L & R & He' & Hok' & Hn & Hn' & _).
    rewrite He in He'. injection He' as _ <-. split; auto.
    unfold addrs. rewrite Hn', Hn, !map_app. simpl.
    intros x. simpl. rewrite !in_app_iff. simpl. tauto.
  - rewrite emplace_present in He by congruence.
    injection He as _ <-. apply Map_step_refl, Hok.
Qed.

Lemma find_points_into m k : Map_ok m -> own_iterator m (find this m k).
Proof.
  intros Hok. unfold own_iterator, find. simpl.
  destruct (find_loop_spec (root_ m) k (ok_bst m Hok))
    as [[-> _]|(a & p & l & r & h & -> & _ & Hs)]; simpl; auto.
  apply (in_map fst _ (a, p)). eapply subtree_In; eauto.
Qed.

Lemma erase_iter_step m it it' m' :
  Map_ok m -> own_iterator m it ->
  erase_iter this others m it = Some (it', m') ->
  Map_step [] m m' /\
  (curr_ it = None /\ m' = m \/
   exists L a p R, curr_ it = Some a /\
     nodes (root_ m) = L ++ (a, p) :: R /\ size_ m' = size_ m - 1).
Proof.
  intros Hok Hown He. destruct it as [[a|] mp].
  - destruct (entry_at (root_ m) a) as [|a' p l r h] eqn:Hat.
    { exfalso. apply entry_at_nullptr in Hat. exact (Hat Hown). }
    destruct (entry_at_subtree _ _ _ Hat) as [Hs [= ->]]; [discriminate|].
    destruct (in_split _ _ (subtree_In _ _ _ _ _ _ _ Hs eq_refl))
      as (L & R & Hn).
    destruct (erase_iter_node m L R a p mp Hok Hn)
      as (it1 & m1 & He1 & Hok1 & Hsz & _ & Hcase).
    rewrite He1 in He. injection He as <- <-.
    split; [|right; exists L, a, p, R; auto].
    split; auto. unfold addrs. rewrite Hn.
    destruct Hcase as [[-> _]|(b & q & R2 & -> & -> & _)];
      rewrite !map_app; simpl; intros x; rewrite !in_app_iff; simpl;
      rewrite ?in_app_iff; tauto.
  - injection He as <- <-. split; auto. apply Map_step_refl, Hok.
Qed.

Lemma erase_step m k n m' :
  Map_ok m -> erase this others m k = Some (n, m') -> Map_step [] m m'.
Proof.
  intros Hok. unfold erase.
  destruct (iterator_eq (find this m k) (end_ this)).
  - intros [= <- <-]. apply Map_step_refl, Hok.
  - destruct (erase_iter this others m (find this m k)) as [[it' m1]|] eqn:He;
      [|discriminate].
    intros [= <- <-].
    apply (erase_iter_step _ _ _ _ Hok (find_points_into m k Hok) He).
Qed.

Lemma apply_op_step m o m' :
  Map_ok m -> own_op m o -> apply_op T_default this others m o = Some m' ->
  Map_step (allocated (Call this o)) m m'.
Proof.
  intros Hok Hown. destruct o as [e p|e p|e k|it v|k|it|]; simpl.
  - destruct (fresh_ptrb (root_ m) e) eqn:Hf; [|discriminate].
    apply fresh_ptrb_spec in Hf.
    destruct (emplace this m e p) as [[res m1]|] eqn:He; [|discriminate].
    intros [= <-]. eapply emplace_step; eauto.
  - destruct (fresh_ptrb (root_ m) e) eqn:Hf; [|discriminate].
    apply fresh_ptrb_spec in Hf. unfold insert.
    destruct (emplace this m e p) as [[res m1]|] eqn:He; [|discriminate].
    intros [= <-]. eapply emplace_step; eauto.
  - destruct (fresh_ptrb (root_ m) e) eqn:Hf; [|discriminate].
    apply fresh_ptrb_spec in Hf. unfold subscript.
    destruct (iterator_eq (find this m k) (end_ this)).
    + destruct (emplace this m e (k, T_default)) as [[[it b] m1]|] eqn:He;
        [|discriminate].
      intros [= <-]. eapply emplace_step; eauto.
    + intros [= <-]. apply Map_step_refl, Hok.
  - intros Ha. destruct (assign_second_ok m it v m' Hok Ha)
      as (Hok' & _ & L & a & k & v0 & R & _ & Hn & Hn').
    split; auto. unfold addrs. rewrite Hn, Hn', !map_app. simpl.
    apply incl_refl.
  - destruct (erase this others m k) as [[n m1]|] eqn:He; [|discriminate].
    intros [= <-]. eapply erase_step; eauto.
  - destruct (erase_iter this others m it) as [[it' m1]|] eqn:He;
      [|discriminate].
    intros [= <-]. apply (erase_iter_step _ _ _ _ Hok Hown He).
  - rewrite (clear_ok m Hok). intros [= <-]. split.
    + apply Map_default_ok.
    + intros x [].
Qed.

Lemma fresh_ptr_fresh_ptrb t e : fresh_ptr t e -> fresh_ptrb t e = true.
Proof.
  unfold fresh_ptrb, fresh_ptr, valid_ptrb, valid_ptr, addrs.
  intros [Hv Hn]. rewrite !andb_true_iff, negb_true_iff, Z.ltb_lt, Z.leb_le.
  split; [lia|]. destruct (existsb _ _) eqn:Hex; auto.
  apply existsb_addr in Hex. contradiction.
Qed.

Lemma emplace_defined m e (p : @value_type Key T) :
  Map_ok m -> fresh_ptr (root_ m) e ->
  exists res m', emplace this m e p = Some (res, m').
Proof.
  intros Hok Hfresh. destruct (find_loop (root_ m) (fst p)) eqn:Hf.
  - destruct (emplace_absent m e p Hok Hfresh Hf) as (m' & _ & _ & -> & _).
    eauto.
  - rewrite emplace_present by congruence. eauto.
Qed.

Lemma erase_iter_defined m it :
  Map_ok m -> own_iterator m it ->
  exists it' m', erase_iter this others m it = Some (it', m').
Proof.
  intros Hok Hin. destruct it as [[a|] mp]; unfold own_iterator in Hin;
    simpl in Hin.
  - unfold addrs in Hin. apply in_map_iff in Hin.
    destruct Hin as ([a' p] & Ha & Hin). simpl in Ha. subst a'.
    destruct (in_split _ _ Hin) as (L & R & Hn).
    destruct (erase_iter_node m L R a p mp Hok Hn) as (it' & m' & -> & _).
    eauto.
  - do 2 eexists. reflexivity.
Qed.

(** An operation whose arguments meet its precondition is defined. *)
Lemma apply_op_defined m o :
  Map_ok m -> op_pre m o -> exists m', apply_op T_default this others m o = Some m'.
Proof.
  intros Hok. destruct o as [e p|e p|e k|it v|k|it|]; simpl.
  - intros Hf. rewrite (fresh_ptr_fresh_ptrb _ _ Hf).
    destruct (emplace_defined m e p Hok Hf) as (res & m' & ->). simpl. eauto.
  - intros Hf. rewrite (fresh_ptr_fresh_ptrb _ _ Hf). unfold insert.
    destruct (emplace_defined m e p Hok Hf) as (res & m' & ->). simpl. eauto.
  - intros Hf. rewrite (fresh_ptr_fresh_ptrb _ _ Hf). unfold subscript.
    destruct (iterator_eq (find this m k) (end_ this)); simpl; eauto.
    destruct (emplace_defined m e (k, T_default) Hok Hf)
      as ([it b] & m' & ->). simpl. eauto.
  - intros (a & Hc & Hin). unfold assign_second. rewrite Hc.
    destruct (entry_at (root_ m) a) eqn:He; eauto.
    apply entry_at_nullptr in He. contradiction.
  - intros _. unfold erase.
    destruct (iterator_eq (find this m k) (end_ this)); simpl; eauto.
    destruct (erase_iter_defined m (find this m k) Hok) as (it' & m' & ->).
    + apply find_points_into, Hok.
    + simpl. eauto.
  - intros Hin. destruct (erase_iter_defined m it Hok Hin) as (it' & m' & ->).
    simpl. eauto.
  - intros _. rewrite (clear_ok m Hok). eauto.
Qed.

(** ** The tree under operations that are passed any iterator

    No operation reads [size_] but to write it back: what an operation does
    to the tree does not depend on it. *)

Lemma Map_ok_Tree_ok m : Map_ok m -> Tree_ok m.
Proof. intros [? ? ? ? ?]. constructor; assumption. Qed.

Lemma Tree_ok_counted m : Tree_ok m -> Map_ok (counted m).
Proof. intros [? ? ? ?]. constructor; simpl; auto. Qed.

Lemma Tree_ok_root m1 m2 : root_ m1 = root_ m2 -> Tree_ok m1 -> Tree_ok m2.
Proof. intros E [? ? ? ?]. constructor; rewrite <- E; assumption. Qed.

Lemma Tree_step_root es m1 m2 m1' m2' :
  root_ m1 = root_ m2 -> root_ m1' = root_ m2' ->
  Map_step es m1 m1' -> Tree_step es m2 m2'.
Proof.
  intros E E' [Hok Hincl]. split.
  - apply (Tree_ok_root m1'); [exact E'|apply Map_ok_Tree_ok, Hok].
  - rewrite <- E, <- E'. exact Hincl.
Qed.

Lemma emplace_same_tree m1 m2 e (p : @value_type Key T) :
  root_ m1 = root_ m2 ->
  same_tree (emplace this m1 e p) (emplace this m2 e p).
Proof.
  intros E. unfold emplace, find. rewrite E.
  destruct (iterator_eq _ _); simpl; [|auto].
  destruct (InsertRecursive _ _ _ _) as [[it t']|]; simpl; auto.
Qed.

Lemma raw_deref_root m1 m2 it :
  root_ m1 = root_ m2 -> raw_deref others m1 it = raw_deref others m2 it.
Proof. intros E. unfold raw_deref. rewrite E. reflexivity. Qed.

Lemma erase_iter_same_tree m1 m2 it :
  root_ m1 = root_ m2 ->
  same_tree (erase_iter this others m1 it) (erase_iter this others m2 it).
Proof.
  intros E. unfold same_tree, erase_iter.
  rewrite (raw_deref_root m1 m2 it E), E.
  destruct (iterator_eq _ _); [auto|].
  destruct (raw_deref others m2 it) as [[k v]|]; [|exact I].
  cbv beta iota.
  destruct (RemoveRecursive this (S (depth (root_ m2))) (root_ m2)
              (root_ m2) k) as [[it' t']|]; [split; reflexivity|exact I].
Qed.

Lemma erase_same_tree m1 m2 k :
  root_ m1 = root_ m2 ->
  same_tree (erase this others m1 k) (erase this others m2 k).
Proof.
  intros E. unfold erase, find. rewrite E.
  destruct (iterator_eq _ _); simpl; [auto|].
  pose proof (erase_iter_same_tree m1 m2
                (mkIterator (ptr_of (find_loop (root_ m2) k)) this) E) as Hs.
  destruct (erase_iter this others m1 _) as [[i1 n1]|];
    destruct (erase_iter this others m2 _) as [[i2 n2]|]; simpl in *; tauto.
Qed.

Lemma clear_loop_same_tree fuel : forall m1 m2 it,
  root_ m1 = root_ m2 ->
  same_tree_map (clear_loop this others fuel m1 it)
                (clear_loop this others fuel m2 it).
Proof.
  induction fuel as [|fuel IH]; intros m1 m2 it E; cbn [clear_loop];
    [exact I|].
  assert (Hem : empty m1 = empty m2) by (unfold empty; rewrite E; reflexivity).
  rewrite Hem. destruct (empty m2); cbn [negb]; cbv iota; [exact E|].
  pose proof (erase_iter_same_tree m1 m2 it E) as Hs.
  destruct (erase_iter this others m1 it) as [[i1 n1]|];
    destruct (erase_iter this others m2 it) as [[i2 n2]|]; simpl in *;
    try tauto.
  destruct Hs as [-> E']. apply IH. exact E'.
Qed.

Lemma clear_same_tree m1 m2 :
  root_ m1 = root_ m2 ->
  same_tree_map (clear this others m1) (clear this others m2).
Proof.
  intros E. unfold clear, begin. rewrite E. apply clear_loop_same_tree, E.
Qed.

Lemma apply_op_same_tree m1 m2 o :
  root_ m1 = root_ m2 ->
  same_tree_map (apply_op T_default this others m1 o)
                (apply_op T_default this others m2 o).
Proof.
  intros E. destruct o as [e p|e p|e k|it v|k|it|]; simpl.
  - rewrite E. destruct (fresh_ptrb _ _); [|exact I].
    pose proof (emplace_same_tree m1 m2 e p E) as Hs.
    destruct (emplace this m1 e p) as [[r1 n1]|];
      destruct (emplace this m2 e p) as [[r2 n2]|]; simpl in *; tauto.
  - rewrite E. destruct (fresh_ptrb _ _); [|exact I]. unfold insert.
    pose proof (emplace_same_tree m1 m2 e p E) as Hs.
    destruct (emplace this m1 e p) as [[r1 n1]|];
      destruct (emplace this m2 e p) as [[r2 n2]|]; simpl in *; tauto.
  - rewrite E. destruct (fresh_ptrb _ _); [|exact I].
    unfold subscript, find. rewrite E.
    destruct (iterator_eq _ _); simpl; [|exact E].
    pose proof (emplace_same_tree m1 m2 e (k, T_default) E) as Hs.
    destruct (emplace this m1 e _) as [[[i1 b1] n1]|];
      destruct (emplace this m2 e _) as [[[i2 b2] n2]|]; simpl in *; tauto.
  - unfold assign_second. rewrite E. destruct (curr_ it); simpl; [|exact I].
    destruct (entry_at _ _); simpl; auto.
  - pose proof (erase_same_tree m1 m2 k E) as Hs.
    destruct (erase this others m1 k) as [[r1 n1]|];
      destruct (erase this others m2 k) as [[r2 n2]|]; simpl in *; tauto.
  - pose proof (erase_iter_same_tree m1 m2 it E) as Hs.
    destruct (erase_iter this others m1 it) as [[r1 n1]|];
      destruct (erase_iter this others m2 it) as [[r2 n2]|]; simpl in *; tauto.
  - apply clear_same_tree, E.
Qed.

(** [CompareKeys] and, with it, the descent of [RemoveRecursive] do not tell
    equivalent keys apart. *)
Lemma CompareKeys_equiv_r (x k k' : Key) :
  key_equiv k k' -> CompareKeys x k = CompareKeys x k'.
Proof.
  intros He. pose proof (key_equiv_sym _ _ He) as He'. unfold CompareKeys.
  assert (H1 : key_compare x k = key_compare x k').
  { destruct (key_compare x k) eqn:E1; destruct (key_compare x k') eqn:E2;
      auto.
    - pose proof (lt_equiv_trans x k k' E1 He) as H. unfold key_lt in H.
      congruence.
    - pose proof (lt_equiv_trans x k' k E2 He') as H. unfold key_lt in H.
      congruence. }
  assert (H2 : key_compare k x = key_compare k' x).
  { destruct (key_compare k x) eqn:E1; destruct (key_compare k' x) eqn:E2;
      auto.
    - pose proof (equiv_lt_trans k' k x He' E1) as H. unfold key_lt in H.
      congruence.
    - pose proof (equiv_lt_trans k k' x He E2) as H. unfold key_lt in H.
      congruence. }
  rewrite H1, H2. reflexivity.
Qed.

Lemma RemoveRecursive_equiv fuel : forall root_ t (k k' : Key),
  key_equiv k k' ->
  RemoveRecursive this fuel root_ t k = RemoveRecursive this fuel root_ t k'.
Proof.
  induction fuel as [|fuel IH]; intros root_ t k k' He; [reflexivity|].
  destruct t as [|a p l r h]; [reflexivity|]. cbn [RemoveRecursive].
  rewrite (CompareKeys_equiv_r (fst p) k k' He).
  rewrite (IH root_ l k k' He), (IH root_ r k k' He). reflexivity.
Qed.

(** [erase(iterator)] with any iterator that can be read keeps the
    invariants of the tree: with a key that the map holds it removes the
    entry of that key, with any other key it leaves the nodes as they
    were. *)
Lemma erase_iter_tree m it it' m' :
  Tree_ok m -> erase_iter this others m it = Some (it', m') ->
  Tree_step [] m m'.
Proof.
  intros Htree. unfold erase_iter.
  destruct (iterator_eq it (end_ this)).
  { intros [= <- <-]. split; [exact Htree|apply incl_refl]. }
  destruct (raw_deref others m it) as [[k v]|]; [|discriminate].
  destruct (RemoveRecursive this _ _ _ k) as [[it0 t']|] eqn:Hrem;
    [|discriminate].
  intros [= <- <-].
  pose proof (Tree_ok_counted m Htree) as Hok.
  pose proof (Map_ok_height _ Hok) as Hh. simpl in Hh.
  destruct (find_loop_spec (root_ m) k (tok_bst _ Htree))
    as [[Hf Hab]|(a & p & l & r & h & Hf & He & Hs)].
  - (* no entry has the key: the nodes stay *)
    pose proof (RemoveRecursive_removed _ _ _ _ _ _ _ (tok_bst _ Htree) Hrem)
      as Hrd.
    destruct Hrd as [(_ & Hn' & _)|(L & a & p & R & Hn0 & He & _)].
    2: { exfalso. rewrite Hn0, Forall_forall in Hab.
         apply (Hab (a, p)); [apply in_elt|exact He]. }
    destruct (RemoveRecursive_avl this (S (depth (root_ m))) (root_ m)
                (root_ m) k) as (it1 & t1 & Hrem1 & Havl1 & _);
      [lia|apply Htree|rewrite INT32_MAX_val; lia|].
    rewrite Hrem in Hrem1. injection Hrem1 as <- <-.
    split; [|unfold addrs; simpl; rewrite Hn'; apply incl_refl].
    constructor; simpl; unfold addrs; rewrite ?Hn'; try apply Htree.
    + apply bst_sorted. rewrite Hn'. apply bst_sorted, Htree.
    + exact Havl1.
  - (* an entry has the key: as [erase] of that key *)
    assert (Her : erase this others (counted m) k =
              Some (1, {| root_ := t';
                          size_ := size_t_wrap (size_ (counted m) - 1) |})).
    { unfold erase, find. change (root_ (counted m)) with (root_ m).
      rewrite Hf. cbn [ptr_of].
      change (iterator_eq (mkIterator (Some a) this) (end_ this)) with false.
      cbv iota. unfold erase_iter.
      change (iterator_eq (mkIterator (Some a) this) (end_ this)) with false.
      cbv iota. unfold raw_deref. cbn [curr_].
      change (root_ (counted m)) with (root_ m).
      rewrite (entry_at_unique _ _ _ _ _ _ (tok_distinct _ Htree) Hs).
      destruct p as [k0 v0]. simpl in He. cbv beta iota.
      rewrite (RemoveRecursive_equiv _ _ _ k0 k He), Hrem. reflexivity. }
    apply (Tree_step_root [] (counted m) m
             {| root_ := t'; size_ := size_t_wrap (size_ (counted m) - 1) |});
      [reflexivity|reflexivity|].
    exact (erase_step (counted m) k 1 _ Hok Her).
Qed.

Lemma apply_op_tree_step m o m' :
  Tree_ok m -> apply_op T_default this others m o = Some m' ->
  Tree_step (allocated (Call this o)) m m'.
Proof.
  intros Htree Hop.
  assert (Hgen : own_op (counted m) o ->
                 Tree_step (allocated (Call this o)) m m').
  { intros Hown.
    pose proof (apply_op_same_tree m (counted m) o eq_refl) as Hs.
    rewrite Hop in Hs.
    destruct (apply_op T_default this others (counted m) o) as [m0|] eqn:E;
      [|contradiction].
    simpl in Hs.
    apply (Tree_step_root _ (counted m) m m0 m');
      [reflexivity|symmetry; exact Hs|].
    exact (apply_op_step _ _ _ (Tree_ok_counted m Htree) Hown E). }
  destruct o as [e p|e p|e k|it v|k|it|]; try (apply Hgen; exact I).
  simpl in Hop.
  destruct (erase_iter this others m it) as [[it' m1]|] eqn:He;
    [|discriminate].
  injection Hop as <-. exact (erase_iter_tree m it it' m1 Htree He).
Qed.

Lemma run_ops_tree ops : forall m m',
  Tree_ok m -> run_ops T_default this others m ops = Some m' -> Tree_ok m'.
Proof.
  induction ops as [|o ops IH]; simpl; intros m m' Hok.
  - intros [= <-]. exact Hok.
  - destruct (apply_op T_default this others m o) as [m1|] eqn:Ho;
      [|discriminate].
    apply IH. apply (apply_op_tree_step _ _ _ Hok Ho).
Qed.

(** [clear] needs no more than the tree: it frees every node, whatever
    [size_] holds. *)
Lemma clear_tree m :
  Tree_ok m -> exists m', clear this others m = Some m' /\ root_ m' = nullptr.
Proof.
  intros Htree. pose proof (clear_same_tree m (counted m) eq_refl) as Hs.
  rewrite (clear_ok (counted m) (Tree_ok_counted m Htree)) in Hs.
  destruct (clear this others m) as [m'|]; [|contradiction].
  exists m'. split; [reflexivity|exact Hs].
Qed.

Lemma tree_invariant_iff t : tree_invariant t <-> bst t /\ avl t.
Proof.
  induction t as [|a p l IHl r IHr h]; simpl; [tauto|].
  rewrite IHl, IHr. unfold key_lt. split.
  - intros (Hlt & Hgt & Hbal & Hh & [Hbl Hal] & [Hbr Har]).
    rewrite <- (avl_tree_height l Hal), <- (avl_tree_height r Har) in *.
    repeat split; auto; lia.
  - intros ((Hlt & Hgt & Hbl & Hbr) & (Hh & Hbal & Hal & Har)).
    rewrite <- (avl_tree_height l Hal), <- (avl_tree_height r Har).
    repeat split; auto; lia.
Qed.

Lemma find_node m (L R : list (Ptr * @value_type Key T)) a p k :
  bst (root_ m) -> nodes (root_ m) = L ++ (a, p) :: R ->
  key_equiv (fst p) k -> find this m k = mkIterator (Some a) this.
Proof.
  intros Hbst Hn He. pose proof (proj1 (bst_sorted _) Hbst) as Hs.
  destruct (find_spec m k Hbst)
    as [[_ Hab]|(L' & a' & p' & R' & Hn' & He' & ->)].
  - exfalso. rewrite Hn, Forall_forall in Hab.
    apply (Hab (a, p)); [apply in_elt|exact He].
  - rewrite Hn in Hs, Hn'.
    destruct (sorted_split_unique _ _ _ _ _ _ Hs Hn') as (_ & [= <- _] & _);
      [|reflexivity].
    apply compare_equiv_trans with k; [exact He|].
    apply key_equiv_sym. exact He'.
Qed.

Lemma find_absent m k :
  Forall (fun n => ~ key_equiv (node_key n) k) (nodes (root_ m)) ->
  bst (root_ m) -> find this m k = end_ this.
Proof.
  intros Hab Hbst.
  destruct (find_spec m k Hbst)
    as [[-> _]|(L' & a' & p' & R' & Hn' & He' & _)]; auto.
  exfalso. rewrite Hn', Forall_forall in Hab.
  apply (Hab (a', p')); [apply in_elt|exact He'].
Qed.

(** ** The claims about one map *)

(** C1. After any sequence of insertions ([emplace], [insert],
    [operator[]]) and erasures (by key or by iterator; writes to mapped
    values and [clear] are allowed as well) run on the empty map, at every
    node the keys on the left compare less than the key of the node and
    those on the right greater, the heights of the two subtrees differ by at
    most one, and the cached height is one more than the larger of them. *)
Theorem C1_invariants_after_insert_erase (ops : list (@Op Key T)) m :
  run_ops T_default this others Map_default ops = Some m ->
  tree_invariant (root_ m).
Proof.
  intros Hrun. apply tree_invariant_iff.
  pose proof (run_ops_tree ops _ _ (Map_ok_Tree_ok _ Map_default_ok) Hrun)
    as Hok.
  split; apply Hok.
Qed.

(** C2. Inserting a key that is already present returns the iterator of the
    existing entry and [false], leaves the value stored for the key as it
    was, and leaves the size unchanged. *)
Theorem C2_insert_existing_key_wins m (L R : list (Ptr * @value_type Key T))
  a k0 v e k v' :
  Map_ok m -> nodes (root_ m) = L ++ (a, (k0, v)) :: R -> key_equiv k0 k ->
  exists it m',
    emplace this m e (k, v') = Some ((it, false), m') /\
    insert this m e (k, v') = Some ((it, false), m') /\
    it = mkIterator (Some a) this /\
    deref m' it = Some (k0, v) /\
    deref m' (find this m' k) = Some (k0, v) /\
    size m' = size m.
Proof.
  intros Hok Hn He.
  pose proof (find_node m L R a (k0, v) k (ok_bst m Hok) Hn He) as Hf.
  assert (Hne : find_loop (root_ m) (fst (k, v')) <> nullptr).
  { intros Hnull. apply find_end in Hnull. simpl in Hnull.
    rewrite Hf in Hnull. discriminate. }
  exists (mkIterator (Some a) this), m. unfold insert.
  rewrite (emplace_present m e (k, v') Hne). simpl fst. rewrite Hf.
  rewrite (deref_nodes m L R a (k0, v) this (ok_distinct m Hok) Hn). auto 10.
Qed.

(** C3, as amended.  Inserting a key that is already present overwrites
    nothing: the map that results is the map as it was, value stored for the
    key, nodes and their linkage included. *)
Theorem C3_insert_existing_key_changes_nothing m
  (L R : list (Ptr * @value_type Key T)) a k0 v e k v' res m' :
  Map_ok m -> nodes (root_ m) = L ++ (a, (k0, v)) :: R -> key_equiv k0 k ->
  emplace this m e (k, v') = Some (res, m') ->
  m' = m /\ deref m' (find this m' k) = Some (k0, v).
Proof.
  intros Hok Hn He Hem.
  pose proof (find_node m L R a (k0, v) k (ok_bst m Hok) Hn He) as Hf.
  assert (Hne : find_loop (root_ m) (fst (k, v')) <> nullptr).
  { intros Hnull. apply find_end in Hnull. simpl in Hnull.
    rewrite Hf in Hnull. discriminate. }
  rewrite (emplace_present m e (k, v') Hne) in Hem. injection Hem as _ <-.
  split; [reflexivity|]. rewrite Hf.
  apply (deref_nodes m L R a (k0, v) this (ok_distinct m Hok) Hn).
Qed.

(** C4. [erase(k)] returns 1 and takes one off the size when [k] is present;
    it returns 0 and leaves the map as it was when [k] is absent, however
    often it is repeated. *)
Theorem C4_erase_by_key m k :
  Map_ok m ->
  (forall L a k0 v R,
     nodes (root_ m) = L ++ (a, (k0, v)) :: R -> key_equiv k0 k ->
     exists m', erase this others m k = Some (1, m') /\ size m' = size m - 1 /\
                pairs (root_ m') = map snd L ++ map snd R) /\
  (Forall (fun n => ~ key_equiv (node_key n) k) (nodes (root_ m)) ->
   erase this others m k = Some (0, m) /\
   (forall n1 m1 n2 m2,
      erase this others m k = Some (n1, m1) -> erase this others m1 k = Some (n2, m2) ->
      n1 = 0 /\ n2 = 0 /\ m2 = m /\ size m2 = size m)).
Proof.
  intros Hok. split.
  - intros L a k0 v R Hn He.
    pose proof (find_node m L R a (k0, v) k (ok_bst m Hok) Hn He) as Hf.
    destruct (erase_iter_successor m L R a (k0, v) this Hok Hn)
      as (it' & m' & R' & Her & _ & Hsz & Hn' & HR' & _).
    exists m'. unfold erase. rewrite Hf. simpl iterator_eq. cbv iota.
    rewrite Her. unfold pairs. rewrite Hn', map_app, HR'. auto.
  - intros Hab.
    pose proof (find_absent m k Hab (ok_bst m Hok)) as Hf.
    assert (He : erase this others m k = Some (0, m)).
    { unfold erase. rewrite Hf. reflexivity. }
    split; [exact He|]. intros n1 m1 n2 m2 H1 H2.
    rewrite He in H1. injection H1 as <- <-.
    rewrite He in H2. injection H2 as <- <-. auto.
Qed.

(** C5. [erase(it)] at an entry removes that entry and returns an iterator
    at the entry that followed it in key order, the end iterator when it was
    the last; [erase(end())] removes nothing and returns the end
    iterator. *)
Theorem C5_erase_by_iterator m :
  Map_ok m ->
  (forall L a k v R mp,
     nodes (root_ m) = L ++ (a, (k, v)) :: R ->
     exists it' m',
       erase_iter this others m (mkIterator (Some a) mp) = Some (it', m') /\
       pairs (root_ m') = map snd L ++ map snd R /\
       match R with
       | [] => it' = end_ this
       | (_, successor) :: _ => deref m' it' = Some successor
       end) /\
  erase_iter this others m (end_ this) = Some (end_ this, m).
Proof.
  intros Hok. split; [|reflexivity].
  intros L a k v R mp Hn.
  destruct (erase_iter_successor m L R a (k, v) mp Hok Hn)
    as (it' & m' & R' & Her & Hok' & _ & Hn' & HR' & ->).
  exists (mkIterator (hd_ptr R') this), m'.
  split; [exact Her|]. unfold pairs. rewrite Hn', map_app, HR'.
  split; [reflexivity|].
  destruct R as [|[b s] R]; destruct R' as [|[b' s'] R']; try discriminate.
  - reflexivity.
  - simpl in HR'. injection HR' as -> _.
    apply (deref_nodes m' L R' b' s this (ok_distinct m' Hok') Hn').
Qed.

(** C6. Iterating from [begin()] to [end()] by the in-order successor stands
    on every node of the tree exactly once, in strictly increasing order of
    the keys; it stops by reaching [end()], whatever the fuel beyond the
    number of entries. *)
Theorem C6_iteration_in_key_order m :
  Map_ok m ->
  exists visited,
    (forall fuel, (length (nodes (root_ m)) < fuel)%nat ->
       traverse fuel m (begin this m) (end_ this) = Some visited) /\
    range_for this m = Some visited /\
    (forall a p, In (a, p) visited <->
                 exists l r h, subtree (mkEntry a p l r h) (root_ m)) /\
    NoDup (map fst visited) /\
    StronglySorted
      (fun n1 n2 => key_compare (node_key n1) (node_key n2) = true) visited.
Proof.
  intros Hok. exists (nodes (root_ m)).
  destruct Hok as [Hbst Havl Hnd Hval Hsize].
  split; [|split; [|split; [|split]]].
  - intros fuel Hfuel. rewrite begin_nodes.
    apply (traverse_nodes m this _ Hbst Hnd []); auto.
  - unfold range_for. rewrite begin_nodes.
    apply (traverse_nodes m this _ Hbst Hnd []); auto.
  - intros a p. split; [apply nodes_subtree|].
    intros (l & r & h & Hs). eapply subtree_In; eauto.
  - exact Hnd.
  - apply bst_sorted in Hbst. exact Hbst.
Qed.

(** C9. [lower_bound(k)], a scan of the in-order iteration, returns the
    first entry in iteration order whose key is not less than [k], the end
    iterator when there is none; the descent from the root of the reference
    definition returns the same iterator. *)
Theorem C9_lower_bound_scan_refines_descent m k :
  Map_ok m ->
  exists L R,
    nodes (root_ m) = L ++ R /\
    Forall (fun n => key_compare (node_key n) k = true) L /\
    match R with
    | [] => True
    | n :: _ => key_compare (node_key n) k = false
    end /\
    lower_bound this m k = Some (mkIterator (hd_ptr R) this) /\
    lower_bound_descent this m k = mkIterator (hd_ptr R) this.
Proof.
  intros Hok. destruct Hok as [Hbst Havl Hnd Hval Hsize].
  set (pred := fun v : @value_type Key T => negb (key_compare (fst v) k)).
  destruct (skip_until_split pred (nodes (root_ m))) as (L & Hn & HL & Hhd).
  exists L, (skip_until pred (nodes (root_ m))).
  split; [exact Hn|]. split; [|split; [|split]].
  - eapply Forall_impl; [|exact HL]. intros n Hp. unfold pred in Hp.
    apply negb_false_iff in Hp. exact Hp.
  - destruct (skip_until pred _) as [|n ?]; auto.
    unfold pred in Hhd. apply negb_true_iff in Hhd. exact Hhd.
  - unfold lower_bound. rewrite begin_nodes.
    apply (find_if_nodes m pred _ Hbst Hnd []); auto.
  - unfold lower_bound_descent.
    rewrite (lower_bound_descent_loop_spec _ k Hbst nullptr).
    fold pred. destruct (skip_until pred _); reflexivity.
Qed.

(** ** Lookup, insertion and erasure as a user of the map sees them *)

Lemma deref_In m a q mp :
  NoDup (addrs (root_ m)) -> In (a, q) (nodes (root_ m)) ->
  deref m (mkIterator (Some a) mp) = Some q.
Proof.
  intros Hnd Hin. destruct (in_split _ _ Hin) as (L & R & Hn).
  exact (deref_nodes m L R a q mp Hnd Hn).
Qed.

Lemma deref_inv m it q :
  deref m it = Some q ->
  exists a, curr_ it = Some a /\ In (a, q) (nodes (root_ m)).
Proof.
  unfold deref. destruct (curr_ it) as [a|]; [|discriminate].
  destruct (entry_at (root_ m) a) as [|b p l r h] eqn:He; [discriminate|].
  intros [= ->]. exists a. split; auto.
  destruct (entry_at_subtree _ _ _ He) as [Hs Hp]; [discriminate|].
  simpl in Hp. injection Hp as ->.
  eapply subtree_In; eauto.
Qed.

Lemma lookup_skip k (A B : list (@value_type Key T)) :
  Forall (fun p => ~ key_equiv (fst p) k) A -> lookup k (A ++ B) = lookup k B.
Proof.
  unfold lookup. induction 1 as [|x A Hx _ IH]; simpl; auto.
  rewrite CompareKeys_eq.
  destruct (key_compare (fst x) k) eqn:E1; simpl; auto.
  destruct (key_compare k (fst x)) eqn:E2; simpl; auto.
  exfalso. apply Hx. split; auto.
Qed.

Lemma lookup_hit k p (B : list (@value_type Key T)) :
  key_equiv (fst p) k -> lookup k (p :: B) = Some p.
Proof.
  intros [E1 E2]. unfold lookup. simpl. rewrite CompareKeys_eq, E1, E2.
  reflexivity.
Qed.

Lemma lookup_none k (A : list (@value_type Key T)) :
  Forall (fun p => ~ key_equiv (fst p) k) A -> lookup k A = None.
Proof.
  intros H. rewrite <- (app_nil_r A). rewrite lookup_skip; auto.
Qed.

Lemma lookup_drop k p (A B : list (@value_type Key T)) :
  ~ key_equiv (fst p) k -> lookup k (A ++ p :: B) = lookup k (A ++ B).
Proof.
  intros Hp. unfold lookup. induction A as [|x A IH]; simpl.
  - rewrite CompareKeys_eq.
    destruct (key_compare (fst p) k) eqn:E1; simpl; auto.
    destruct (key_compare k (fst p)) eqn:E2; simpl; auto.
    exfalso. apply Hp. split; auto.
  - destruct (CompareKeys (fst x) k =? 0); auto.
Qed.

Lemma lookup_some k (A : list (@value_type Key T)) q :
  lookup k A = Some q -> In q A /\ key_equiv (fst q) k.
Proof.
  unfold lookup. intros H. apply find_some in H. destruct H as [Hin Hc].
  split; auto. rewrite CompareKeys_eq in Hc.
  apply andb_true_iff in Hc. destruct Hc as [H1 H2].
  apply negb_true_iff in H1, H2. split; auto.
Qed.

Lemma absent_pairs k (ns : list (Ptr * @value_type Key T)) :
  Forall (fun n => ~ key_equiv (node_key n) k) ns <->
  Forall (fun p => ~ key_equiv (fst p) k) (map snd ns).
Proof. rewrite Forall_map. reflexivity. Qed.

(** [find] is the lookup in the in-order sequence of the pairs. *)
Lemma find_lookup m k :
  Map_ok m -> deref m (find this m k) = lookup k (pairs (root_ m)).
Proof.
  intros Hok. destruct Hok as [Hbst _ Hnd _ _].
  destruct (find_spec m k Hbst)
    as [[-> Hab]|(L & a & p & R & Hn & He & ->)].
  - unfold pairs. rewrite lookup_none; [reflexivity|].
    apply absent_pairs. exact Hab.
  - rewrite (deref_nodes m L R a p this Hnd Hn). unfold pairs.
    rewrite Hn, map_app. simpl.
    rewrite lookup_skip; [rewrite lookup_hit; auto|].
    apply absent_pairs. apply bst_sorted in Hbst. rewrite Hn in Hbst.
    apply sorted_app_cons in Hbst. destruct Hbst as (_ & _ & HL & _).
    eapply Forall_impl; [|exact HL]. intros n Hlt.
    apply lt_not_equiv. eapply lt_equiv_trans; [exact Hlt|exact He].
Qed.

Lemma find_end_loop m k : find this m k = end_ this -> find_loop (root_ m) k = nullptr.
Proof.
  intros H. apply find_end. rewrite H. reflexivity.
Qed.

Lemma sorted_others_not_equiv (L R : list (Ptr * @value_type Key T)) a p k :
  sorted (L ++ (a, p) :: R) -> key_equiv (fst p) k ->
  Forall (fun q => ~ key_equiv (fst q) k) (map snd L ++ map snd R).
Proof.
  intros Hs He. apply sorted_app_cons in Hs.
  destruct Hs as (_ & _ & HL & HR).
  apply Forall_app. split; apply absent_pairs.
  - eapply Forall_impl; [|exact HL]. intros n Hlt.
    apply lt_not_equiv. eapply lt_equiv_trans; [exact Hlt|exact He].
  - eapply Forall_impl; [|exact HR]. intros n Hlt.
    apply gt_not_equiv. eapply equiv_lt_trans; [|exact Hlt].
    apply key_equiv_sym. exact He.
Qed.

(** X1. [find(k)] points to the pair that a lookup of [k] in the in-order
    sequence of the pairs returns, which is the only stored pair whose key
    is equivalent to [k]; it is the end iterator exactly when no stored key
    is equivalent to [k]. *)
Theorem X1_find_is_lookup m k :
  Map_ok m ->
  deref m (find this m k) = lookup k (pairs (root_ m)) /\
  (iterator_eq (find this m k) (end_ this) = true <->
   Forall (fun p => ~ key_equiv (fst p) k) (pairs (root_ m))) /\
  (forall p, In p (pairs (root_ m)) -> key_equiv (fst p) k ->
             deref m (find this m k) = Some p).
Proof.
  intros Hok. split; [apply find_lookup; exact Hok|].
  destruct Hok as [Hbst _ Hnd _ _]. split.
  - split.
    + intros He. apply find_end in He. apply absent_pairs.
      destruct (find_loop_spec (root_ m) k Hbst)
        as [[_ Hab]|(a & p & l & r & h & Hf & _)]; [exact Hab|congruence].
    + intros Hab. rewrite (find_absent m k); [reflexivity| |exact Hbst].
      apply absent_pairs. exact Hab.
  - intros p Hin He. unfold pairs in Hin. apply in_map_iff in Hin.
    destruct Hin as ([a p'] & Hp & Hin). simpl in Hp. subst p'.
    destruct (in_split _ _ Hin) as (L & R & Hn).
    rewrite (find_node m L R a p k Hbst Hn He).
    exact (deref_nodes m L R a p this Hnd Hn).
Qed.

(** X2. Inserting a key that [find] does not find, into a node at a fresh
    address: [emplace] returns the iterator of the new node and [true], the
    size grows by one, and [find] of the key then returns that iterator,
    which dereferences to the pair inserted. *)
Theorem X2_emplace_then_find m e k v :
  Map_ok m -> fresh_ptr (root_ m) e -> find this m k = end_ this ->
  exists m',
    emplace this m e (k, v) = Some ((mkIterator (Some e) this, true), m') /\
    Map_ok m' /\ size m' = size m + 1 /\
    find this m' k = mkIterator (Some e) this /\
    deref m' (find this m' k) = Some (k, v).
Proof.
  intros Hok Hfresh Hf. apply find_end_loop in Hf.
  destruct (emplace_absent m e (k, v) Hok Hfresh Hf)
    as (m' & L & R & He & Hok' & Hn & Hn' & Hsz).
  exists m'. split; [exact He|]. split; [exact Hok'|].
  split; [exact Hsz|].
  assert (Hfind : find this m' k = mkIterator (Some e) this).
  { apply (find_node m' L R e (k, v) k); [apply Hok'|exact Hn'|].
    apply key_equiv_refl. }
  split; [exact Hfind|]. rewrite Hfind.
  apply (deref_nodes m' L R e (k, v) this); [apply Hok'|exact Hn'].
Qed.

(** X3. An insertion moves no entry: every iterator that pointed to an
    entry points to the same pair after [emplace], whether it inserted or
    not, and [find] returns for every key the pair it returned before. *)
Theorem X3_emplace_keeps_entries m e p :
  Map_ok m -> fresh_ptr (root_ m) e ->
  exists res m',
    emplace this m e p = Some (res, m') /\
    (forall it q, deref m it = Some q -> deref m' it = Some q) /\
    (forall k q, deref m (find this m k) = Some q ->
                 deref m' (find this m' k) = Some q).
Proof.
  intros Hok Hfresh.
  destruct (find_loop (root_ m) (fst p)) as [|a0 q0 l0 r0 h0] eqn:Hf.
  - destruct (emplace_absent m e p Hok Hfresh Hf)
      as (m' & L & R & He & Hok' & Hn & Hn' & Hsz).
    exists (mkIterator (Some e) this, true), m'.
    split; [exact He|]. split.
    + intros it q Hd. destruct (deref_inv m it q Hd) as (a & Hc & Hin).
      destruct it as [c mp]. simpl in Hc. subst c.
      apply deref_In; [apply Hok'|]. rewrite Hn'. rewrite Hn in Hin.
      apply in_app_or in Hin. apply in_or_app. simpl. tauto.
    + intros k q. rewrite !find_lookup by assumption.
      unfold pairs. rewrite Hn, Hn', !map_app. simpl. intros Hl.
      rewrite lookup_drop; [exact Hl|].
      intros Hpk. apply lookup_some in Hl. destruct Hl as [Hin Hq].
      rewrite <- map_app, <- Hn in Hin. apply in_map_iff in Hin.
      destruct Hin as (n & Hsnd & Hin).
      destruct (find_loop_spec (root_ m) (fst p) (ok_bst _ Hok))
        as [[_ Hab]|(a & p' & l & r & h & Hf' & _)]; [|congruence].
      rewrite Forall_forall in Hab. apply (Hab n Hin).
      unfold node_key. rewrite Hsnd.
      apply compare_equiv_trans with k; [exact Hq|].
      apply key_equiv_sym. exact Hpk.
  - exists (find this m (fst p), false), m.
    split; [apply emplace_present; congruence|]. auto.
Qed.

(** X4. [operator[]] on a key that is present returns the existing entry
    and leaves the map as it was; on a key that is absent it inserts the key
    with a value-initialised mapped value into the new node, the size grows
    by one, and the entry returned is the new one.  In both cases [find] of
    the key afterwards returns the entry that [operator[]] returned. *)
Theorem X4_subscript_finds_or_inserts_default m e k :
  Map_ok m -> fresh_ptr (root_ m) e ->
  exists it m',
    subscript T_default this m e k = Some (it, m') /\
    Map_ok m' /\ find this m' k = it /\
    match lookup k (pairs (root_ m)) with
    | Some p => m' = m /\ deref m' it = Some p
    | None =>
        it = mkIterator (Some e) this /\ size m' = size m + 1 /\
        deref m' it = Some (k, T_default)
    end.
Proof.
  intros Hok Hfresh. pose proof (find_lookup m k Hok) as Hl.
  unfold subscript.
  destruct (find_spec m k (ok_bst _ Hok))
    as [[Hf Hab]|(L & a & p & R & Hn & He & Hf)].
  - rewrite Hf in *. simpl in Hl. rewrite <- Hl.
    assert (Hfl : find_loop (root_ m) k = nullptr).
    { apply find_end_loop. exact Hf. }
    destruct (emplace_absent m e (k, T_default) Hok Hfresh Hfl)
      as (m' & L & R & Hem & Hok' & Hn & Hn' & Hsz).
    change (iterator_eq (end_ this) (end_ this)) with true. cbv iota.
    rewrite Hem. exists (mkIterator (Some e) this), m'.
    split; [reflexivity|]. split; [exact Hok'|].
    split; [|split; [reflexivity|split; [exact Hsz|]]].
    + apply (find_node m' L R e (k, T_default) k);
        [apply Hok'|exact Hn'|apply key_equiv_refl].
    + apply (deref_nodes m' L R e (k, T_default) this);
        [apply Hok'|exact Hn'].
  - rewrite Hf in *.
    rewrite (deref_nodes m L R a p this (ok_distinct _ Hok) Hn) in Hl.
    rewrite <- Hl.
    change (iterator_eq (mkIterator (Some a) this) (end_ this)) with false.
    cbv iota. exists (mkIterator (Some a) this), m.
    split; [reflexivity|]. split; [exact Hok|]. split; [exact Hf|].
    split; [reflexivity|].
    exact (deref_nodes m L R a p this (ok_distinct _ Hok) Hn).
Qed.

(** X5. After [erase(k)], [find(k)] returns the end iterator, and [find] of
    every key that is not equivalent to [k] returns the pair it returned
    before; the map stays well formed.  *)
Theorem X5_erase_then_find m k :
  Map_ok m ->
  exists n m',
    erase this others m k = Some (n, m') /\ Map_ok m' /\
    find this m' k = end_ this /\
    (forall k', ~ key_equiv k' k ->
                deref m' (find this m' k') = deref m (find this m k')).
Proof.
  intros Hok. unfold erase.
  destruct (find_spec m k (ok_bst _ Hok))
    as [[Hf Hab]|(L & a & p & R & Hn & He & Hf)].
  - rewrite Hf.
    change (iterator_eq (end_ this) (end_ this)) with true. cbv iota.
    exists 0, m. auto.
  - rewrite Hf.
    change (iterator_eq (mkIterator (Some a) this) (end_ this)) with false.
    cbv iota.
    destruct (erase_iter_successor m L R a p this Hok Hn)
      as (it' & m' & R' & Her & Hok' & Hsz & Hn' & HR & _).
    rewrite Her. exists 1, m'. split; [reflexivity|]. split; [exact Hok'|].
    pose proof (proj1 (bst_sorted _) (ok_bst _ Hok)) as Hs. rewrite Hn in Hs.
    split.
    + apply find_absent; [|apply Hok']. apply absent_pairs.
      rewrite Hn', map_app, HR.
      exact (sorted_others_not_equiv L R a p k Hs He).
    + intros k' Hk'. rewrite !find_lookup by assumption.
      unfold pairs. rewrite Hn, Hn', !map_app. simpl. rewrite HR.
      symmetry. apply lookup_drop. intros Hp. apply Hk'.
      apply compare_equiv_trans with (fst p); [|exact He].
      apply key_equiv_sym. exact Hp.
Qed.

(** X6. [erase(it)] at an entry invalidates at most two iterators, the one
    at the erased entry and the one at the entry that followed it in key
    order: an iterator at any other entry points to the same pair
    afterwards. *)
Theorem X6_erase_iterator_keeps_other_nodes m
  (L R : list (Ptr * @value_type Key T)) a p mp :
  Map_ok m -> nodes (root_ m) = L ++ (a, p) :: R ->
  exists it' m',
    erase_iter this others m (mkIterator (Some a) mp) = Some (it', m') /\
    (forall c q mp', In (c, q) (L ++ tl R) ->
                     deref m' (mkIterator (Some c) mp') = Some q).
Proof.
  intros Hok Hn.
  destruct (erase_iter_node m L R a p mp Hok Hn)
    as (it' & m' & He & Hok' & _ & _ & Hcase).
  exists it', m'. split; [exact He|]. intros c q mp' Hin.
  apply deref_In; [apply Hok'|]. apply in_app_or in Hin.
  destruct Hcase as [[Hn' _]|(b & q0 & R2 & HR & Hn' & _)];
    rewrite Hn'; apply in_or_app.
  - destruct Hin as [Hin|Hin]; [tauto|]. right.
    destruct R; simpl in Hin; [contradiction|right; exact Hin].
  - subst R. simpl in Hin. simpl. tauto.
Qed.

(** X7. [clear()], and with it the destructor, is defined on every
    well-formed map, whatever its size: it erases every entry and leaves the
    empty map, with size 0 and [begin() == end()]. *)
Theorem X7_clear_leaves_empty_map m :
  Map_ok m ->
  exists m',
    clear this others m = Some m' /\ Map_ok m' /\ nodes (root_ m') = [] /\
    empty m' = true /\ size m' = 0 /\
    iterator_eq (begin this m') (end_ this) = true.
Proof.
  intros Hok. exists Map_default. split; [apply clear_ok; exact Hok|].
  split; [apply Map_default_ok|]. repeat split.
Qed.

(** ** Iterators, the comparison and the rotations *)

(** X10. [++it] at an entry moves to the entry with the least key greater
    than the key of [it], and to the end iterator when [it] is at the
    greatest key; the iterator stays with its map.  On the end iterator
    [++it] dereferences a null pointer. *)
Theorem X10_increment_next_greater m :
  Map_ok m ->
  (forall it p, deref m it = Some p ->
     exists it', incr m it = Some it' /\ map_ it' = map_ it /\
       match deref m it' with
       | Some q =>
           key_lt (fst p) (fst q) /\
           forall q', In q' (pairs (root_ m)) -> key_lt (fst p) (fst q') ->
                      q' = q \/ key_lt (fst q) (fst q')
       | None =>
           curr_ it' = None /\
           forall q', In q' (pairs (root_ m)) -> ~ key_lt (fst p) (fst q')
       end) /\
  incr m (end_ this) = None.
Proof.
  intros Hok. split; [|reflexivity]. intros it p Hd.
  destruct (deref_inv m it p Hd) as (a & Hc & Hin).
  destruct it as [c mp]. simpl in Hc. subst c.
  destruct (in_split _ _ Hin) as (L & R & Hn).
  exists (mkIterator (hd_ptr R) mp).
  split; [exact (incr_nodes m L R a p mp (ok_bst _ Hok) (ok_distinct _ Hok) Hn)|].
  split; [reflexivity|].
  pose proof (proj1 (bst_sorted _) (ok_bst _ Hok)) as Hs. rewrite Hn in Hs.
  apply sorted_app_cons in Hs. destruct Hs as (_ & HsR & HL & HR).
  assert (Hbelow : forall q', In q' (map snd L) -> ~ key_lt (fst p) (fst q')).
  { intros q' Hq' Hlt. apply in_map_iff in Hq'.
    destruct Hq' as (n & <- & Hn'). rewrite Forall_forall in HL.
    pose proof (HL n Hn') as Hnp. unfold node_lt, node_key, key_lt in *.
    simpl in Hnp. rewrite (compare_asym _ _ Hlt) in Hnp. discriminate. }
  unfold pairs. rewrite Hn, map_app. simpl.
  destruct R as [|[b q] R2]; simpl.
  - split; [reflexivity|]. intros q' Hq'. apply in_app_or in Hq'.
    destruct Hq' as [Hq'|[<-|[]]]; [auto|].
    unfold key_lt. rewrite compare_irrefl. discriminate.
  - rewrite (deref_In m b q mp (ok_distinct _ Hok)).
    2: { rewrite Hn. apply in_or_app. simpl. auto. }
    inversion HR as [|? ? Hpq HR2]; subst. split; [exact Hpq|].
    intros q' Hq' Hlt. apply in_app_or in Hq'.
    destruct Hq' as [Hq'|[<-|[<-|Hq']]].
    + exfalso. exact (Hbelow q' Hq' Hlt).
    + exfalso. unfold key_lt in Hlt. rewrite compare_irrefl in Hlt.
      discriminate.
    + auto.
    + right. apply sorted_cons in HsR. destruct HsR as [_ Hq].
      apply in_map_iff in Hq'. destruct Hq' as (n & <- & Hn').
      rewrite Forall_forall in Hq. exact (Hq n Hn').
Qed.

(** X11. [begin()] is the end iterator exactly when the map is empty;
    otherwise it points to the entry with the least key. *)
Theorem X11_begin_is_least m :
  Map_ok m ->
  (iterator_eq (begin this m) (end_ this) = true <-> empty m = true) /\
  (empty m = false -> exists p, deref m (begin this m) = Some p) /\
  (forall p, deref m (begin this m) = Some p ->
     forall q, In q (pairs (root_ m)) -> q = p \/ key_lt (fst p) (fst q)).
Proof.
  intros Hok. rewrite begin_nodes, empty_nodes.
  pose proof (proj1 (bst_sorted _) (ok_bst _ Hok)) as Hs.
  pose proof (ok_distinct _ Hok) as Hnd. unfold pairs.
  destruct (nodes (root_ m)) as [|[a p] R] eqn:Hn; simpl.
  - split; [split; reflexivity|]. split; [|discriminate].
    intros He. pose proof (proj2 (empty_nodes m) Hn). congruence.
  - assert (Hd : deref m (mkIterator (Some a) this) = Some p).
    { exact (deref_nodes m [] R a p this Hnd Hn). }
    split; [split; discriminate|]. split; [eauto|].
    intros p0 Hp0 q Hq. rewrite Hd in Hp0. injection Hp0 as <-.
    destruct Hq as [<-|Hq]; [auto|]. right.
    apply sorted_cons in Hs. destruct Hs as [_ Hlt].
    apply in_map_iff in Hq. destruct Hq as (n & <- & Hn').
    rewrite Forall_forall in Hlt. exact (Hlt n Hn').
Qed.

(** X12. Under a strict weak ordering [CompareKeys] is a three-way
    comparison: it returns -1, 0 or 1; swapping its arguments negates the
    result; it returns 0 exactly on equivalent keys, -1 exactly when the
    first key is less than the second and 1 exactly when the second is less
    than the first. *)
Theorem X12_CompareKeys_three_way (a b : Key) :
  (CompareKeys a b = -1 \/ CompareKeys a b = 0 \/ CompareKeys a b = 1) /\
  CompareKeys b a = - CompareKeys a b /\
  (CompareKeys a b = 0 <-> key_equiv a b) /\
  (CompareKeys a b = -1 <-> key_compare a b = true) /\
  (CompareKeys a b = 1 <-> key_compare b a = true).
Proof.
  unfold CompareKeys, key_equiv.
  destruct (key_compare a b) eqn:Hab.
  - rewrite (compare_asym _ _ Hab). simpl.
    repeat split; auto; try discriminate; try lia; intros [? ?]; discriminate.
  - destruct (key_compare b a) eqn:Hba; simpl;
      repeat split; auto; try discriminate; try lia; intros [? ?]; discriminate.
Qed.

(** X13. A rotation changes neither the in-order sequence of the nodes nor,
    with it, the search-tree order: only the links and the two cached
    heights are rewritten. *)
Theorem X13_rotations_keep_in_order_sequence (e e' : @Entry Key T) :
  RotateLeft e = Some e' \/ RotateRight e = Some e' ->
  nodes e' = nodes e /\ (bst e -> bst e') /\
  (NoDup (addrs e) -> NoDup (addrs e')).
Proof.
  intros Hrot.
  assert (Hn : nodes e' = nodes e).
  { destruct Hrot as [H|H];
      [apply RotateLeft_nodes|apply RotateRight_nodes]; exact H. }
  split; [exact Hn|]. unfold addrs. rewrite !bst_sorted, Hn. auto.
Qed.

(** X14. The two rotations undo each other: on a node whose cached height
    and whose child's cached height are right, [RotateLeft] followed by
    [RotateRight] gives back the node as it was, and so does [RotateRight]
    followed by [RotateLeft]. *)
Theorem X14_rotations_undo_each_other a p b q (x y z : @Entry Key T) hb ha :
  0 <= EntryHeight x -> 0 <= EntryHeight y -> 0 <= EntryHeight z ->
  ha < INT32_MAX -> hb < INT32_MAX ->
  (hb = 1 + Z.max (EntryHeight y) (EntryHeight z) ->
   ha = 1 + Z.max (EntryHeight x) hb ->
   exists e', RotateLeft (mkEntry a p x (mkEntry b q y z hb) ha) = Some e' /\
              ptr_of e' = Some b /\
              RotateRight e' = Some (mkEntry a p x (mkEntry b q y z hb) ha)) /\
  (ha = 1 + Z.max (EntryHeight x) (EntryHeight y) ->
   hb = 1 + Z.max ha (EntryHeight z) ->
   exists e', RotateRight (mkEntry b q (mkEntry a p x y ha) z hb) = Some e' /\
              ptr_of e' = Some a /\
              RotateLeft e' = Some (mkEntry b q (mkEntry a p x y ha) z hb)).
Proof.
  intros Hx Hy Hz Ha Hb. rewrite INT32_MAX_val in Ha, Hb. split.
  - intros Hhb Hha. unfold RotateLeft. rewrite GPR_MAX_max.
    rewrite int32_in_range by lia. simpl. rewrite GPR_MAX_max.
    rewrite int32_in_range by lia.
    eexists. split; [reflexivity|]. split; [reflexivity|].
    unfold RotateRight. rewrite GPR_MAX_max.
    rewrite int32_in_range by lia. simpl. rewrite GPR_MAX_max.
    rewrite int32_in_range by lia. subst ha hb. reflexivity.
  - intros Hha Hhb. unfold RotateRight. rewrite GPR_MAX_max.
    rewrite int32_in_range by lia. simpl. rewrite GPR_MAX_max.
    rewrite int32_in_range by lia.
    eexists. split; [reflexivity|]. split; [reflexivity|].
    unfold RotateLeft. rewrite GPR_MAX_max.
    rewrite int32_in_range by lia. simpl. rewrite GPR_MAX_max.
    rewrite int32_in_range by lia. subst ha hb. reflexivity.
Qed.

(** X15. Called with a key that the tree holds, [InsertRecursive] allocates
    nothing: it stores the new pair in the node of that key, leaves every
    link and every height as it was, and returns the iterator of that
    node. *)
Theorem X15_InsertRecursive_overwrites_in_place m e
  (L R : list (Ptr * @value_type Key T)) a q p :
  Map_ok m -> nodes (root_ m) = L ++ (a, q) :: R ->
  key_equiv (fst q) (fst p) ->
  exists t',
    InsertRecursive this e (root_ m) p = Some (mkIterator (Some a) this, t') /\
    t' = set_pair (root_ m) a p /\
    nodes t' = L ++ (a, p) :: R /\
    EntryHeight t' = EntryHeight (root_ m) /\ avl t'.
Proof.
  intros Hok Hn He. exists (set_pair (root_ m) a p).
  pose proof (find_node m L R a q (fst p) (ok_bst _ Hok) Hn He) as Hf.
  unfold find in Hf.
  destruct (find_loop (root_ m) (fst p)) as [|a0 q0 fl fr fh] eqn:Hfl;
    [discriminate|].
  simpl in Hf. injection Hf as ->.
  pose proof (Map_ok_height m Hok) as Hh.
  split.
  - apply (InsertRecursive_overwrites e (root_ m) p a q0 fl fr fh Hfl);
      [apply Hok|apply Hok|rewrite INT32_MAX_val; lia].
  - split; [reflexivity|]. split; [|split].
    + rewrite set_pair_update, Hn. apply update_first_split.
      pose proof (ok_distinct _ Hok) as Hnd. unfold addrs in Hnd.
      rewrite Hn, map_app in Hnd. simpl in Hnd. intros Hin.
      apply (NoDup_app_disjoint _ _ a Hnd Hin). simpl. auto.
    + apply set_pair_height.
    + apply set_pair_avl. apply Hok.
Qed.

(** X16. The height of a well-formed map is logarithmic in its size: a map
    of height [h] holds at least [2 ^ (h / 2) - 1] entries.  As the entries
    lie at distinct addresses the height never exceeds 129, far inside the
    range of the [int32_t] that caches it. *)
Theorem X16_height_is_logarithmic m :
  Map_ok m ->
  EntryHeight (root_ m) = tree_height (root_ m) /\
  2 ^ (tree_height (root_ m) / 2) <= size m + 1 /\
  tree_height (root_ m) <= 129 /\ size m <= SIZE_MAX.
Proof.
  intros Hok. pose proof (avl_tree_height _ (ok_avl _ Hok)) as Hh.
  split; [exact Hh|]. rewrite <- Hh. unfold size. rewrite (ok_size _ Hok).
  split; [apply avl_count; apply Hok|].
  split; [apply Map_ok_height; exact Hok|apply Map_ok_count; exact Hok].
Qed.

(** ** Operations composed *)

Lemma subscript_node m e k :
  Map_ok m -> fresh_ptr (root_ m) e ->
  exists a p m1,
    subscript T_default this m e k = Some (mkIterator (Some a) this, m1) /\
    Map_ok m1 /\ In (a, p) (nodes (root_ m1)) /\ key_equiv (fst p) k /\
    (forall k', ~ key_equiv k' k ->
       lookup k' (pairs (root_ m1)) = lookup k' (pairs (root_ m))).
Proof.
  intros Hok Hfresh. unfold subscript.
  destruct (find_spec m k (ok_bst _ Hok))
    as [[Hf Hab]|(L & a & p & R & Hn & He & Hf)].
  - rewrite Hf.
    change (iterator_eq (end_ this) (end_ this)) with true. cbv iota.
    destruct (emplace_absent m e (k, T_default) Hok Hfresh
                (find_end_loop m k Hf))
      as (m' & L & R & Hem & Hok' & Hn & Hn' & Hsz).
    rewrite Hem. exists e, (k, T_default), m'.
    split; [reflexivity|]. split; [exact Hok'|]. split.
    + rewrite Hn'. apply in_elt.
    + split; [apply key_equiv_refl|]. intros k' Hk'. unfold pairs.
      rewrite Hn, Hn', !map_app. simpl. apply lookup_drop. simpl.
      intros H. apply Hk'. apply key_equiv_sym. exact H.
  - rewrite Hf.
    change (iterator_eq (mkIterator (Some a) this) (end_ this)) with false.
    cbv iota. exists a, p, m.
    split; [reflexivity|]. split; [exact Hok|]. split.
    + rewrite Hn. apply in_elt.
    + split; [exact He|]. reflexivity.
Qed.

(** X19. [m[k] = v] followed by a lookup: after the write through the
    reference that [operator[]] returns, [find(k)] points to the entry
    written, which holds [v] under a key equivalent to [k]; the lookup of
    every key that is not equivalent to [k] returns what it returned before
    the two steps, and the map is well formed. *)
Theorem X19_subscript_assign_then_read m e k v :
  Map_ok m -> fresh_ptr (root_ m) e ->
  exists it m1 m2,
    subscript T_default this m e k = Some (it, m1) /\
    assign_second m1 it v = Some m2 /\ Map_ok m2 /\
    size m2 = size m1 /\ find this m2 k = it /\
    (exists k0, key_equiv k0 k /\ deref m2 it = Some (k0, v)) /\
    (forall k', ~ key_equiv k' k ->
       deref m2 (find this m2 k') = deref m (find this m k')).
Proof.
  intros Hok Hfresh.
  destruct (subscript_node m e k Hok Hfresh)
    as (a & p & m1 & Hs & Hok1 & Hin & He & Hl).
  destruct (in_split _ _ Hin) as (L & R & Hn).
  destruct (entry_at_nodes _ _ _ _ _ (ok_distinct _ Hok1) Hn)
    as (l & r & h & Hat & _).
  assert (Has : assign_second m1 (mkIterator (Some a) this) v =
                Some {| root_ := set_pair (root_ m1) a (fst p, v);
                        size_ := size_ m1 |}).
  { unfold assign_second. simpl. rewrite Hat. reflexivity. }
  destruct (assign_second_ok m1 _ v _ Hok1 Has)
    as (Hok2 & Hsz & L' & a' & k0 & v0 & R' & Hc & Hn1 & Hn2).
  simpl in Hc. injection Hc as <-.
  pose proof (deref_nodes m1 L R a p this (ok_distinct _ Hok1) Hn) as D1.
  pose proof (deref_nodes m1 L' R' a (k0, v0) this (ok_distinct _ Hok1) Hn1)
    as D2.
  rewrite D1 in D2. injection D2 as ->. simpl in He.
  eexists _, m1, _. split; [exact Hs|]. split; [exact Has|].
  split; [exact Hok2|]. split; [exact Hsz|].
  split; [apply (find_node _ L' R' a (k0, v) k);
          [apply Hok2|exact Hn2|exact He]|].
  split.
  - exists k0. split; [exact He|].
    apply (deref_nodes _ L' R' a (k0, v) this); [apply Hok2|exact Hn2].
  - intros k' Hk'. rewrite !find_lookup by assumption.
    rewrite <- (Hl k' Hk').
    assert (Hne : ~ key_equiv k0 k').
    { intros H. apply Hk'. apply compare_equiv_trans with k0; [|exact He].
      apply key_equiv_sym. exact H. }
    unfold pairs. rewrite Hn1, Hn2, !map_app. simpl.
    rewrite !lookup_drop; auto.
Qed.

(** X20. Inserting a new key and erasing it again restores the contents:
    the map holds the same pairs in the same order and has the same size as
    before the two steps, and is well formed. *)
Theorem X20_emplace_then_erase_restores m e k v :
  Map_ok m -> fresh_ptr (root_ m) e -> find this m k = end_ this ->
  exists it m1 m2,
    emplace this m e (k, v) = Some ((it, true), m1) /\
    erase this others m1 k = Some (1, m2) /\ Map_ok m2 /\
    pairs (root_ m2) = pairs (root_ m) /\ size m2 = size m.
Proof.
  intros Hok Hfresh Hf. apply find_end_loop in Hf.
  destruct (emplace_absent m e (k, v) Hok Hfresh Hf)
    as (m1 & L & R & Hem & Hok1 & Hn & Hn1 & Hsz1).
  pose proof (find_node m1 L R e (k, v) k (ok_bst _ Hok1) Hn1
                (key_equiv_refl _)) as Hf1.
  destruct (erase_iter_successor m1 L R e (k, v) this Hok1 Hn1)
    as (it' & m2 & R' & Her & Hok2 & Hsz2 & Hn2 & HR & _).
  exists (mkIterator (Some e) this), m1, m2.
  split; [exact Hem|]. unfold erase. rewrite Hf1.
  change (iterator_eq (mkIterator (Some e) this) (end_ this)) with false.
  cbv iota. rewrite Her. split; [reflexivity|]. split; [exact Hok2|].
  unfold pairs, size. rewrite Hn2, Hn, !map_app, HR.
  split; [reflexivity|lia].
Qed.

(** ** Erasing a node that has two children *)

Lemma subtree_key_in t a p l r h :
  subtree (mkEntry a p l r h) t -> In (fst p) (keys t).
Proof.
  intros Hs. unfold keys. apply in_map_iff. exists (a, p).
  split; [reflexivity|]. eapply subtree_In; eauto.
Qed.

(** Whatever the depth at which [RemoveRecursive] finds the key, the
    iterator it returns for a node with two children is the node itself. *)
Lemma RemoveRecursive_two_children fuel :
  forall root_ t (k : Key) it t' a p l r h,
  bst t -> RemoveRecursive this fuel root_ t k = Some (it, t') ->
  subtree (mkEntry a p l r h) t -> key_equiv (fst p) k ->
  l <> nullptr -> r <> nullptr -> it = mkIterator (Some a) this.
Proof.
  induction fuel as [|fuel IH];
    intros root_ t k it t' a p l r h Hbst; [discriminate|].
  destruct t as [|a0 p0 l0 r0 h0]; [intros _ Hs; inversion Hs|].
  simpl in Hbst. destruct Hbst as (Hlt & Hgt & Hl & Hr).
  cbn [RemoveRecursive]. intros Hrem Hs He Hln Hrn.
  assert (Hleft : subtree (mkEntry a p l r h) l0 -> key_lt (fst p) (fst p0)).
  { intros H. apply subtree_key_in in H. rewrite Forall_forall in Hlt. auto. }
  assert (Hright : subtree (mkEntry a p l r h) r0 -> key_lt (fst p0) (fst p)).
  { intros H. apply subtree_key_in in H. rewrite Forall_forall in Hgt. auto. }
  destruct (CompareKeys_dec (fst p0) k)
    as [[Hc Hk]|[(Hc & Hc' & Hk)|(Hc & Hc' & Hc'' & Hk)]].
  - (* the key is in the left subtree *)
    rewrite Hc in Hrem.
    destruct (RemoveRecursive this fuel root_ l0 k) as [[it0 l']|] eqn:Hrec;
      [|discriminate].
    destruct (RebalanceTreeAfterDeletion _) as [root'|]; [|discriminate].
    injection Hrem as <- <-.
    apply (IH root_ l0 k it0 l' a p l r h Hl Hrec); auto.
    inversion Hs; subst; auto; exfalso.
    + exact (gt_not_equiv _ _ Hk He).
    + apply (gt_not_equiv (fst p) k); [|exact He].
      eapply compare_trans; [exact Hk|]. apply Hright. assumption.
  - (* the key is in the right subtree *)
    rewrite Hc, Hc' in Hrem.
    destruct (RemoveRecursive this fuel root_ r0 k) as [[it0 r']|] eqn:Hrec;
      [|discriminate].
    destruct (RebalanceTreeAfterDeletion _) as [root'|]; [|discriminate].
    injection Hrem as <- <-.
    apply (IH root_ r0 k it0 r' a p l r h Hr Hrec); auto.
    inversion Hs; subst; auto; exfalso.
    + exact (lt_not_equiv _ _ Hk He).
    + apply (lt_not_equiv (fst p) k); [|exact He].
      eapply compare_trans; [|exact Hk]. apply Hleft. assumption.
  - (* the key is here *)
    rewrite Hc, Hc' in Hrem.
    assert (Hpp : key_equiv (fst p) (fst p0)).
    { apply compare_equiv_trans with k; [exact He|].
      apply key_equiv_sym. exact Hk. }
    inversion Hs; subst.
    + destruct (InOrderSuccessor root_ _) as [s|]; [|discriminate].
      destruct l0 as [|la lp ll lr lh]; [congruence|].
      destruct r0 as [|ra rp rl rr rh]; [congruence|].
      cbv match in Hrem. destruct s as [|b q sl sr sh]; [discriminate|].
      destruct (RemoveRecursive this fuel _ _ _) as [[it0 r'']|];
        [|discriminate].
      destruct (RebalanceTreeAfterDeletion _) as [root'|]; [|discriminate].
      injection Hrem as <- _. reflexivity.
    + exfalso. apply (lt_not_equiv _ _ (Hleft ltac:(assumption)) Hpp).
    + exfalso. apply (gt_not_equiv _ _ (Hright ltac:(assumption)) Hpp).
Qed.

(** X22. [erase(it)] at an entry whose node has two children does not free
    that node: the node stays in the tree and takes over the pair of the
    entry that follows in key order, whose node is the one freed.  The
    iterator returned is the one passed in, now at the following entry; an
    iterator that pointed to the following entry dangles, although its
    entry was not erased. *)
Theorem X22_erase_two_children_frees_successor_node m a p l r h mp :
  Map_ok m -> subtree (mkEntry a p l r h) (root_ m) ->
  l <> nullptr -> r <> nullptr ->
  exists L b q R2 m',
    nodes (root_ m) = L ++ (a, p) :: (b, q) :: R2 /\
    erase_iter this others m (mkIterator (Some a) mp)
      = Some (mkIterator (Some a) this, m') /\
    nodes (root_ m') = L ++ (a, q) :: R2 /\
    b <> a /\ deref m (mkIterator (Some b) mp) = Some q /\
    key_lt (fst p) (fst q) /\
    (forall q', In q' (pairs (root_ m)) -> key_lt (fst p) (fst q') ->
                q' = q \/ key_lt (fst q) (fst q')) /\
    deref m' (mkIterator (Some a) mp) = Some q /\
    deref m' (mkIterator (Some b) mp) = None /\
    ~ In b (addrs (root_ m')).
Proof.
  intros Hok Hs Hl Hr.
  pose proof (subtree_In _ _ _ _ _ _ _ Hs eq_refl) as Hin.
  destruct (in_split _ _ Hin) as (L & R & Hn).
  destruct (erase_iter_node m L R a p mp Hok Hn)
    as (it' & m' & He & Hok' & _ & _ & Hcase).
  pose proof (ok_distinct _ Hok) as Hnd. unfold addrs in Hnd.
  rewrite Hn, map_app in Hnd. simpl in Hnd.
  assert (Hit : it' = mkIterator (Some a) this).
  { pose proof He as He0. unfold erase_iter in He0.
    change (iterator_eq (mkIterator (Some a) mp) (end_ this)) with false in He0.
    cbv iota in He0.
    rewrite (raw_deref_nodes m L R a p mp (ok_distinct _ Hok) Hn) in He0.
    destruct p as [k v].
    destruct (RemoveRecursive this _ _ _ _) as [[it0 root']|] eqn:Hrem;
      [|discriminate].
    injection He0 as <- _.
    apply (RemoveRecursive_two_children _ _ _ _ _ _ _ _ _ _ _
             (ok_bst _ Hok) Hrem Hs); auto.
    apply key_equiv_refl. }
  subst it'.
  destruct Hcase as [[_ Hc]|(b & q & R2 & -> & Hn' & _)].
  - exfalso. simpl in Hc. destruct R as [|[b q] R2]; [discriminate|].
    simpl in Hc. injection Hc as <-. simpl in Hnd.
    apply (NoDup_remove_2 _ _ _ Hnd). apply in_or_app. simpl. auto.
  - simpl in Hnd.
    assert (Hb : ~ In b (addrs (root_ m'))).
    { unfold addrs. rewrite Hn', map_app. simpl. pose proof Hnd as Hnd2.
      change (map fst L ++ a :: b :: map fst R2)
        with (map fst L ++ [a] ++ b :: map fst R2) in Hnd2.
      rewrite app_assoc in Hnd2. apply NoDup_remove_2 in Hnd2.
      rewrite <- app_assoc in Hnd2. exact Hnd2. }
    pose proof (proj1 (bst_sorted _) (ok_bst _ Hok)) as Hso.
    rewrite Hn in Hso. apply sorted_app_cons in Hso.
    destruct Hso as (_ & HsR & HLp & Hgt).
    inversion Hgt as [|? ? Hpq _]; subst.
    exists L, b, q, R2, m'. split; [exact Hn|]. split; [exact He|].
    split; [exact Hn'|].
    split.
    { intros ->. apply (NoDup_remove_2 _ _ _ Hnd). apply in_or_app.
      simpl. auto. }
    split.
    { apply deref_In; [apply Hok|]. rewrite Hn. apply in_or_app.
      simpl. auto. }
    split; [exact Hpq|].
    split.
    { intros q' Hq' Hlt. unfold pairs in Hq'. rewrite Hn, map_app in Hq'.
      simpl in Hq'. apply in_app_or in Hq'.
      destruct Hq' as [Hq'|[<-|[<-|Hq']]].
      - exfalso. apply in_map_iff in Hq'. destruct Hq' as (n & <- & Hn0).
        rewrite Forall_forall in HLp. pose proof (HLp n Hn0) as Hnp.
        unfold node_lt, node_key, key_lt in *. simpl in Hnp.
        rewrite (compare_asym _ _ Hlt) in Hnp. discriminate.
      - exfalso. unfold key_lt in Hlt. rewrite compare_irrefl in Hlt.
        discriminate.
      - auto.
      - right. apply sorted_cons in HsR. destruct HsR as [_ Hq].
        apply in_map_iff in Hq'. destruct Hq' as (n & <- & Hn0).
        rewrite Forall_forall in Hq. exact (Hq n Hn0). }
    split.
    { apply (deref_nodes m' L R2 a q mp); [apply Hok'|exact Hn']. }
    split; [|exact Hb].
    unfold deref. simpl.
    rewrite (proj2 (entry_at_nullptr (root_ m') b) Hb). reflexivity.
Qed.

End Operations.

(** ** Programs over several maps *)

Section Programs.

Context {Key T : Type} {key_compare_ : Compare Key} {SWO : StrictWeakOrder Key}.
Variable T_default : T.

Implicit Types m : @Map Key T.
Implicit Types w : @World Key T.

Lemma world_get_set w obj m obj' :
  world_get (world_set w obj m) obj' =
  if obj =? obj' then Some m else world_get w obj'.
Proof.
  induction w as [|[o m0] w IH]; simpl.
  - destruct (obj =? obj'); reflexivity.
  - destruct (Z.eqb_spec o obj) as [->|Hne]; simpl.
    + destruct (obj =? obj'); reflexivity.
    + rewrite IH. destruct (Z.eqb_spec o obj') as [->|Hne'];
        destruct (Z.eqb_spec obj obj'); congruence.
Qed.

Lemma world_get_del w obj obj' :
  world_get (world_del w obj) obj' =
  if obj =? obj' then None else world_get w obj'.
Proof.
  induction w as [|[o m0] w IH]; simpl.
  - destruct (obj =? obj'); reflexivity.
  - destruct (Z.eqb_spec o obj) as [->|Hne]; simpl.
    + rewrite IH. destruct (obj =? obj'); reflexivity.
    + rewrite IH. destruct (Z.eqb_spec o obj') as [->|Hne'];
        destruct (Z.eqb_spec obj obj'); congruence.
Qed.

Lemma world_get_live w obj m :
  world_get w obj = Some m -> incl (addrs (root_ m)) (live_nodes w).
Proof.
  unfold live_nodes, addrs. induction w as [|[o m0] w IH]; simpl; [discriminate|].
  destruct (o =? obj).
  - intros [= ->]. apply incl_appl, incl_refl.
  - intros H. apply incl_appr, IH, H.
Qed.

Lemma World_inv_set (P : @Map Key T -> Prop) w obj m' :
  World_inv P w -> P m' ->
  (forall a o2 m2, In a (addrs (root_ m')) -> o2 <> obj ->
                   world_get w o2 = Some m2 -> ~ In a (addrs (root_ m2))) ->
  World_inv P (world_set w obj m').
Proof.
  intros [Hmaps Hdisj] Hok Hnew. split.
  - intros o m. rewrite world_get_set.
    destruct (obj =? o); [intros [= <-]; exact Hok|apply Hmaps].
  - intros o1 o2 m1 m2 a Hne. rewrite !world_get_set.
    destruct (Z.eqb_spec obj o1) as [E1|H1];
      destruct (Z.eqb_spec obj o2) as [E2|H2]; try congruence.
    + intros [= <-] H2' Ha1 Ha2. eapply Hnew; eauto.
    + intros H1' [= <-] Ha1 Ha2. eapply Hnew; eauto.
    + apply Hdisj; auto.
Qed.

Lemma World_inv_del (P : @Map Key T -> Prop) w obj :
  World_inv P w -> World_inv P (world_del w obj).
Proof.
  intros [Hmaps Hdisj]. split.
  - intros o m. rewrite world_get_del.
    destruct (obj =? o); [discriminate|apply Hmaps].
  - intros o1 o2 m1 m2 a Hne. rewrite !world_get_del.
    destruct (obj =? o1); [discriminate|].
    destruct (obj =? o2); [discriminate|]. apply Hdisj; auto.
Qed.

Lemma allocator_okb_spec w es :
  allocator_okb w es = true ->
  Forall valid_ptr es /\ NoDup es /\
  (forall e, In e es -> ~ In e (live_nodes w)).
Proof.
  unfold allocator_okb. rewrite !andb_true_iff, !forallb_forall.
  intros [[Hv Hd] Hf]. split; [|split].
  - apply Forall_forall. intros e He. specialize (Hv e He).
    unfold valid_ptrb in Hv. unfold valid_ptr.
    rewrite andb_true_iff, Z.ltb_lt, Z.leb_le in Hv. lia.
  - apply distinctb_distinct, Hd.
  - intros e He Hin. specialize (Hf e He). apply negb_true_iff in Hf.
    apply existsb_addr in Hin. congruence.
Qed.

Lemma emplace_each_step this (ps : list (@value_type Key T)) :
  forall m es m',
  Map_ok m -> Forall valid_ptr es -> NoDup es ->
  (forall e, In e es -> ~ In e (addrs (root_ m))) ->
  emplace_each this m es ps = Some m' -> Map_step es m m'.
Proof.
  induction ps as [|p ps IH]; intros m es m' Hok Hv Hnd Hfresh; simpl.
  - intros [= <-]. apply Map_step_refl, Hok.
  - destruct es as [|e es]; [discriminate|].
    destruct (emplace this m e p) as [[res m1]|] eqn:He; [|discriminate].
    intros Hrest. inversion Hv; subst. inversion Hnd; subst.
    destruct (emplace_step this m e p res m1 Hok) as [Hok1 Hincl1]; auto.
    { split; auto. apply Hfresh. simpl; auto. }
    destruct (IH m1 es m' Hok1) as [Hok' Hincl']; auto.
    { intros x Hx Hin. apply Hincl1 in Hin. simpl in Hin.
      destruct Hin as [<-|Hin]; [contradiction|].
      apply (Hfresh x); simpl; auto. }
    split; auto. intros x Hx. apply Hincl' in Hx.
    rewrite in_app_iff in *. simpl. destruct Hx as [Hx|Hx]; auto.
    apply Hincl1 in Hx. simpl in Hx. tauto.
Qed.

Lemma emplace_each_same_tree this (ps : list (@value_type Key T)) :
  forall m1 m2 es,
  root_ m1 = root_ m2 ->
  same_tree_map (emplace_each this m1 es ps) (emplace_each this m2 es ps).
Proof.
  induction ps as [|p ps IH]; intros m1 m2 es E; simpl; [exact E|].
  destruct es as [|e es]; [exact I|].
  pose proof (emplace_same_tree this m1 m2 e p E) as Hs.
  destruct (emplace this m1 e p) as [[r1 n1]|];
    destruct (emplace this m2 e p) as [[r2 n2]|]; simpl in *; try tauto.
  apply IH. tauto.
Qed.

Lemma emplace_each_tree_step this (ps : list (@value_type Key T)) m es m' :
  Tree_ok m -> Forall valid_ptr es -> NoDup es ->
  (forall e, In e es -> ~ In e (addrs (root_ m))) ->
  emplace_each this m es ps = Some m' -> Tree_step es m m'.
Proof.
  intros Htree Hv Hnd Hfresh He.
  pose proof (emplace_each_same_tree this ps m (counted m) es eq_refl) as Hs.
  rewrite He in Hs.
  destruct (emplace_each this (counted m) es ps) as [m0|] eqn:E;
    [|contradiction].
  simpl in Hs.
  apply (Tree_step_root es (counted m) m m0 m');
    [reflexivity|symmetry; exact Hs|].
  exact (emplace_each_step this ps (counted m) es m0
           (Tree_ok_counted m Htree) Hv Hnd Hfresh E).
Qed.

Lemma World_inv_move (P : @Map Key T -> Prop) w obj other o :
  World_inv P w -> P Map_default -> world_get w other = Some o ->
  World_inv P (world_set (world_set w other {| root_ := nullptr; size_ := 0 |})
                         obj {| root_ := root_ o; size_ := size_ o |}).
Proof.
  intros Hw Hdef Ho. pose proof Hw as [Hmaps Hdisj].
  apply World_inv_set; [apply World_inv_set| |].
  - exact Hw.
  - exact Hdef.
  - simpl. intros a o2 m2 [].
  - pose proof (Hmaps _ _ Ho) as Hok. destruct o as [t sz]. exact Hok.
  - simpl. intros a o2 m2 Ha Hne2. rewrite world_get_set.
    destruct (Z.eqb_spec other o2) as [E|Hne3].
    + intros [= <-]. simpl. auto.
    + intros Hg Hin. apply (Hdisj other o2 o m2 a); auto.
Qed.

Lemma World_inv_same (P : @Map Key T -> Prop) w obj m :
  World_inv P w -> world_get w obj = Some m -> World_inv P (world_set w obj m).
Proof.
  intros Hw Hm. pose proof Hw as [Hmaps Hdisj].
  apply World_inv_set; [exact Hw|eauto|].
  intros a o2 m2 Ha Hne2 Hg Hin. apply (Hdisj obj o2 m m2 a); auto.
Qed.

(** *** One statement keeps an invariant of the maps

    [P] is what is known of every live map and [good] what is asked of the
    statement; the operations on one map keep [P] and allocate no node but
    those they are given. *)

Section ExecInvariant.

Variable P : @Map Key T -> Prop.
Variable good : @World Key T -> @Stmt Key T -> Prop.

Hypothesis P_default : P Map_default.

Hypothesis P_clear : forall this others m m0,
  P m -> clear this others m = Some m0 -> P m0 /\ root_ m0 = nullptr.

Hypothesis P_each : forall this ps m es m',
  P m -> Forall valid_ptr es -> NoDup es ->
  (forall e, In e es -> ~ In e (addrs (root_ m))) ->
  emplace_each this m es ps = Some m' ->
  P m' /\ incl (addrs (root_ m')) (es ++ addrs (root_ m)).

Hypothesis P_op : forall w obj m o m',
  good w (Call obj o) -> world_get w obj = Some m -> P m ->
  apply_op T_default obj (other_nodes w obj) m o = Some m' ->
  P m' /\ incl (addrs (root_ m')) (allocated (Call obj o) ++ addrs (root_ m)).

Lemma exec_inv w s w' :
  World_inv P w -> good w s -> exec T_default w s = Some w' ->
  World_inv P w'.
Proof.
  intros Hw Hgood. unfold exec.
  destruct (allocator_okb w (allocated s)) eqn:Hal; [|discriminate]. simpl.
  apply allocator_okb_spec in Hal. destruct Hal as (Hv & Hnd & Hfresh).
  pose proof Hw as [Hmaps Hdisj].
  assert (Hfresh' : forall e o m, In e (allocated s) ->
            world_get w o = Some m -> ~ In e (addrs (root_ m))).
  { intros e o m He Hg Hin. apply (Hfresh e He).
    apply (world_get_live w o m Hg). exact Hin. }
  destruct s as [obj|obj other|obj other es|obj other|obj other es|obj o|obj].
  - (* Construct *)
    destruct (is_live w obj); [discriminate|]. intros [= <-].
    apply World_inv_set; [exact Hw|exact P_default|].
    simpl. intros a o2 m2 [].
  - (* MoveConstruct *)
    destruct (is_live w obj) eqn:Hlive; [discriminate|].
    destruct (world_get w other) as [o|] eqn:Ho; [|discriminate].
    simpl. intros [= <-]. apply World_inv_move; assumption.
  - (* CopyConstruct *)
    destruct (is_live w obj) eqn:Hlive; [discriminate|].
    destruct (world_get w other) as [o|] eqn:Ho; [|discriminate].
    unfold copy_construct.
    destruct (range_for other o) as [ps|]; [|discriminate].
    destruct (emplace_each obj Map_default es (map snd ps)) as [m|] eqn:He;
      [|discriminate].
    intros [= <-].
    destruct (P_each obj _ _ _ _ P_default Hv Hnd (fun _ _ H => H) He)
      as [Hok Hincl].
    apply World_inv_set; auto.
    intros a o2 m2 Ha _ Hg. apply Hincl in Ha. simpl in Ha.
    rewrite app_nil_r in Ha. eapply Hfresh'; eauto.
  - (* MoveAssign *)
    destruct (world_get w obj) as [m|] eqn:Hm; [|discriminate].
    destruct (world_get w other) as [o|] eqn:Ho; [|discriminate].
    unfold move_assign. destruct (Z.eqb_spec obj other) as [E|Hne]; simpl.
    + intros [= <-]. subst other. rewrite Hm in Ho. injection Ho as <-.
      apply World_inv_same;
        [apply World_inv_same|rewrite world_get_set, Z.eqb_refl]; auto.
    + destruct (clear obj (other_nodes w obj) m) as [m0|]; [|discriminate].
      intros [= <-]. apply World_inv_move; assumption.
  - (* CopyAssign *)
    destruct (world_get w obj) as [m|] eqn:Hm; [|discriminate].
    destruct (world_get w other) as [o|] eqn:Ho; [|discriminate].
    unfold copy_assign. destruct (Z.eqb_spec obj other) as [E|Hne]; simpl.
    + intros [= <-]. apply World_inv_same; assumption.
    + destruct (clear obj (other_nodes w obj) m) as [m0|] eqn:Hc;
        [|discriminate].
      destruct (P_clear _ _ _ _ (Hmaps _ _ Hm) Hc) as [Hok0 Hroot0].
      destruct (range_for other o) as [ps|]; [|discriminate].
      destruct (emplace_each obj m0 es (map snd ps)) as [m'|] eqn:He;
        [|discriminate].
      intros [= <-].
      assert (Hfr0 : forall e, In e es -> ~ In e (addrs (root_ m0))).
      { intros e _. rewrite Hroot0. simpl. auto. }
      destruct (P_each obj _ _ _ _ Hok0 Hv Hnd Hfr0 He) as [Hok Hincl].
      apply World_inv_set; auto.
      intros a o2 m2 Ha _ Hg. apply Hincl in Ha. rewrite Hroot0 in Ha.
      simpl in Ha. rewrite app_nil_r in Ha. eapply Hfresh'; eauto.
  - (* Call *)
    destruct (world_get w obj) as [m|] eqn:Hm; [|discriminate].
    destruct (apply_op T_default obj (other_nodes w obj) m o) as [m'|] eqn:Hop;
      [|discriminate].
    intros [= <-].
    destruct (P_op w obj m o m' Hgood Hm (Hmaps _ _ Hm) Hop) as [Hok Hincl].
    apply World_inv_set; auto.
    intros a o2 m2 Ha Hne2 Hg Hin. apply Hincl in Ha.
    apply in_app_or in Ha. destruct Ha as [Ha|Ha].
    + eapply Hfresh'; eauto.
    + apply (Hdisj obj o2 m m2 a); auto.
  - (* Destroy *)
    destruct (world_get w obj) as [m|] eqn:Hm; [|discriminate].
    destruct (clear obj (other_nodes w obj) m); [|discriminate].
    intros [= <-]. apply World_inv_del, Hw.
Qed.

End ExecInvariant.

(** The trees of the live maps keep their invariants and stay disjoint,
    whatever iterators [erase(iterator)] is passed. *)
Lemma exec_trees w s w' :
  World_trees w -> exec T_default w s = Some w' -> World_trees w'.
Proof.
  intros Hw He.
  apply (exec_inv Tree_ok (fun _ _ => True)) with (w := w) (s := s); auto.
  - apply Map_ok_Tree_ok, Map_default_ok.
  - intros this others m m0 Htree Hc.
    destruct (clear_tree this others m Htree) as (m1 & Hc1 & Hroot).
    rewrite Hc in Hc1. injection Hc1 as <-. split; [|exact Hroot].
    apply (Tree_ok_root Map_default);
      [symmetry; exact Hroot|apply Map_ok_Tree_ok, Map_default_ok].
  - intros this ps m es m'. apply emplace_each_tree_step.
  - intros w0 obj m o m' _ _ Htree Hop.
    exact (apply_op_tree_step obj (other_nodes w0 obj) T_default m o m'
             Htree Hop).
Qed.

Lemma own_stmt_op w obj o m :
  own_stmt w (Call obj o) = true -> world_get w obj = Some m -> own_op m o.
Proof.
  destruct o as [e p|e p|e k|it v|k|it|]; simpl; auto.
  unfold own_iterator. destruct (curr_ it) as [a|]; [|auto].
  intros Hex Hm. rewrite Hm in Hex. apply existsb_addr. exact Hex.
Qed.

(** As long as [erase(iterator)] is passed iterators of the map it is called
    on, [size_] keeps counting the nodes as well. *)
Lemma exec_ok w s w' :
  World_ok w -> own_stmt w s = true -> exec T_default w s = Some w' ->
  World_ok w'.
Proof.
  intros Hw Hown He.
  apply (exec_inv Map_ok (fun w s => own_stmt w s = true))
    with (w := w) (s := s); auto.
  - apply Map_default_ok.
  - intros this others m m0 Hok Hc. rewrite (clear_ok this others m Hok) in Hc.
    injection Hc as <-. split; [apply Map_default_ok|reflexivity].
  - intros this ps m es m'. apply emplace_each_step.
  - intros w0 obj m o m' Hgood Hm Hok Hop.
    exact (apply_op_step obj (other_nodes w0 obj) T_default m o m' Hok
             (own_stmt_op w0 obj o m Hgood Hm) Hop).
Qed.

Lemma World_inv_nil (P : @Map Key T -> Prop) :
  World_inv P (@nil (Ptr * @Map Key T)).
Proof. split; simpl; intros; discriminate. Qed.

Lemma World_ok_trees w : World_ok w -> World_trees w.
Proof.
  intros [Hmaps Hdisj]. split; [|exact Hdisj].
  intros obj m Hm. apply Map_ok_Tree_ok. eauto.
Qed.

Lemma run_trees prog : forall w w',
  World_trees w -> run T_default w prog = Some w' -> World_trees w'.
Proof.
  induction prog as [|s prog IH]; simpl; intros w w' Hw.
  - intros [= <-]. exact Hw.
  - destruct (exec T_default w s) as [w1|] eqn:He; [|discriminate].
    apply IH. eapply exec_trees; eauto.
Qed.

Lemma run_ok prog : forall w w',
  World_ok w -> own_iterators T_default w prog = true ->
  run T_default w prog = Some w' -> World_ok w'.
Proof.
  induction prog as [|s prog IH]; simpl; intros w w' Hw Hown.
  - intros [= <-]. exact Hw.
  - apply andb_true_iff in Hown. destruct Hown as [Hs Hrest].
    destruct (exec T_default w s) as [w1|] eqn:He; [|discriminate].
    apply IH; [|exact Hrest]. eapply exec_ok; eauto.
Qed.

(** The map of a reachable state, its tree and its iteration. *)
Lemma range_for_tree obj m :
  Tree_ok m -> range_for obj m = Some (nodes (root_ m)).
Proof.
  intros Htree. unfold range_for. rewrite begin_nodes.
  apply (traverse_nodes obj m obj _ (tok_bst m Htree) (tok_distinct m Htree)
           []); auto.
Qed.

Lemma ptr_of_iterator_of obj m (e : @Entry Key T) :
  e = nullptr \/ subtree e (root_ m) ->
  iterator_of obj m (mkIterator (ptr_of e) obj).
Proof.
  intros He. split; [reflexivity|]. simpl.
  destruct e as [|a p l r h]; simpl; auto.
  destruct He as [He|He]; [discriminate|].
  apply (in_map fst _ (a, p)). eapply subtree_In; eauto.
Qed.

Lemma end_iterator_of obj m : iterator_of obj m (end_ obj).
Proof. split; simpl; auto. Qed.

Lemma find_iterator_of obj m k :
  Map_ok m -> iterator_of obj m (find obj m k).
Proof.
  intros Hok. apply ptr_of_iterator_of.
  destruct (find_loop_spec (root_ m) k (ok_bst m Hok))
    as [[-> _]|(a & p & l & r & h & -> & _ & Hs)]; auto.
Qed.

Lemma begin_iterator_of obj m : iterator_of obj m (begin obj m).
Proof.
  rewrite begin_nodes. split; [reflexivity|]. simpl. unfold addrs.
  destruct (nodes (root_ m)) as [|n ns]; simpl; auto.
Qed.

(** ** The claims about the maps of a program *)

(** C7, as amended.  In every state a program can reach, an iteration from
    [begin()] to [end()] produces as many entries as there are nodes
    reachable from the root.  When every iterator that the program passed
    to [erase(iterator)] was the end iterator or an iterator at an entry of
    the map it was called on, [size()] is that number. *)
Theorem C7_size_counts_entries prog w obj m :
  run T_default [] prog = Some w -> world_get w obj = Some m ->
  (exists visited, range_for obj m = Some visited /\
                   length visited = length (nodes (root_ m))) /\
  (own_iterators T_default [] prog = true ->
   size m = Z.of_nat (length (nodes (root_ m))) /\
   exists visited, range_for obj m = Some visited /\
                   size m = Z.of_nat (length visited)).
Proof.
  intros Hrun Hget. split.
  - destruct (run_trees prog _ _ (World_inv_nil _) Hrun) as [Hmaps _].
    exists (nodes (root_ m)).
    split; [apply range_for_tree, (Hmaps _ _ Hget)|reflexivity].
  - intros Hown.
    destruct (run_ok prog _ _ (World_inv_nil _) Hown Hrun) as [Hmaps _].
    pose proof (Hmaps _ _ Hget) as Hok.
    split; [apply Hok|]. exists (nodes (root_ m)).
    split; [apply range_for_nodes, Hok|apply Hok].
Qed.

(** C8, as amended.  Iterator equality is identity of the node pointer
    alone.  Iterators at entries of two different maps never compare equal;
    two iterators of different maps compare equal exactly when both are end
    iterators. *)
Theorem C8_iterators_of_different_maps prog w obj1 obj2 m1 m2 it1 it2 :
  run T_default [] prog = Some w -> obj1 <> obj2 ->
  world_get w obj1 = Some m1 -> world_get w obj2 = Some m2 ->
  iterator_of obj1 m1 it1 -> iterator_of obj2 m2 it2 ->
  (iterator_eq it1 it2 = true <-> curr_ it1 = curr_ it2) /\
  (iterator_eq it1 it2 = true <-> it1 = end_ obj1 /\ it2 = end_ obj2).
Proof.
  intros Hrun Hne H1 H2 [Hm1 Hc1] [Hm2 Hc2].
  destruct (run_trees prog _ _ (World_inv_nil _) Hrun) as [_ Hdisj].
  destruct it1 as [[a1|] mp1], it2 as [[a2|] mp2];
    unfold iterator_eq, end_; simpl in *; subst.
  - rewrite Z.eqb_eq. split; split.
    + intros ->. reflexivity.
    + intros [= ->]. reflexivity.
    + intros ->. exfalso. eapply Hdisj; eauto.
    + intros [Hc _]. discriminate.
  - split; split; try discriminate. intros [Hc _]. discriminate.
  - split; split; try discriminate. intros [_ Hc]. discriminate.
  - split; split; auto.
Qed.

(** C10, as amended.  In every state a program can reach, [empty()] holds
    exactly when the root is null; it holds exactly when [size()] is 0
    when every iterator that the program passed to [erase(iterator)] was
    the end iterator or an iterator at an entry of the map it was called
    on.  Move construction and move assignment leave the source with a null
    root and size 0 (a map move-assigned to itself, source and destination
    at once, is left as it is). *)
Theorem C10_empty_iff_size_zero prog w :
  run T_default [] prog = Some w ->
  (forall obj m, world_get w obj = Some m ->
     (own_iterators T_default [] prog = true ->
      (empty m = true <-> size m = 0)) /\
     (empty m = true <-> root_ m = nullptr)) /\
  (forall obj other w',
     exec T_default w (MoveConstruct obj other) = Some w' ->
     world_get w' other = Some {| root_ := nullptr; size_ := 0 |}) /\
  (forall obj other w',
     obj <> other ->
     exec T_default w (MoveAssign obj other) = Some w' ->
     world_get w' other = Some {| root_ := nullptr; size_ := 0 |}) /\
  (forall obj w',
     exec T_default w (MoveAssign obj obj) = Some w' ->
     world_get w' obj = world_get w obj).
Proof.
  intros Hrun.
  split; [|split; [|split]].
  - intros obj m Hget. split.
    + intros Hown.
      destruct (run_ok prog _ _ (World_inv_nil _) Hown Hrun) as [Hmaps _].
      pose proof (Hmaps _ _ Hget) as Hok.
      pose proof (ok_size m Hok) as Hsz. unfold size. rewrite Hsz.
      rewrite empty_nodes. split.
      * intros ->. reflexivity.
      * intros H0. apply length_zero_iff_nil. lia.
    + unfold empty. destruct (root_ m); split; congruence.
  - intros obj other w'. unfold exec. simpl.
    destruct (is_live w obj) eqn:Hlive; [discriminate|].
    destruct (world_get w other) as [o|] eqn:Ho; [|discriminate].
    simpl. intros [= <-]. rewrite !world_get_set, Z.eqb_refl.
    destruct (Z.eqb_spec obj other) as [E|_]; [|reflexivity].
    subst. unfold is_live in Hlive. rewrite Ho in Hlive. discriminate.
  - intros obj other w' Hne. unfold exec. simpl.
    destruct (world_get w obj) as [m|] eqn:Hm; [|discriminate].
    destruct (world_get w other) as [o|] eqn:Ho; [|discriminate].
    unfold move_assign.
    destruct (Z.eqb_spec obj other) as [E|_]; [contradiction|].
    simpl. destruct (clear obj _ m); [|discriminate].
    intros [= <-]. rewrite !world_get_set, Z.eqb_refl.
    destruct (Z.eqb_spec obj other) as [E|_]; [contradiction|reflexivity].
  - intros obj w'. unfold exec. simpl.
    destruct (world_get w obj) as [m|] eqn:Hm; [|discriminate].
    unfold move_assign. rewrite Z.eqb_refl. simpl.
    intros [= <-]. rewrite !world_get_set, Z.eqb_refl. reflexivity.
Qed.

(** ** Copies *)

Lemma sorted_snd (A : list (Ptr * @value_type Key T)) :
  forall B, map snd A = map snd B -> sorted A -> sorted B.
Proof.
  induction A as [|x A IH]; intros [|y B]; simpl; try discriminate.
  - intros _ _. constructor.
  - intros [= Hxy HAB] Hs. apply sorted_cons in Hs. destruct Hs as [Hs Hx].
    apply sorted_cons. split; [apply IH; assumption|].
    unfold node_lt, node_key in *. rewrite <- Hxy.
    set (P := fun q : @value_type Key T => key_lt (fst (snd x)) (fst q)).
    apply (proj1 (Forall_map snd P B)). rewrite <- HAB.
    apply (proj2 (Forall_map snd P A)). exact Hx.
Qed.

Lemma combine_fst_snd {A B : Type} (xs : list A) :
  forall ys : list B, length xs = length ys ->
  map fst (combine xs ys) = xs /\ map snd (combine xs ys) = ys.
Proof.
  induction xs as [|x xs IH]; intros [|y ys]; simpl; try discriminate; auto.
  intros [= Hl]. destruct (IH ys Hl) as [-> ->]. auto.
Qed.

(** Pairs emplaced in ascending order of their keys, all greater than the
    keys of the map, are appended to its in-order sequence, each in the node
    allocated for it. *)
Lemma emplace_each_appends this (ns : list (Ptr * @value_type Key T)) :
  forall m es,
  Map_ok m -> Forall valid_ptr es -> NoDup es ->
  (forall e, In e es -> ~ In e (addrs (root_ m))) ->
  (length ns <= length es)%nat ->
  sorted (nodes (root_ m) ++ ns) ->
  exists m',
    emplace_each this m es (map snd ns) = Some m' /\ Map_ok m' /\
    nodes (root_ m') =
      nodes (root_ m) ++ combine (firstn (length ns) es) (map snd ns).
Proof.
  induction ns as [|[a0 p] ns IH]; intros m es Hok Hv Hnd Hfresh Hlen Hs.
  - exists m. simpl. rewrite app_nil_r. auto.
  - destruct es as [|e es]; [simpl in Hlen; lia|].
    inversion Hv as [|? ? Hve Hves]; subst.
    inversion Hnd as [|? ? Hne Hndes]; subst.
    pose proof Hs as Hs0. apply sorted_app_cons in Hs0.
    destruct Hs0 as (_ & _ & Hlt & _).
    assert (Hf : find_loop (root_ m) (fst p) = nullptr).
    { destruct (find_loop_spec (root_ m) (fst p) (ok_bst _ Hok))
        as [[Hf _]|(a & q & l & r & h & _ & He & Hsub)]; [exact Hf|].
      exfalso. pose proof (subtree_In _ _ _ _ _ _ _ Hsub eq_refl) as Hin.
      rewrite Forall_forall in Hlt.
      exact (lt_not_equiv _ _ (Hlt _ Hin) He). }
    assert (Hfr : fresh_ptr (root_ m) e).
    { split; [exact Hve|]. apply Hfresh. simpl. auto. }
    destruct (emplace_absent this m e p Hok Hfr Hf)
      as (m1 & L & R & He & Hok1 & Hn & Hn1 & _).
    assert (HR : R = []).
    { destruct R as [|r R]; [reflexivity|]. exfalso.
      pose proof (proj1 (bst_sorted _) (ok_bst _ Hok1)) as Hs1.
      rewrite Hn1 in Hs1. apply sorted_app_cons in Hs1.
      destruct Hs1 as (_ & _ & _ & Hgt). inversion Hgt as [|? ? Hpr _]; subst.
      rewrite Forall_forall in Hlt.
      assert (Hrp : node_lt r (a0, p)).
      { apply Hlt. rewrite Hn. apply in_or_app. simpl. auto. }
      unfold node_lt, node_key, key_lt in Hpr, Hrp. simpl in Hpr, Hrp.
      rewrite (compare_asym _ _ Hpr) in Hrp. discriminate. }
    subst R. rewrite app_nil_r in Hn. subst L.
    destruct (IH m1 es Hok1 Hves Hndes) as (m' & Hrest & Hok' & Hn').
    + intros x Hx Hin. unfold addrs in Hin. rewrite Hn1, map_app in Hin.
      apply in_app_or in Hin. simpl in Hin.
      destruct Hin as [Hin|[<-|[]]]; [|contradiction].
      apply (Hfresh x); simpl; auto.
    + simpl in Hlen. lia.
    + rewrite Hn1, <- app_assoc. simpl.
      apply (sorted_snd (nodes (root_ m) ++ (a0, p) :: ns)); [|exact Hs].
      rewrite !map_app. reflexivity.
    + exists m'. simpl. rewrite He. split; [exact Hrest|].
      split; [exact Hok'|]. rewrite Hn', Hn1, <- app_assoc. reflexivity.
Qed.

Lemma copy_nodes this (other : @Map Key T) es :
  Map_ok other -> Forall valid_ptr es -> NoDup es ->
  (length (nodes (root_ other)) <= length es)%nat ->
  exists m',
    emplace_each this Map_default es (map snd (nodes (root_ other)))
      = Some m' /\
    Map_ok m' /\ pairs (root_ m') = pairs (root_ other) /\
    addrs (root_ m') = firstn (length (nodes (root_ other))) es /\
    size m' = size other.
Proof.
  intros Hok Hv Hnd Hlen.
  destruct (emplace_each_appends this (nodes (root_ other)) Map_default es)
    as (m' & He & Hok' & Hn'); auto.
  - apply Map_default_ok.
  - simpl. apply bst_sorted. apply Hok.
  - simpl in Hn'. exists m'. split; [exact He|]. split; [exact Hok'|].
    destruct (combine_fst_snd (firstn (length (nodes (root_ other))) es)
                (map snd (nodes (root_ other)))) as [Hfst Hsnd].
    { rewrite length_firstn, length_map. lia. }
    unfold pairs, addrs, size. rewrite Hn', Hfst, Hsnd.
    split; [reflexivity|]. split; [reflexivity|].
    rewrite (ok_size _ Hok'), (ok_size _ Hok), Hn', length_combine.
    rewrite length_firstn, length_map. lia.
Qed.

(** X8. The copy constructor builds a well-formed map that holds the pairs
    of the source, in the same order and as many, each in a node of its own
    taken from the allocator: no node is shared with the source. *)
Theorem X8_copy_construct_same_pairs this other_this other es :
  Map_ok other -> Forall valid_ptr es -> NoDup es ->
  (length (nodes (root_ other)) <= length es)%nat ->
  exists m',
    copy_construct this other_this other es = Some m' /\
    Map_ok m' /\ pairs (root_ m') = pairs (root_ other) /\
    addrs (root_ m') = firstn (length (nodes (root_ other))) es /\
    size m' = size other.
Proof.
  intros Hok Hv Hnd Hlen. unfold copy_construct.
  rewrite (range_for_nodes other_this other Hok).
  exact (copy_nodes this other es Hok Hv Hnd Hlen).
Qed.

(** X9. Copy assignment from another map first clears the destination, then
    copies: whatever the destination held, it ends well formed with the
    pairs of the source, in the same order and as many, in nodes of its own.
    Copy assignment of a map to itself does nothing. *)
Theorem X9_copy_assign_same_pairs this others m other_this other es :
  Map_ok m -> Map_ok other -> Forall valid_ptr es -> NoDup es ->
  (length (nodes (root_ other)) <= length es)%nat ->
  (this <> other_this ->
   exists m',
     copy_assign this others m other_this other es = Some m' /\
     Map_ok m' /\ pairs (root_ m') = pairs (root_ other) /\
     addrs (root_ m') = firstn (length (nodes (root_ other))) es /\
     size m' = size other) /\
  copy_assign this others m this other es = Some m.
Proof.
  intros Hokm Hok Hv Hnd Hlen. unfold copy_assign. split.
  - intros Hne. apply Z.eqb_neq in Hne. rewrite Hne. simpl.
    rewrite (clear_ok this others m Hokm).
    rewrite (range_for_nodes other_this other Hok).
    exact (copy_nodes this other es Hok Hv Hnd Hlen).
  - rewrite Z.eqb_refl. reflexivity.
Qed.

(** ** Moves *)

Lemma Map_eta (o : @Map Key T) : {| root_ := root_ o; size_ := size_ o |} = o.
Proof. destruct o; reflexivity. Qed.

Lemma moved_world w obj other (o : @Map Key T) :
  obj <> other ->
  let w' := world_set (world_set w other Map_default) obj o in
  world_get w' obj = Some o /\ world_get w' other = Some Map_default /\
  forall x, x <> obj -> x <> other -> world_get w' x = world_get w x.
Proof.
  intros Hne w'. unfold w'. rewrite !world_get_set.
  rewrite Z.eqb_refl. rewrite (proj2 (Z.eqb_neq obj other) Hne).
  rewrite Z.eqb_refl. split; [reflexivity|]. split; [reflexivity|].
  intros x Hx Hx'. rewrite !world_get_set.
  rewrite (proj2 (Z.eqb_neq obj x)) by congruence.
  rewrite (proj2 (Z.eqb_neq other x)) by congruence. reflexivity.
Qed.

(** X21. In every state a program can reach, moving from a live map into
    another object is defined, by assignment when the destination is live
    (its own entries are erased first) and by construction when it is not:
    the destination takes over the tree of the source as it is, the same
    nodes with the same links, and the same size; the source is left empty
    and no other map is touched. *)
Theorem X21_move_transfers_entries prog w obj other o :
  run T_default [] prog = Some w ->
  world_get w other = Some o -> obj <> other ->
  exists w',
    exec T_default w (if is_live w obj then MoveAssign obj other
                      else MoveConstruct obj other) = Some w' /\
    world_get w' obj = Some o /\
    world_get w' other = Some Map_default /\
    forall x, x <> obj -> x <> other -> world_get w' x = world_get w x.
Proof.
  intros Hrun Ho Hne.
  pose proof (run_trees prog [] w (World_inv_nil _) Hrun) as [Hmaps _].
  exists (world_set (world_set w other Map_default) obj o).
  split; [|exact (moved_world w obj other o Hne)].
  unfold is_live. destruct (world_get w obj) as [m|] eqn:Hm.
  - unfold exec. simpl. rewrite Hm, Ho. unfold move_assign.
    rewrite (proj2 (Z.eqb_neq obj other) Hne). simpl.
    destruct (clear_tree obj (other_nodes w obj) m (Hmaps obj m Hm))
      as (m0 & -> & _).
    rewrite Map_eta. reflexivity.
  - unfold exec. simpl. unfold is_live. rewrite Hm, Ho. simpl.
    rewrite Map_eta. reflexivity.
Qed.

End Programs.

(** * The comparators of map.h *)







(** X18. [RefCountedPtrLess] is a strict weak ordering that compares the
    handles by identity: two [RefCountedPtr] are equivalent keys exactly
    when they hold the same address. *)
Theorem X18_RefCountedPtrLess_strict_weak_order :
  @StrictWeakOrder Ptr RefCountedPtrLess /\
  (forall p1 p2 : Ptr, @key_equiv _ RefCountedPtrLess p1 p2 <-> p1 = p2).
Proof.
  split.
  - constructor; unfold key_equiv, key_compare, RefCountedPtrLess.
    + intros x. apply Z.ltb_irrefl.
    + intros x y z. rewrite !Z.ltb_lt. lia.
    + intros x y z. rewrite !Z.ltb_ge. lia.
  - intros p1 p2. unfold key_equiv, key_compare, RefCountedPtrLess.
    rewrite !Z.ltb_ge. lia.
Qed.

(** * The claims at concrete maps *)

(** [std::less] on integers is a strict weak ordering. *)
#[export] Instance std_less_Z_StrictWeakOrder : StrictWeakOrder Z.
Proof.
  unfold key_compare, std_less_Z. constructor.
  - intros x. apply Z.ltb_irrefl.
  - intros x y z Hxy Hyz. apply Z.ltb_lt in Hxy, Hyz. apply Z.ltb_lt. lia.
  - unfold key_equiv, key_compare, std_less_Z.
    intros x y z [H1 H2] [H3 H4]. rewrite Z.ltb_ge in *.
    split; apply Z.ltb_ge; lia.
Qed.

Lemma C1_witness :
  run_ops 0 map_a [] Map_default ops_mixed = Some map_mixed /\
  tree_invariant (root_ map_mixed).
Proof.
  split; [reflexivity|].
  apply (C1_invariants_after_insert_erase map_a [] 0 ops_mixed map_mixed).
  reflexivity.
Defined.

Lemma C2_witness :
  exists it m',
    emplace map_a map_seven 128 (4, 44) = Some ((it, false), m') /\
    insert map_a map_seven 128 (4, 44) = Some ((it, false), m') /\
    it = mkIterator (Some 80) map_a /\
    deref m' it = Some (4, 40) /\
    deref m' (find map_a m' 4) = Some (4, 40) /\
    size m' = size map_seven.
Proof.
  apply (C2_insert_existing_key_wins map_a map_seven
           [(64, (1, 10)); (32, (3, 30))]
           [(16, (5, 50)); (96, (7, 70)); (48, (8, 80)); (112, (9, 90))]
           80 4 40 128 4 44).
  - apply Map_okb_ok. reflexivity.
  - reflexivity.
  - split; reflexivity.
Defined.

(** C3 as the spec states it fails: the second insertion of key 1 does not
    overwrite the value stored by the first. *)
Lemma C3_counterexample :
  let m : @Map Z Z :=
    {| root_ := mkEntry 16 (1, 10) nullptr nullptr 1; size_ := 1 |} in
  Map_ok m /\
  deref m (find map_a m 1) = Some (1, 10) /\
  exists res m',
    insert map_a m 32 (1, 20) = Some (res, m') /\
    deref m' (find map_a m' 1) = Some (1, 10) /\
    deref m' (find map_a m' 1) <> Some (1, 20).
Proof.
  simpl. split; [apply Map_okb_ok; reflexivity|]. split; [reflexivity|].
  eexists _, _. split; [reflexivity|]. split; [reflexivity|]. discriminate.
Qed.

Lemma C3_witness :
  exists res m',
    emplace map_a map_seven 128 (4, 44) = Some (res, m') /\
    m' = map_seven /\ deref m' (find map_a m' 4) = Some (4, 40).
Proof.
  eexists _, _. split; [reflexivity|].
  apply (C3_insert_existing_key_changes_nothing map_a map_seven
           [(64, (1, 10)); (32, (3, 30))]
           [(16, (5, 50)); (96, (7, 70)); (48, (8, 80)); (112, (9, 90))]
           80 4 40 128 4 44 (mkIterator (Some 80) map_a, false) map_seven).
  - apply Map_okb_ok. reflexivity.
  - reflexivity.
  - split; reflexivity.
  - reflexivity.
Defined.

Lemma key_absent_42 :
  Forall (fun n : Ptr * (Z * Z) => ~ key_equiv (node_key n) 42)
         (nodes (root_ map_seven)).
Proof.
  repeat constructor; intros [H _]; vm_compute in H; discriminate.
Qed.

Lemma C4_witness :
  (exists m', erase map_a [] map_seven 5 = Some (1, m') /\
              size m' = size map_seven - 1 /\
              pairs (root_ m') =
                [(1, 10); (3, 30); (4, 40); (7, 70); (8, 80); (9, 90)]) /\
  erase map_a [] map_seven 42 = Some (0, map_seven).
Proof.
  split.
  - destruct (C4_erase_by_key map_a [] map_seven 5) as [Hpresent _];
      [apply Map_okb_ok; reflexivity|].
    apply (Hpresent [(64, (1, 10)); (32, (3, 30)); (80, (4, 40))] 16 5 50
                    [(96, (7, 70)); (48, (8, 80)); (112, (9, 90))]).
    + reflexivity.
    + split; reflexivity.
  - destruct (C4_erase_by_key map_a [] map_seven 42) as [_ Habsent];
      [apply Map_okb_ok; reflexivity|].
    apply Habsent. exact key_absent_42.
Defined.

Lemma C5_witness :
  (exists it' m',
     erase_iter map_a [] map_seven (mkIterator (Some 16) map_a) = Some (it', m') /\
     pairs (root_ m') =
       [(1, 10); (3, 30); (4, 40); (7, 70); (8, 80); (9, 90)] /\
     deref m' it' = Some (7, 70)) /\
  erase_iter map_a [] map_seven (end_ map_a) = Some (end_ map_a, map_seven).
Proof.
  split.
  - destruct (C5_erase_by_iterator map_a [] map_seven) as [Hentry _];
      [apply Map_okb_ok; reflexivity|].
    apply (Hentry [(64, (1, 10)); (32, (3, 30)); (80, (4, 40))] 16 5 50
                  [(96, (7, 70)); (48, (8, 80)); (112, (9, 90))] map_a).
    reflexivity.
  - destruct (C5_erase_by_iterator map_a [] map_seven) as [_ Hend];
      [apply Map_okb_ok; reflexivity|].
    exact Hend.
Defined.

Lemma C6_witness :
  exists visited,
    (forall fuel, (length (nodes (root_ map_seven)) < fuel)%nat ->
       traverse fuel map_seven (begin map_a map_seven) (end_ map_a)
         = Some visited) /\
    range_for map_a map_seven = Some visited /\
    (forall a p, In (a, p) visited <->
                 exists l r h, subtree (mkEntry a p l r h) (root_ map_seven)) /\
    NoDup (map fst visited) /\
    StronglySorted
      (fun n1 n2 => key_compare (node_key n1) (node_key n2) = true) visited.
Proof.
  apply (C6_iteration_in_key_order map_a map_seven).
  apply Map_okb_ok. reflexivity.
Defined.

Lemma C9_witness :
  exists L R,
    nodes (root_ map_seven) = L ++ R /\
    Forall (fun n => key_compare (node_key n) 6 = true) L /\
    match R with
    | [] => True
    | n :: _ => key_compare (node_key n) 6 = false
    end /\
    lower_bound map_a map_seven 6 = Some (mkIterator (hd_ptr R) map_a) /\
    lower_bound_descent map_a map_seven 6 = mkIterator (hd_ptr R) map_a.
Proof.
  apply (C9_lower_bound_scan_refines_descent map_a map_seven 6).
  apply Map_okb_ok. reflexivity.
Defined.

Lemma C7_witness :
  (exists visited, range_for map_b map_two_b = Some visited /\
                   length visited = length (nodes (root_ map_two_b))) /\
  size map_two_b = Z.of_nat (length (nodes (root_ map_two_b))) /\
  exists visited, range_for map_b map_two_b = Some visited /\
                  size map_two_b = Z.of_nat (length visited).
Proof.
  destruct (C7_size_counts_entries 0 prog_two world_two map_b map_two_b)
    as [Hiter Hsize]; [reflexivity|reflexivity|].
  split; [exact Hiter|]. apply Hsize. reflexivity.
Defined.

(** The claim as it was stated fails after [a.erase(b.begin())]: the map at
    [map_a] holds one node, its iteration produces one entry, and its size
    is 0. *)
Lemma C7_counterexample :
  exists w m,
    run 0 [] prog_foreign = Some w /\ world_get w map_a = Some m /\
    nodes (root_ m) = [(64, (3, 30))] /\
    range_for map_a m = Some [(64, (3, 30))] /\
    size m = 0 /\
    size m <> Z.of_nat (length (nodes (root_ m))).
Proof.
  eexists _, _. split; [reflexivity|]. split; [reflexivity|].
  split; [reflexivity|]. split; [reflexivity|]. split; [reflexivity|].
  discriminate.
Qed.

(** C8 as the spec states it fails: the end iterators of two different live
    maps compare equal. *)
Lemma C8_counterexample :
  exists m1 m2,
    run 0 [] prog_two = Some world_two /\
    map_a <> map_b /\
    world_get world_two map_a = Some m1 /\
    world_get world_two map_b = Some m2 /\
    iterator_of map_a m1 (end_ map_a) /\
    iterator_of map_b m2 (end_ map_b) /\
    iterator_eq (end_ map_a) (end_ map_b) = true.
Proof.
  eexists _, _. split; [reflexivity|]. split; [discriminate|].
  split; [reflexivity|]. split; [reflexivity|].
  split; [apply end_iterator_of|]. split; [apply end_iterator_of|].
  reflexivity.
Qed.

Lemma C8_witness :
  (iterator_eq (mkIterator (Some 64) map_a) (mkIterator (Some 16) map_b) = true
   <-> Some 64 = Some 16) /\
  (iterator_eq (mkIterator (Some 64) map_a) (mkIterator (Some 16) map_b) = true
   <-> mkIterator (Some 64) map_a = end_ map_a /\
       mkIterator (Some 16) map_b = end_ map_b).
Proof.
  apply (C8_iterators_of_different_maps 0 prog_two world_two map_a map_b
           {| root_ := mkEntry 64 (3, 30) nullptr nullptr 1; size_ := 1 |}
           map_two_b (mkIterator (Some 64) map_a) (mkIterator (Some 16) map_b)).
  - reflexivity.
  - discriminate.
  - reflexivity.
  - reflexivity.
  - split; [reflexivity|]. simpl. auto.
  - split; [reflexivity|]. simpl. auto.
Defined.

(** The claim as it was stated fails in two ways.  After a move out of the
    map at [map_a], [a.erase(it)] with an iterator taken before the move
    leaves the map empty with size 2^64 - 1; after [a.erase(b.begin())] the
    map is not empty and has size 0. *)
Lemma C10_counterexample :
  (exists w m,
     run 0 [] prog_moved_from = Some w /\ world_get w map_a = Some m /\
     empty m = true /\ size m = SIZE_MAX /\ size m <> 0) /\
  (exists w m,
     run 0 [] prog_foreign = Some w /\ world_get w map_a = Some m /\
     empty m = false /\ size m = 0).
Proof.
  split.
  - eexists _, _. split; [reflexivity|]. split; [reflexivity|].
    split; [reflexivity|]. split; [reflexivity|]. discriminate.
  - eexists _, _. split; [reflexivity|]. split; [reflexivity|].
    split; reflexivity.
Qed.

Lemma C10_witness :
  (forall obj m, world_get world_two obj = Some m ->
     (empty m = true <-> size m = 0) /\
     (empty m = true <-> root_ m = nullptr)) /\
  (forall obj other w',
     exec 0 world_two (MoveConstruct obj other) = Some w' ->
     world_get w' other = Some {| root_ := nullptr; size_ := 0 |}) /\
  (forall obj other w',
     obj <> other ->
     exec 0 world_two (MoveAssign obj other) = Some w' ->
     world_get w' other = Some {| root_ := nullptr; size_ := 0 |}) /\
  (forall obj w',
     exec 0 world_two (MoveAssign obj obj) = Some w' ->
     world_get w' obj = world_get world_two obj).
Proof.
  destruct (C10_empty_iff_size_zero 0 prog_two world_two)
    as [Hempty Hmoves]; [reflexivity|].
  split; [|exact Hmoves]. intros obj m Hget.
  destruct (Hempty obj m Hget) as [Hsize Hroot].
  split; [apply Hsize; reflexivity|exact Hroot].
Defined.

(** ** The scenarios of the specification, run on the model *)

Example scenario_1_in_order :
  keys (root_ map_seven) = [1; 3; 4; 5; 7; 8; 9] /\
  tree_height (root_ map_seven) = 3.
Proof. split; reflexivity. Qed.

Example scenario_2_first_insert_wins :
  exists r1 m1 r2 m2,
    insert map_a Map_default 16 (2, 1) = Some (r1, m1) /\ snd r1 = true /\
    insert map_a m1 32 (2, 2) = Some (r2, m2) /\ snd r2 = false /\
    deref m2 (find map_a m2 2) = Some (2, 1).
Proof. do 4 eexists. repeat (split; [reflexivity|]). reflexivity. Qed.

Example scenario_3_ascending_keys :
  exists m,
    run_ops 0 map_a [] Map_default
      [OpInsert 16 (1, 0); OpInsert 32 (2, 0); OpInsert 48 (3, 0);
       OpInsert 64 (4, 0); OpInsert 80 (5, 0); OpInsert 96 (6, 0);
       OpInsert 112 (7, 0)] = Some m /\
    tree_height (root_ m) = 3 /\ keys (root_ m) = [1; 2; 3; 4; 5; 6; 7].
Proof. eexists. repeat (split; [reflexivity|]). reflexivity. Qed.

Example scenario_4_erase_root :
  exists it m,
    erase_iter map_a [] map_seven (find map_a map_seven 5) = Some (it, m) /\
    keys (root_ m) = [1; 3; 4; 7; 8; 9] /\ size m = 6 /\
    Map_okb m = true /\ deref m it = Some (7, 70).
Proof. do 2 eexists. repeat (split; [reflexivity|]). reflexivity. Qed.

Example scenario_5_subscript_inserts :
  exists it m,
    subscript 0 map_a map_seven 128 6 = Some (it, m) /\
    deref m it = Some (6, 0) /\ find map_a m 6 = it /\
    size m = size map_seven + 1.
Proof. do 2 eexists. repeat (split; [reflexivity|]). reflexivity. Qed.

Example scenario_6_move_construct :
  let (m, source) := move_construct map_seven in
  size source = 0 /\ begin map_a source = end_ map_a /\
  pairs (root_ m) = pairs (root_ map_seven).
Proof. simpl. repeat (split; [reflexivity|]). reflexivity. Qed.

(** * The further properties at concrete maps *)

Lemma copy_addrs_valid : Forall valid_ptr copy_addrs.
Proof.
  unfold copy_addrs.
  repeat (constructor; [apply valid_ptrb_valid; reflexivity|]). constructor.
Qed.

Lemma X1_witness :
  deref map_seven (find map_a map_seven 7) =
    lookup 7 (pairs (root_ map_seven)) /\
  (iterator_eq (find map_a map_seven 7) (end_ map_a) = true <->
   Forall (fun p => ~ key_equiv (fst p) 7) (pairs (root_ map_seven))) /\
  (forall p, In p (pairs (root_ map_seven)) -> key_equiv (fst p) 7 ->
             deref map_seven (find map_a map_seven 7) = Some p).
Proof.
  apply (X1_find_is_lookup map_a map_seven 7). apply Map_okb_ok. reflexivity.
Defined.

Lemma X2_witness :
  exists m',
    emplace map_a map_seven 128 (6, 60)
      = Some ((mkIterator (Some 128) map_a, true), m') /\
    Map_ok m' /\ size m' = size map_seven + 1 /\
    find map_a m' 6 = mkIterator (Some 128) map_a /\
    deref m' (find map_a m' 6) = Some (6, 60).
Proof.
  apply (X2_emplace_then_find map_a map_seven 128 6 60).
  - apply Map_okb_ok. reflexivity.
  - apply fresh_ptrb_spec. reflexivity.
  - reflexivity.
Defined.

Lemma X3_witness :
  exists res m',
    emplace map_a map_seven 128 (6, 60) = Some (res, m') /\
    (forall it q, deref map_seven it = Some q -> deref m' it = Some q) /\
    (forall k q, deref map_seven (find map_a map_seven k) = Some q ->
                 deref m' (find map_a m' k) = Some q).
Proof.
  apply (X3_emplace_keeps_entries map_a map_seven 128 (6, 60)).
  - apply Map_okb_ok. reflexivity.
  - apply fresh_ptrb_spec. reflexivity.
Defined.

Lemma X4_witness :
  exists it m',
    subscript 0 map_a map_seven 128 6 = Some (it, m') /\
    Map_ok m' /\ find map_a m' 6 = it /\
    it = mkIterator (Some 128) map_a /\ size m' = size map_seven + 1 /\
    deref m' it = Some (6, 0).
Proof.
  destruct (X4_subscript_finds_or_inserts_default map_a 0 map_seven 128 6)
    as (it & m' & H).
  - apply Map_okb_ok. reflexivity.
  - apply fresh_ptrb_spec. reflexivity.
  - exists it, m'. exact H.
Defined.

Lemma X5_witness :
  exists n m',
    erase map_a [] map_seven 5 = Some (n, m') /\ Map_ok m' /\
    find map_a m' 5 = end_ map_a /\
    (forall k', ~ key_equiv k' 5 ->
                deref m' (find map_a m' k') =
                deref map_seven (find map_a map_seven k')).
Proof.
  apply (X5_erase_then_find map_a [] map_seven 5). apply Map_okb_ok. reflexivity.
Defined.

Lemma X6_witness :
  exists it' m',
    erase_iter map_a [] map_seven (mkIterator (Some 16) map_a) = Some (it', m') /\
    (forall c q mp',
       In (c, q) ([(64, (1, 10)); (32, (3, 30)); (80, (4, 40))] ++
                  [(48, (8, 80)); (112, (9, 90))]) ->
       deref m' (mkIterator (Some c) mp') = Some q).
Proof.
  apply (X6_erase_iterator_keeps_other_nodes map_a [] map_seven
           [(64, (1, 10)); (32, (3, 30)); (80, (4, 40))]
           [(96, (7, 70)); (48, (8, 80)); (112, (9, 90))] 16 (5, 50) map_a).
  - apply Map_okb_ok. reflexivity.
  - reflexivity.
Defined.

Lemma X7_witness :
  exists m',
    clear map_a [] map_seven = Some m' /\ Map_ok m' /\ nodes (root_ m') = [] /\
    empty m' = true /\ size m' = 0 /\
    iterator_eq (begin map_a m') (end_ map_a) = true.
Proof.
  apply (X7_clear_leaves_empty_map map_a [] map_seven).
  apply Map_okb_ok. reflexivity.
Defined.

Lemma X8_witness :
  exists m',
    copy_construct map_b map_a map_seven copy_addrs = Some m' /\
    Map_ok m' /\ pairs (root_ m') = pairs (root_ map_seven) /\
    addrs (root_ m') = copy_addrs /\ size m' = size map_seven.
Proof.
  apply (X8_copy_construct_same_pairs map_b map_a map_seven copy_addrs).
  - apply Map_okb_ok. reflexivity.
  - exact copy_addrs_valid.
  - apply distinctb_distinct. reflexivity.
  - simpl. lia.
Defined.

Lemma X9_witness :
  (exists m',
     copy_assign map_b (nodes (root_ map_seven)) map_dest map_a map_seven
       copy_addrs = Some m' /\
     Map_ok m' /\ pairs (root_ m') = pairs (root_ map_seven) /\
     addrs (root_ m') = copy_addrs /\ size m' = size map_seven) /\
  copy_assign map_b (nodes (root_ map_seven)) map_dest map_b map_seven
    copy_addrs = Some map_dest.
Proof.
  destruct (X9_copy_assign_same_pairs map_b (nodes (root_ map_seven))
              map_dest map_a map_seven copy_addrs) as [Hcopy Hself].
  - apply Map_okb_ok. reflexivity.
  - apply Map_okb_ok. reflexivity.
  - exact copy_addrs_valid.
  - apply distinctb_distinct. reflexivity.
  - simpl. lia.
  - split; [|exact Hself]. apply Hcopy. discriminate.
Defined.

Lemma X10_witness :
  (exists it',
     incr map_seven (mkIterator (Some 16) map_a) = Some it' /\
     map_ it' = map_a /\ deref map_seven it' = Some (7, 70)) /\
  (exists it',
     incr map_seven (mkIterator (Some 112) map_a) = Some it' /\
     curr_ it' = None) /\
  incr map_seven (end_ map_a) = None.
Proof.
  destruct (X10_increment_next_greater map_a map_seven) as [Hstep Hend].
  - apply Map_okb_ok. reflexivity.
  - split; [|split; [|exact Hend]].
    + destruct (Hstep (mkIterator (Some 16) map_a) (5, 50) eq_refl)
        as (it' & Hi & Hm & _).
      exists it'. split; [exact Hi|]. split; [exact Hm|].
      injection Hi as <-. reflexivity.
    + destruct (Hstep (mkIterator (Some 112) map_a) (9, 90) eq_refl)
        as (it' & Hi & _).
      exists it'. split; [exact Hi|]. injection Hi as <-. reflexivity.
Defined.

Lemma X11_witness :
  (iterator_eq (begin map_a map_seven) (end_ map_a) = true <->
   empty map_seven = true) /\
  (empty map_seven = false ->
   exists p, deref map_seven (begin map_a map_seven) = Some p) /\
  (forall p, deref map_seven (begin map_a map_seven) = Some p ->
     forall q, In q (pairs (root_ map_seven)) ->
               q = p \/ key_lt (fst p) (fst q)).
Proof.
  apply (X11_begin_is_least map_a map_seven). apply Map_okb_ok. reflexivity.
Defined.

Lemma X12_witness :
  (CompareKeys 3 5 = -1 \/ CompareKeys 3 5 = 0 \/ CompareKeys 3 5 = 1) /\
  CompareKeys 5 3 = - CompareKeys 3 5 /\
  (CompareKeys 3 5 = 0 <-> key_equiv 3 5) /\
  (CompareKeys 3 5 = -1 <-> key_compare 3 5 = true) /\
  (CompareKeys 3 5 = 1 <-> key_compare 5 3 = true).
Proof. apply (X12_CompareKeys_three_way 3 5). Defined.

Lemma X13_witness :
  nodes (mkEntry 32 (2, 20) (mkEntry 16 (1, 10) nullptr nullptr 1) nullptr 2)
    = nodes (root_ map_two_b) /\
  (bst (root_ map_two_b) ->
   bst (mkEntry 32 (2, 20) (mkEntry 16 (1, 10) nullptr nullptr 1) nullptr 2)) /\
  (NoDup (addrs (root_ map_two_b)) ->
   NoDup (addrs (mkEntry 32 (2, 20) (mkEntry 16 (1, 10) nullptr nullptr 1)
                   nullptr 2))).
Proof.
  apply (X13_rotations_keep_in_order_sequence (root_ map_two_b)).
  left. reflexivity.
Defined.

Lemma X14_witness :
  (exists e',
     RotateLeft (root_ map_two_b) = Some e' /\ ptr_of e' = Some 32 /\
     RotateRight e' = Some (root_ map_two_b)) /\
  (exists e',
     RotateRight (mkEntry 32 (2, 20) (mkEntry 16 (1, 10) nullptr nullptr 1)
                    nullptr 2) = Some e' /\
     ptr_of e' = Some 16 /\
     RotateLeft e' =
       Some (mkEntry 32 (2, 20) (mkEntry 16 (1, 10) nullptr nullptr 1)
               nullptr 2)).
Proof.
  split.
  - destruct (X14_rotations_undo_each_other 16 (1, 10) 32 (2, 20)
                (@nullptr Z Z) nullptr nullptr 1 2) as [H _];
      try reflexivity; try (simpl; lia).
    apply H; reflexivity.
  - destruct (X14_rotations_undo_each_other 16 (1, 10) 32 (2, 20)
                (@nullptr Z Z) nullptr nullptr 2 1) as [_ H];
      try reflexivity; try (simpl; lia).
    apply H; reflexivity.
Defined.

Lemma X15_witness :
  exists t',
    InsertRecursive map_a 128 (root_ map_seven) (4, 44)
      = Some (mkIterator (Some 80) map_a, t') /\
    t' = set_pair (root_ map_seven) 80 (4, 44) /\
    nodes t' = [(64, (1, 10)); (32, (3, 30))] ++ (80, (4, 44)) ::
               [(16, (5, 50)); (96, (7, 70)); (48, (8, 80)); (112, (9, 90))] /\
    EntryHeight t' = EntryHeight (root_ map_seven) /\ avl t'.
Proof.
  apply (X15_InsertRecursive_overwrites_in_place map_a map_seven 128
           [(64, (1, 10)); (32, (3, 30))] 
           [(16, (5, 50)); (96, (7, 70)); (48, (8, 80)); (112, (9, 90))]
           80 (4, 40) (4, 44)).
  - apply Map_okb_ok. reflexivity.
  - reflexivity.
  - split; reflexivity.
Defined.

Lemma X16_witness :
  EntryHeight (root_ map_seven) = tree_height (root_ map_seven) /\
  2 ^ (tree_height (root_ map_seven) / 2) <= size map_seven + 1 /\
  tree_height (root_ map_seven) <= 129 /\ size map_seven <= SIZE_MAX.
Proof.
  apply (X16_height_is_logarithmic map_seven). apply Map_okb_ok. reflexivity.
Defined.

Lemma X19_witness :
  exists it m1 m2,
    subscript 0 map_a map_seven 128 6 = Some (it, m1) /\
    assign_second m1 it 66 = Some m2 /\ Map_ok m2 /\
    size m2 = size m1 /\ find map_a m2 6 = it /\
    (exists k0, key_equiv k0 6 /\ deref m2 it = Some (k0, 66)) /\
    (forall k', ~ key_equiv k' 6 ->
       deref m2 (find map_a m2 k') =
       deref map_seven (find map_a map_seven k')).
Proof.
  apply (X19_subscript_assign_then_read map_a 0 map_seven 128 6 66).
  - apply Map_okb_ok. reflexivity.
  - apply fresh_ptrb_spec. reflexivity.
Defined.

Lemma X20_witness :
  exists it m1 m2,
    emplace map_a map_seven 128 (6, 60) = Some ((it, true), m1) /\
    erase map_a [] m1 6 = Some (1, m2) /\ Map_ok m2 /\
    pairs (root_ m2) = pairs (root_ map_seven) /\ size m2 = size map_seven.
Proof.
  apply (X20_emplace_then_erase_restores map_a [] map_seven 128 6 60).
  - apply Map_okb_ok. reflexivity.
  - apply fresh_ptrb_spec. reflexivity.
  - reflexivity.
Defined.

Lemma X21_witness :
  exists w',
    exec 0 world_two (MoveAssign map_a map_b) = Some w' /\
    world_get w' map_a = Some map_two_b /\
    world_get w' map_b = Some Map_default /\
    forall x, x <> map_a -> x <> map_b ->
              world_get w' x = world_get world_two x.
Proof.
  apply (X21_move_transfers_entries 0 prog_two world_two map_a map_b
           map_two_b).
  - reflexivity.
  - reflexivity.
  - discriminate.
Defined.

Lemma X22_witness :
  exists L b q R2 m',
    nodes (root_ map_seven) = L ++ (16, (5, 50)) :: (b, q) :: R2 /\
    erase_iter map_a [] map_seven (mkIterator (Some 16) map_a)
      = Some (mkIterator (Some 16) map_a, m') /\
    nodes (root_ m') = L ++ (16, q) :: R2 /\
    b <> 16 /\ deref map_seven (mkIterator (Some b) map_a) = Some q /\
    key_lt 5 (fst q) /\
    (forall q', In q' (pairs (root_ map_seven)) -> key_lt 5 (fst q') ->
                q' = q \/ key_lt (fst q) (fst q')) /\
    deref m' (mkIterator (Some 16) map_a) = Some q /\
    deref m' (mkIterator (Some b) map_a) = None /\
    ~ In b (addrs (root_ m')).
Proof.
  eapply (X22_erase_two_children_frees_successor_node map_a [] map_seven
            16 (5, 50) _ _ _ map_a).
  - apply Map_okb_ok. reflexivity.
  - apply subtree_here.
  - discriminate.
  - discriminate.
Defined.
